(** * Paste Reformatter: the markdown transformer

    A shallow embedding of [transformMarkdown] (src/markdownTransformer.ts)
    and the properties of its five stages: heading normalisation, markdown
    escaping, blank-run collapsing, empty-line filtering and the user's
    regex replacements. *)

From Stdlib Require Import String Ascii.
From Stdlib Require Import List NArith ZArith Lia Bool Arith.
From Equations Require Import Equations.
From ExtLib Require Import Structures.Monad Structures.MonadExc.
From ExtLib Require Import Data.Monads.EitherMonad.
Import ListNotations.

Set Implicit Arguments.

(** ** JavaScript strings

    A JavaScript string is a sequence of UTF-16 code units.  A code unit is
    kept as its number; nothing below depends on the bound 65535. *)

Module JS.

Abbreviation char := N.
Abbreviation str := (list N).

(** A string literal of the source, for texts in the Latin-1 range. *)
Definition lit (s : string) : str := map N_of_ascii (list_ascii_of_string s).

Definition LF : char := 10%N.
Definition CR : char := 13%N.
Definition SPACE : char := 32%N.
Definition HASH : char := 35%N.
Definition BACKSLASH : char := 92%N.
Definition BACKTICK : char := 96%N.
Definition QUOTE : char := 34%N.
Definition STAR : char := 42%N.
Definition PLUS : char := 43%N.
Definition DASH : char := 45%N.
Definition DOT : char := 46%N.
Definition SLASH : char := 47%N.
Definition LT : char := 60%N.
Definition GT : char := 62%N.
Definition UNDERSCORE : char := 95%N.
Definition PIPE : char := 124%N.

(** ECMAScript LineTerminator: LF, CR, LS, PS. *)
Definition isLineTerminator (c : char) : bool :=
  (c =? 10)%N || (c =? 13)%N || (c =? 0x2028)%N || (c =? 0x2029)%N.

(** The class [\s] (and what [trim] strips): WhiteSpace and LineTerminator. *)
Definition isWhiteSpace (c : char) : bool :=
  ((9 <=? c)%N && (c <=? 13)%N) || (c =? 32)%N || (c =? 0xA0)%N
  || (c =? 0x1680)%N || ((0x2000 <=? c)%N && (c <=? 0x200A)%N)
  || (c =? 0x2028)%N || (c =? 0x2029)%N || (c =? 0x202F)%N
  || (c =? 0x205F)%N || (c =? 0x3000)%N || (c =? 0xFEFF)%N.

(** The class [\d]. *)
Definition isDigit (c : char) : bool := (48 <=? c)%N && (c <=? 57)%N.

(** [[a-z]] under the [i] flag without the [u] flag: the ASCII letters. *)
Definition isLetter (c : char) : bool :=
  ((97 <=? c)%N && (c <=? 122)%N) || ((65 <=? c)%N && (c <=? 90)%N).

(** [s.repeat(n)] for a one-character [s]; the source only passes a count of
    at least 1 ([newLevels_positive] below). *)
Definition repeat (c : char) (n : Z) : str := List.repeat c (Z.to_nat n).

Fixpoint eqb (a b : str) : bool :=
  match a, b with
  | [], [] => true
  | x :: a', y :: b' => (x =? y)%N && eqb a' b'
  | _, _ => false
  end.

(** [a !== b] on strings. *)
Definition neqb (a b : str) : bool := negb (eqb a b).

(** The longest prefix of [s] whose characters satisfy [p], and what follows. *)
Fixpoint span (p : char -> bool) (s : str) : str * str :=
  match s with
  | c :: s' => if p c then let (a, b) := span p s' in (c :: a, b) else ([], s)
  | [] => ([], [])
  end.

(** [s] starts with [pre]: what follows it. *)
Fixpoint stripPrefix (pre s : str) : option str :=
  match pre, s with
  | [], _ => Some s
  | x :: pre', y :: s' => if (x =? y)%N then stripPrefix pre' s' else None
  | _ :: _, [] => None
  end.

(** *** Regular expressions

    A compiled regular expression is its match function at one position of
    the subject: given the character before the position ([None] at index
    0), as the assertion [^] needs it, and the text from the position on,
    it returns the matched text and the capture groups. *)

Record MatchResult := { matched : str; groups : list (option str) }.

Definition Regex := option char -> str -> option MatchResult.

(** [^] under the [m] flag. *)
Definition atLineStart (prev : option char) : bool :=
  match prev with None => true | Some c => isLineTerminator c end.

(** [^] and [$] without the [m] flag. *)
Definition atStart (prev : option char) : bool :=
  match prev with None => true | Some _ => false end.
Definition atEnd (s : str) : bool :=
  match s with [] => true | _ :: _ => false end.

(** The character a match that consumed [S k] characters of [c :: s] ends on. *)
Definition lastConsumed (c : char) (k : nat) (s : str) : char :=
  nth k (c :: s) c.

(** One pass of a global regex over the subject, as
    RegExp.prototype[Symbol.replace] collects its results: the leftmost
    match from the current index, then on from its end (one further after
    an empty match).  Each result comes with the unmatched text before it;
    the unmatched text after the last one is returned beside. *)
Definition pushGap (c : char) (r : list (str * MatchResult) * str)
  : list (str * MatchResult) * str :=
  match r with
  | ([], tl) => ([], c :: tl)
  | ((g, m) :: occs, tl) => ((c :: g, m) :: occs, tl)
  end.

Equations? scan (re : Regex) (prev : option char) (s : str)
  : list (str * MatchResult) * str by wf (length s) lt :=
  scan re prev [] :=
    match re prev [] with
    | Some m => ([([], m)], [])
    | None => ([], [])
    end;
  scan re prev (c :: s') with re prev (c :: s') := {
    | None => pushGap c (scan re (Some c) s')
    | Some m with length (matched m) := {
      | 0 => let r := pushGap c (scan re (Some c) s') in
             (([], m) :: fst r, snd r)
      | S k => let r := scan re (Some (lastConsumed c k s')) (skipn k s') in
               (([], m) :: fst r, snd r) } }.
Proof.
  all: simpl; try lia.
  rewrite length_skipn. lia.
Qed.

(** [s.replace(re, f)] for a global [re] and a replacer function [f] that
    reads and writes variables of its closure, here the state [St]: the
    replacer is called on the results in order. *)
Fixpoint replaceOccs {St : Type} (f : St -> MatchResult -> St * str)
  (st : St) (occs : list (str * MatchResult)) : St * str :=
  match occs with
  | [] => (st, [])
  | (gap, m) :: occs' =>
      let (st1, rep) := f st m in
      let (st2, out) := replaceOccs f st1 occs' in
      (st2, gap ++ rep ++ out)
  end.

Definition replaceFrom {St : Type} (re : Regex)
  (f : St -> MatchResult -> St * str) (st : St) (prev : option char)
  (s : str) : St * str :=
  let (occs, tl) := scan re prev s in
  let (st', out) := replaceOccs f st occs in
  (st', out ++ tl).

Definition replaceWith {St : Type} (re : Regex)
  (f : St -> MatchResult -> St * str) (st : St) (s : str) : St * str :=
  replaceFrom re f st None s.

(** [s.replace(re, f)] for a replacer without state. *)
Definition replaceAt (re : Regex) (f : MatchResult -> str)
  (prev : option char) (s : str) : str :=
  snd (replaceFrom re (fun (_ : unit) m => (tt, f m)) tt prev s).

Definition replace (re : Regex) (f : MatchResult -> str) (s : str) : str :=
  replaceAt re f None s.

(** Capture group [n] of a result ([$n]); an unmatched group is undefined. *)
Definition group (n : nat) (m : MatchResult) : option str :=
  nth (pred n) (groups m) None.

(** The replacement pattern ['\\$1']: a backslash and group 1. *)
Definition backslash1 (m : MatchResult) : str :=
  BACKSLASH :: match group 1 m with Some g => g | None => [] end.

(** A result whose group 1 is the whole match, as in [/(...)/]. *)
Definition whole (t : str) : MatchResult :=
  {| matched := t; groups := [Some t] |}.

Definition plain (t : str) : MatchResult :=
  {| matched := t; groups := [] |}.

(** A regex that is one literal text, and the replacement by a constant. *)
Definition literal (pat : str) : Regex := fun _ s =>
  match stripPrefix pat s with
  | Some _ => Some (plain pat)
  | None => None
  end.

Definition replaceLiteral (pat rep : str) (s : str) : str :=
  replace (literal pat) (fun _ => rep) s.

(** An alternation of literal texts in a group, [/(a|b|c)/]: the first
    alternative the text starts with. *)
Fixpoint alternatives (alts : list str) (s : str) : option MatchResult :=
  match alts with
  | [] => None
  | a :: alts' =>
      match stripPrefix a s with
      | Some _ => Some (whole a)
      | None => alternatives alts' s
      end
  end.

(** A lazy [.*?] and the literal [closing] after it: the shortest run of
    characters other than line terminators that [closing] follows. *)
Fixpoint lazyUntil (closing : str) (s : str) : option str :=
  match stripPrefix closing s with
  | Some _ => Some closing
  | None =>
      match s with
      | [] => None
      | c :: s' =>
          if isLineTerminator c then None
          else option_map (cons c) (lazyUntil closing s')
      end
  end.

(** A greedy [.*] and the character [c0] after it: the longest such run. *)
Fixpoint greedyUntil (c0 : char) (s : str) : option str :=
  match s with
  | [] => None
  | c :: s' =>
      match (if isLineTerminator c then None else greedyUntil c0 s') with
      | Some t => Some (c :: t)
      | None => if (c =? c0)%N then Some [c] else None
      end
  end.

(** A greedy [\s*] before [$] under the [m] flag, on the white-space run
    [ws]; [atEndAfter] says that the subject ends with the run.  The longest
    part of the run after which the line ends. *)
Fixpoint spaceToLineEnd (ws : str) (atEndAfter : bool) : option str :=
  match ws with
  | [] => if atEndAfter then Some [] else None
  | c :: ws' =>
      match spaceToLineEnd ws' atEndAfter with
      | Some t => Some (c :: t)
      | None => if isLineTerminator c then Some [] else None
      end
  end.

(** [re.test(s)] for a regex without the [g] flag: a match at some index. *)
Fixpoint searchFrom (re : Regex) (prev : option char) (s : str) : bool :=
  match re prev s with
  | Some _ => true
  | None =>
      match s with
      | [] => false
      | c :: s' => searchFrom re (Some c) s'
      end
  end.

Definition test (re : Regex) (s : str) : bool := searchFrom re None s.

Fixpoint dropWhile (p : char -> bool) (s : str) : str :=
  match s with
  | c :: s' => if p c then dropWhile p s' else s
  | [] => []
  end.

(** [s.trim()]. *)
Definition trim (s : str) : str :=
  rev (dropWhile isWhiteSpace (rev (dropWhile isWhiteSpace s))).

(** [s.split(sep)] and [lines.join(sep)] for a one-character separator. *)
Fixpoint split (sep : char) (s : str) : list str :=
  match s with
  | [] => [[]]
  | c :: s' =>
      if (c =? sep)%N then [] :: split sep s'
      else match split sep s' with
           | l :: ls => (c :: l) :: ls
           | [] => [[c]]
           end
  end.

Fixpoint join (sep : char) (lines : list str) : str :=
  match lines with
  | [] => []
  | [l] => l
  | l :: ls => l ++ sep :: join sep ls
  end.

(** A string in a condition: the empty string and [undefined] are falsy. *)
Definition truthy (o : option str) : bool :=
  match o with
  | Some (_ :: _) => true
  | _ => false
  end.

End JS.

Import JS.
Local Open Scope Z_scope.

(** ** The settings and the result of [transformMarkdown] *)

Record Replacement := { pattern : str; replacement : str }.

Record Settings := {
  markdownRegexReplacements : list Replacement;
  contextualCascade : bool;
  maxHeadingLevel : Z;
  cascadeHeadingLevels : bool;
  stripLineBreaks : bool;
  convertToSingleSpaced : bool;
  removeEmptyLines : bool
}.

Record Result := { markdown : str; appliedTransformations : bool }.

(** ** Stage 1: the heading levels *)

(** [(#{1,6})\s] at a position.  The greedy [#{1,6}] takes the run of
    hashes; giving hashes back leaves a hash where [\s] is required, so
    there is a match exactly when the run has 1 to 6 hashes and a
    white-space character follows.  Group 1 is the hashes. *)
Definition headingMarker (s : str) : option MatchResult :=
  let (hashes, rest) := span (N.eqb HASH) s in
  match rest with
  | w :: _ =>
      if (1 <=? length hashes)%nat && (length hashes <=? 6)%nat
         && isWhiteSpace w
      then Some {| matched := hashes ++ [w]; groups := [Some hashes] |}
      else None
  | [] => None
  end.

(** [/^(#{1,6})\s/gm] (line 29). *)
Definition headingRegex : Regex := fun prev s =>
  if atLineStart prev then headingMarker s else None.

(** The variables the two replacer functions close over: [delta] and
    [cascading] of the branch, and [appliedTransformations] of the
    function. *)
Record Cascade := { delta : Z; cascading : bool; applied : bool }.

Definition hashesLength (m : MatchResult) : Z :=
  match group 1 m with
  | Some hashes => Z.of_nat (length hashes)
  | None => 0
  end.

(** The replacer of the contextual cascade (lines 37-58). *)
Definition contextualReplacer (contextLevel : Z) (st : Cascade)
  (m : MatchResult) : Cascade * str :=
  let currentLevel := hashesLength m in
  let '(newLevel, delta', cascading') :=
    if cascading st then
      (Z.min (currentLevel + delta st) 6, delta st, true)
    else if currentLevel <=? contextLevel then
      let newLevel := Z.min (contextLevel + 1) 6 in
      (newLevel, newLevel - currentLevel, true)
    else (currentLevel, delta st, false) in
  ({| delta := delta'; cascading := cascading';
      applied := negb (newLevel =? currentLevel) |},
   JS.repeat HASH newLevel ++ [SPACE]).

(** The replacer of the max-level branch (lines 63-90). *)
Definition maxLevelReplacer (settings : Settings) (st : Cascade)
  (m : MatchResult) : Cascade * str :=
  let currentLevel := hashesLength m in
  let '(newLevel, delta', cascading') :=
    if cascadeHeadingLevels settings then
      if cascading st then
        (Z.min (currentLevel + delta st) 6, delta st, true)
      else if currentLevel <? maxHeadingLevel settings then
        let newLevel := maxHeadingLevel settings in
        (newLevel, newLevel - currentLevel, true)
      else (currentLevel, delta st, false)
    else (Z.max currentLevel (maxHeadingLevel settings), delta st,
          cascading st) in
  ({| delta := delta'; cascading := cascading';
      applied := negb (newLevel =? currentLevel) |},
   JS.repeat HASH newLevel ++ [SPACE]).

(** Lines 27-91, the branch [!escapeMarkdown]: the text and
    [appliedTransformations] after it. *)
Definition normalizeHeadings (settings : Settings) (contextLevel : Z)
  (md : str) (appliedTransformations : bool) : str * bool :=
  let start := {| delta := -1; cascading := false;
                  applied := appliedTransformations |} in
  if contextualCascade settings && (0 <? contextLevel) then
    let (st, md') :=
      replaceWith headingRegex (contextualReplacer contextLevel) start md in
    (md', applied st)
  else if 1 <? maxHeadingLevel settings then
    let (st, md') :=
      replaceWith headingRegex (maxLevelReplacer settings) start md in
    (md', applied st)
  else (md, appliedTransformations).

(** ** Stage 2: escaping (lines 95-128) *)

(** [/^(#{1,6}\s)/gm]. *)
Definition escHeading : Regex := fun prev s =>
  option_map (fun m => whole (matched m)) (headingRegex prev s).

(** [/(\*\*|__|\*|_)/g]. *)
Definition escEmphasis : Regex := fun _ s =>
  alternatives [[STAR; STAR]; [UNDERSCORE; UNDERSCORE]; [STAR]; [UNDERSCORE]] s.

(** [^\s*] and then [body], which starts on a character that is no white
    space: the greedy [\s*] takes the whole run, a shorter one leaves a
    white-space character where [body] starts. *)
Definition afterIndent (body : str -> option str) : Regex := fun prev s =>
  if atLineStart prev then
    let (ws, rest) := span isWhiteSpace s in
    option_map (fun t => whole (ws ++ t)) (body rest)
  else None.

(** [/^(\s*[-+*]\s)/gm]. *)
Definition escBullet : Regex :=
  afterIndent (fun s =>
    match s with
    | b :: w :: _ =>
        if ((b =? DASH) || (b =? PLUS) || (b =? STAR))%N && isWhiteSpace w
        then Some [b; w] else None
    | _ => None
    end).

(** [/^(\s*\d+\.\s)/gm]: the greedy [\d+] takes the whole run of digits, a
    shorter one leaves a digit where the dot is required. *)
Definition escOrdered : Regex :=
  afterIndent (fun s =>
    let (digits, rest) := span isDigit s in
    match digits, rest with
    | _ :: _, d :: w :: _ =>
        if (d =? DOT)%N && isWhiteSpace w
        then Some (digits ++ [d; w]) else None
    | _, _ => None
    end).

(** [/(!?\[)/g]. *)
Definition escBracket : Regex := fun _ s =>
  alternatives [lit "!["; lit "["] s.

(** [/(`{1,3})/g]: up to three of the run of backticks. *)
Definition escBacktick : Regex := fun _ s =>
  match firstn 3 (fst (span (N.eqb BACKTICK) s)) with
  | [] => None
  | ticks => Some (whole ticks)
  end.

(** [/^(\s*>\s)/gm]. *)
Definition escQuote : Regex :=
  afterIndent (fun s =>
    match s with
    | g :: w :: _ =>
        if (g =? GT)%N && isWhiteSpace w then Some [g; w] else None
    | _ => None
    end).

(** The horizontal rules of line 115, [^], a group of [\s*], [[-*_]{3,}]
    and [\s*], and [$], under the flags [gm]: the greedy [[-*_]{3,}] takes
    the whole run (a shorter one leaves one of its characters before [$]);
    the last [\s*] gives back until a line end follows. *)
Definition escRule : Regex :=
  afterIndent (fun s =>
    let (marks, rest) :=
      span (fun c => ((c =? DASH) || (c =? STAR) || (c =? UNDERSCORE))%N) s in
    if (3 <=? length marks)%nat then
      let (ws, rest') := span isWhiteSpace rest in
      option_map (app marks) (spaceToLineEnd ws (atEnd rest'))
    else None).

(** [/(\|)/g]. *)
Definition escPipe : Regex := fun _ s => alternatives [[PIPE]] s.

(** [/^(\s*- \[ \])/gm]. *)
Definition escTask : Regex :=
  afterIndent (fun s =>
    match stripPrefix (lit "- [ ]") s with
    | Some _ => Some (lit "- [ ]")
    | None => None
    end).

(** [`.*?`]. *)
Definition codeSpan (s : str) : option str :=
  match s with
  | c :: s' =>
      if (c =? BACKTICK)%N then option_map (cons c) (lazyUntil [BACKTICK] s')
      else None
  | [] => None
  end.

(** [<\/?[a-z][^>]*>] under the [i] flag: an optional slash (without it a
    slash stands where the letter is required), a letter, and the greedy
    [[^>]*] up to the first [>]. *)
Definition htmlTag (s : str) : option str :=
  match s with
  | l :: s1 =>
      if (l =? LT)%N then
        let (slash, s2) :=
          match s1 with
          | c :: s2 => if (c =? SLASH)%N then ([c], s2) else ([], s1)
          | [] => ([], s1)
          end in
        match s2 with
        | a :: s3 =>
            if isLetter a then
              let (inner, s4) := span (fun c => negb (c =? GT)%N) s3 in
              match s4 with
              | g :: _ => Some (l :: slash ++ a :: inner ++ [g])
              | [] => None
              end
            else None
        | [] => None
        end
      else None
  | [] => None
  end.

(** [/(`.*?`)|(<\/?[a-z][^>]*>)/gi]: the code span first, else the tag. *)
Definition codeOrTag : Regex := fun _ s =>
  match codeSpan s with
  | Some t => Some {| matched := t; groups := [Some t; None] |}
  | None =>
      match htmlTag s with
      | Some t => Some {| matched := t; groups := [None; Some t] |}
      | None => None
      end
  end.

(** The replacer of lines 121-126. *)
Definition codeOrTagReplacer (m : MatchResult) : str :=
  let codeContent := group 1 m in
  let htmlTag := group 2 m in
  if truthy codeContent then
    match codeContent with Some t => t | None => [] end
  else if truthy htmlTag then
    match htmlTag with
    | Some t => BACKTICK :: t ++ [BACKTICK]
    | None => []
    end
  else matched m.

(** The chain of lines 99-126. *)
Definition escapeChain (md : str) : str :=
  let md := replace escHeading backslash1 md in
  let md := replace escEmphasis backslash1 md in
  let md := replace escBullet backslash1 md in
  let md := replace escOrdered backslash1 md in
  let md := replace escBracket backslash1 md in
  let md := replace escBacktick backslash1 md in
  let md := replace escQuote backslash1 md in
  let md := replace escRule backslash1 md in
  let md := replace escPipe backslash1 md in
  let md := replace escTask backslash1 md in
  replace codeOrTag codeOrTagReplacer md.

Definition escapeStage (md : str) : str * bool :=
  let originalMarkdown := md in
  let md := escapeChain md in
  (md, neqb originalMarkdown md).

(** ** Stage 3: runs of blank lines (lines 136-147) *)

(** [/\r\n/g] to ['\n']. *)
Definition normalizeLineEndings (md : str) : str :=
  replaceLiteral [CR; LF] [LF] md.

(** [/\n{3,}/g]: the whole run of line feeds, when it has three or more. *)
Definition blankRun : Regex := fun _ s =>
  let run := fst (span (N.eqb LF) s) in
  if (3 <=? length run)%nat then Some (plain run) else None.

Definition collapseBlankRuns (md : str) (appliedTransformations : bool)
  : str * bool :=
  let md := normalizeLineEndings md in
  let originalMarkdown := md in
  let md := replace blankRun (fun _ => [LF; LF]) md in
  (md, if neqb originalMarkdown md then true else appliedTransformations).

(** ** Stage 4: empty lines (lines 150-205) *)

(** The two regexes of lines 167 and 168, each the opening text of a [p]
    element with the class or the data attribute, then [[^>]*>], a lazy
    [.*?] and the closing tag.  The greedy [[^>]*] runs up to the first
    [>]. *)
Definition preserveMarker (opening : str) : Regex := fun _ s =>
  match stripPrefix opening s with
  | Some rest =>
      let (attrs, rest1) := span (fun c => negb (c =? GT)%N) rest in
      match rest1 with
      | g :: rest2 =>
          option_map (fun t => plain (opening ++ attrs ++ g :: t))
                     (lazyUntil (lit "</p>") rest2)
      | [] => None
      end
  | None => None
  end.

Definition preserveClass : Regex :=
  preserveMarker
    (lit "<p class=" ++ QUOTE :: lit "preserve-line-break" ++ [QUOTE]).

Definition preserveData : Regex :=
  preserveMarker
    (lit "<p data-preserve=" ++ QUOTE :: lit "true" ++ [QUOTE]).

(** [/^\s*-{3,}\s*$/] (line 178): without the [m] flag the two assertions
    are the start and the end of the line that is tested. *)
Definition ruleLine : Regex := fun prev s =>
  if atStart prev then
    let (_, s1) := span isWhiteSpace s in
    let (dashes, s2) := span (N.eqb DASH) s1 in
    let (_, s3) := span isWhiteSpace s2 in
    if (3 <=? length dashes)%nat && atEnd s3 then Some (plain s) else None
  else None.

(** [/^\s*\|.*\|/]. *)
Definition tableLine : Regex := fun prev s =>
  if atStart prev then
    let (ws, s1) := span isWhiteSpace s in
    match s1 with
    | p :: s2 =>
        if (p =? PIPE)%N
        then option_map (fun t => plain (ws ++ p :: t)) (greedyUntil PIPE s2)
        else None
    | [] => None
    end
  else None.

(** [/^#{1,6}\s/]. *)
Definition headingLine : Regex := fun prev s =>
  if atStart prev then headingMarker s else None.

(** What the iteration [i] of the loop of lines 159-199 pushes on
    [filteredLines]. *)
Definition filterLine (preserveLineBreaks : bool) (lines : list str)
  (i : nat) : list str :=
  match nth_error lines i with
  | None => []
  | Some currentLine =>
      let nextLine := nth_error lines (i + 1) in
      let isCurrentLineEmpty := JS.eqb (trim currentLine) [] in
      if preserveLineBreaks
         && (test preserveClass currentLine || test preserveData currentLine)
      then [[]]
      else if isCurrentLineEmpty
              && match nextLine with
                 | Some next => test ruleLine next
                 | None => false
                 end
      then [currentLine]
      else if isCurrentLineEmpty
              && match nextLine with
                 | Some next => test tableLine next
                 | None => false
                 end
      then [currentLine]
      else if isCurrentLineEmpty && (0 <? i)%nat
              && match nth_error lines (i - 1) with
                 | Some previous => test headingLine previous
                 | None => false
                 end
      then [currentLine]
      else if negb isCurrentLineEmpty then [currentLine]
      else []
  end.

Definition filterLines (preserveLineBreaks : bool) (lines : list str)
  : list str :=
  flat_map (filterLine preserveLineBreaks lines) (seq 0 (length lines)).

Definition removeEmptyLinesStage (preserveLineBreaks : bool) (md : str)
  (appliedTransformations : bool) : str * bool :=
  let md := normalizeLineEndings md in
  let lines := split LF md in
  let filteredLines := filterLines preserveLineBreaks lines in
  let originalMarkdown := md in
  let md := join LF filteredLines in
  (md, appliedTransformations || neqb originalMarkdown md).

(** ** Stage 5: the regex replacements (lines 208-231) *)

(** Lines 212-219: the escape sequences of a replacement text. *)
Definition decodeReplacement (r : str) : str :=
  let r := replaceLiteral (lit "\r\n") [CR; LF] r in
  let r := replaceLiteral (lit "\n") [LF] r in
  let r := replaceLiteral (lit "\r") [CR] r in
  let r := replaceLiteral (lit "\t") [9%N] r in
  let r := replaceLiteral (lit "\'") [39%N] r in
  let r := replaceLiteral [BACKSLASH; QUOTE] [QUOTE] r in
  replaceLiteral [BACKSLASH; BACKSLASH] [BACKSLASH] r.

(** The engine behind [new RegExp(pattern, 'g')] and behind
    [markdown.replace(regex, replacement)] for a pattern of the user is the
    host's; both calls may throw, the first on a malformed pattern. *)
Section Transform.

Context {Exn RegExpObj : Type}.
Variable newRegExp : str -> Exn + RegExpObj.
Variable replaceRegExp : RegExpObj -> str -> str -> Exn + str.

Import MonadNotation.
Local Open Scope monad_scope.

(** The body of the [try] (lines 211-226), on the variables [markdown] and
    [appliedTransformations]. *)
Definition applyReplacement (regex_replacement : Replacement)
  (state : str * bool) : Exn + (str * bool) :=
  regex <- newRegExp (pattern regex_replacement) ;;
  let replacement := decodeReplacement (replacement regex_replacement) in
  let originalMarkdown := fst state in
  md <- replaceRegExp regex (fst state) replacement ;;
  ret (md, if neqb originalMarkdown md then true else snd state).

(** The loop of lines 209-230; the [catch] logs the error and goes on. *)
Fixpoint applyReplacements (rules : list Replacement) (state : str * bool)
  : Exn + (str * bool) :=
  match rules with
  | [] => ret state
  | regex_replacement :: rules' =>
      state' <- catch (applyReplacement regex_replacement state)
                      (fun _ => ret state) ;;
      applyReplacements rules' state'
  end.

Definition transformMarkdown (md : str) (settings : Settings)
  (contextLevel : Z) (escapeMarkdown : bool) : Exn + Result :=
  let appliedTransformations := false in
  let '(md, appliedTransformations) :=
    if negb escapeMarkdown
    then normalizeHeadings settings contextLevel md appliedTransformations
    else escapeStage md in
  let preserveLineBreaks := negb (stripLineBreaks settings) in
  let '(md, appliedTransformations) :=
    if convertToSingleSpaced settings && negb (removeEmptyLines settings)
    then collapseBlankRuns md appliedTransformations
    else (md, appliedTransformations) in
  let '(md, appliedTransformations) :=
    if removeEmptyLines settings
    then removeEmptyLinesStage preserveLineBreaks md appliedTransformations
    else (md, appliedTransformations) in
  state <- (if (0 <? length (markdownRegexReplacements settings))%nat
            then applyReplacements (markdownRegexReplacements settings)
                                   (md, appliedTransformations)
            else ret (md, appliedTransformations)) ;;
  ret {| markdown := fst state; appliedTransformations := snd state |}.

End Transform.

(** An engine to run the pipeline on concrete rules: a pattern without
    metacharacters compiles to the search for that text, any other pattern
    is refused, as the host refuses an unclosed parenthesis.  The
    replacement text is taken as it is (no dollar patterns). *)
Module LiteralEngine.

Inductive Exn := SyntaxError.

Definition isMeta (c : char) : bool :=
  existsb (N.eqb c) (lit "\^$.|?*+()[]{}").

Definition newRegExp (p : str) : Exn + str :=
  if existsb isMeta p then inl SyntaxError else inr p.

Definition replaceRegExp (regex md replacement : str) : Exn + str :=
  inr (replaceLiteral regex replacement md).

Definition transform := transformMarkdown newRegExp replaceRegExp.

End LiteralEngine.

(** * The claims *)

(** ** Heading markers and their levels *)

(** The heading markers of a text in document order, each with the text
    between it and the marker before, and the text after the last one. *)
Definition headingMarkers (s : str) : list (str * MatchResult) * str :=
  scan headingRegex None s.

(** The levels of the heading markers, in document order. *)
Definition levelsOf (occs : list (str * MatchResult)) : list Z :=
  map (fun o => hashesLength (snd o)) occs.

Definition currentLevels (s : str) : list Z :=
  levelsOf (fst (headingMarkers s)).

(** The text with marker [i] rewritten to [levels[i]] hashes and a space. *)
Fixpoint rewriteMarkers (occs : list (str * MatchResult)) (levels : list Z)
  : str :=
  match occs, levels with
  | (gap, _) :: occs', n :: levels' =>
      gap ++ JS.repeat HASH n ++ SPACE :: rewriteMarkers occs' levels'
  | _, _ => []
  end.

Definition withLevels (s : str) (levels : list Z) : str :=
  rewriteMarkers (fst (headingMarkers s)) levels ++ snd (headingMarkers s).

(** The rule of the contextual cascade for one heading, in the words of the
    specification (section 4.1): from the state [(delta, cascading)] and
    the current level, the new level and the next state. *)
Definition contextualStep (contextLevel : Z) (state : Z * bool)
  (currentLevel : Z) : Z * (Z * bool) :=
  let (delta, cascading) := state in
  if cascading then (Z.min (currentLevel + delta) 6, (delta, true))
  else if currentLevel <=? contextLevel then
    let newLevel := Z.min (contextLevel + 1) 6 in
    (newLevel, (newLevel - currentLevel, true))
  else (currentLevel, (delta, false)).

(** The new levels of the headings, by a rule applied in document order. *)
Fixpoint runLevels {St : Type} (step : St -> Z -> Z * St) (state : St)
  (levels : list Z) : list Z :=
  match levels with
  | [] => []
  | l :: levels' =>
      let (n, state') := step state l in
      n :: runLevels step state' levels'
  end.

(** The max-level cascade on the levels of the headings, in the words of
    the specification: the first level below the maximum becomes the
    maximum, and every later level is shifted by that difference, up to
    6; the levels before are kept. *)
Fixpoint maxCascadeLevels (maxLevel : Z) (levels : list Z) : list Z :=
  match levels with
  | [] => []
  | l :: levels' =>
      if l <? maxLevel
      then maxLevel :: map (fun c => Z.min (c + (maxLevel - l)) 6) levels'
      else l :: maxCascadeLevels maxLevel levels'
  end.

(** The new levels under each mode of stage 1. *)
Definition newLevels (settings : Settings) (contextLevel : Z)
  (levels : list Z) : list Z :=
  if contextualCascade settings && (0 <? contextLevel) then
    runLevels (contextualStep contextLevel) (-1, false) levels
  else if 1 <? maxHeadingLevel settings then
    if cascadeHeadingLevels settings
    then maxCascadeLevels (maxHeadingLevel settings) levels
    else map (fun l => Z.max l (maxHeadingLevel settings)) levels
  else levels.

(** ** Stages *)

(** Lines 27-129: stage 1 or stage 2, from the flag off. *)
Definition firstStage (md : str) (settings : Settings) (contextLevel : Z)
  (escapeMarkdown : bool) : str * bool :=
  if negb escapeMarkdown
  then normalizeHeadings settings contextLevel md false
  else escapeStage md.

(** Lines 25-205: the text and [appliedTransformations] when the loop over
    the replacements starts. *)
Definition textStages (md : str) (settings : Settings) (contextLevel : Z)
  (escapeMarkdown : bool) : str * bool :=
  let '(md, appliedTransformations) :=
    if negb escapeMarkdown
    then normalizeHeadings settings contextLevel md false
    else escapeStage md in
  let preserveLineBreaks := negb (stripLineBreaks settings) in
  let '(md, appliedTransformations) :=
    if convertToSingleSpaced settings && negb (removeEmptyLines settings)
    then collapseBlankRuns md appliedTransformations
    else (md, appliedTransformations) in
  if removeEmptyLines settings
  then removeEmptyLinesStage preserveLineBreaks md appliedTransformations
  else (md, appliedTransformations).

(** ** Line feeds and lines *)

(** Three line feeds in a row somewhere in the text. *)
Definition threeLineFeeds (s : str) : Prop :=
  exists a b, s = a ++ LF :: LF :: LF :: b.

(** The line feeds the text starts with. *)
Definition leadingLF (s : str) : nat := length (fst (span (N.eqb LF) s)).

(** A text without line feed and without carriage return. *)
Definition oneLine (s : str) : bool :=
  forallb (fun c => negb (c =? LF)%N && negb (c =? CR)%N) s.

(** [currentLine.trim() === ''] (line 162). *)
Definition isBlank (line : str) : bool := JS.eqb (trim line) [].

(** The lines [ms] come from the lines [ls] by dropping lines and by
    shortening lines, in order. *)
Inductive thinned : list str -> list str -> Prop :=
| thinned_nil : thinned [] []
| thinned_drop l ls ms : thinned ls ms -> thinned (l :: ls) ms
| thinned_keep l m ls ms :
    (length m <= length l)%nat -> thinned ls ms ->
    thinned (l :: ls) (m :: ms).

(** ** Rules *)

(** One rule on the state [(markdown, appliedTransformations)], in the
    words of the specification: the replacement when the pattern compiles
    and the substitution succeeds, the state as it was otherwise. *)
Definition applyOrSkip {Exn RegExpObj : Type}
  (newRegExp : str -> Exn + RegExpObj)
  (replaceRegExp : RegExpObj -> str -> str -> Exn + str)
  (state : str * bool) (rule : Replacement) : str * bool :=
  match newRegExp (pattern rule) with
  | inl _ => state
  | inr regex =>
      match replaceRegExp regex (fst state)
              (decodeReplacement (replacement rule)) with
      | inl _ => state
      | inr md => (md, if neqb (fst state) md then true else snd state)
      end
  end.

(** The rule fails on the text: its pattern does not compile, or the
    substitution throws. *)
Definition ruleFails {Exn RegExpObj : Type}
  (newRegExp : str -> Exn + RegExpObj)
  (replaceRegExp : RegExpObj -> str -> str -> Exn + str)
  (md : str) (rule : Replacement) : Prop :=
  match newRegExp (pattern rule) with
  | inl _ => True
  | inr regex =>
      match replaceRegExp regex md (decodeReplacement (replacement rule)) with
      | inl _ => True
      | inr _ => False
      end
  end.

(** The state on which the rule at index [length before] runs. *)
Definition stateBefore {Exn RegExpObj : Type}
  (newRegExp : str -> Exn + RegExpObj)
  (replaceRegExp : RegExpObj -> str -> str -> Exn + str)
  (before : list Replacement) (state : str * bool) : str * bool :=
  fold_left (applyOrSkip newRegExp replaceRegExp) before state.

(** ** Code spans and tags *)



(** The first character of a text that no anchored pass of the escaping
    matches at the start: it is no white space, hash, dash, plus, star,
    underscore, digit or closing angle. *)
Definition opener (c : char) : bool :=
  negb (isWhiteSpace c) && negb (c =? HASH)%N && negb (c =? DASH)%N
  && negb (c =? PLUS)%N && negb (c =? STAR)%N && negb (c =? UNDERSCORE)%N
  && negb (isDigit c) && negb (c =? GT)%N.

(** A text without line terminator. *)
Definition noTerminator (s : str) : bool :=
  forallb (fun c => negb (isLineTerminator c)) s.

(** The text of a tag: the angle, a slash or none, a letter, the rest. *)
Definition tagText (closing : bool) (a : char) (inner : str) : str :=
  LT :: (if closing then [SLASH] else []) ++ a :: inner ++ [GT].

(** ** Passes and replacers, for the proofs *)

(** A regex whose result is a non-empty prefix of the text it is asked at. *)
Definition consuming (re : Regex) : Prop :=
  forall prev s m, re prev s = Some m ->
    exists t w rest, matched m = t ++ [w] /\ s = t ++ w :: rest.

(** A regex that only matches at the start of a line. *)
Definition anchored (re : Regex) : Prop :=
  forall prev s, atLineStart prev = false -> re prev s = None.

(** What a match of the heading regex is: 1 to 6 hashes, one white-space
    character, the hashes in group 1. *)
Definition isMarker (m : MatchResult) : Prop :=
  exists hashes w,
    m = {| matched := hashes ++ [w]; groups := [Some hashes] |}
    /\ forallb (N.eqb HASH) hashes = true
    /\ (1 <= length hashes <= 6)%nat
    /\ isWhiteSpace w = true.

(** The max-level branch for one heading, on the state
    [(delta, cascading)], as the replacer computes it. *)
Definition maxLevelStep (settings : Settings) (state : Z * bool)
  (currentLevel : Z) : Z * (Z * bool) :=
  let (delta, cascading) := state in
  if cascadeHeadingLevels settings then
    if cascading then (Z.min (currentLevel + delta) 6, (delta, true))
    else if currentLevel <? maxHeadingLevel settings then
      (maxHeadingLevel settings,
       (maxHeadingLevel settings - currentLevel, true))
    else (currentLevel, (delta, false))
  else (Z.max currentLevel (maxHeadingLevel settings), (delta, cascading)).

(** The shape the two replacers share: a rule for the level, the flag set
    to whether this level changed, the marker rewritten. *)
Definition replacerOf (step : Z * bool -> Z -> Z * (Z * bool))
  (st : Cascade) (m : MatchResult) : Cascade * str :=
  let currentLevel := hashesLength m in
  let '(newLevel, (delta', cascading')) :=
    step (delta st, cascading st) currentLevel in
  ({| delta := delta'; cascading := cascading';
      applied := negb (newLevel =? currentLevel) |},
   JS.repeat HASH newLevel ++ [SPACE]).

(** A rule on the levels that never lowers a level between 1 and 6, from a
    state that cascades by no negative delta. *)
Definition raising (step : Z * bool -> Z -> Z * (Z * bool)) : Prop :=
  forall d c cur, 1 <= cur <= 6 -> (c = true -> 0 <= d) ->
    cur <= fst (step (d, c) cur)
    /\ (snd (snd (step (d, c) cur)) = true -> 0 <= fst (snd (step (d, c) cur))).

(** The max-level branch without cascading writes no variable that it
    reads: its pass from a position, as a pass without state. *)
Definition clampMarker (maxLevel : Z) (m : MatchResult) : str :=
  JS.repeat HASH (Z.max (hashesLength m) maxLevel) ++ [SPACE].

Definition clampFrom (maxLevel : Z) (prev : option char) (s : str) : str :=
  replaceAt headingRegex (clampMarker maxLevel) prev s.

(** The pass of line 138 (and 152) from a position. *)
Abbreviation crlfFrom := (replaceAt (literal [CR; LF]) (fun _ => [LF])).

(** ** Settings of the examples *)

Definition settingsContextual : Settings :=
  {| markdownRegexReplacements := []; contextualCascade := true;
     maxHeadingLevel := 1; cascadeHeadingLevels := false;
     stripLineBreaks := false; convertToSingleSpaced := false;
     removeEmptyLines := false |}.

Definition settingsMaxCascade : Settings :=
  {| markdownRegexReplacements := []; contextualCascade := false;
     maxHeadingLevel := 2; cascadeHeadingLevels := true;
     stripLineBreaks := false; convertToSingleSpaced := false;
     removeEmptyLines := false |}.

Definition settingsClamp : Settings :=
  {| markdownRegexReplacements := []; contextualCascade := false;
     maxHeadingLevel := 2; cascadeHeadingLevels := false;
     stripLineBreaks := false; convertToSingleSpaced := false;
     removeEmptyLines := false |}.

Definition settingsCollapse : Settings :=
  {| markdownRegexReplacements := []; contextualCascade := false;
     maxHeadingLevel := 1; cascadeHeadingLevels := false;
     stripLineBreaks := false; convertToSingleSpaced := true;
     removeEmptyLines := false |}.

Definition settingsRules : Settings :=
  {| markdownRegexReplacements :=
       [ {| pattern := lit "("; replacement := lit "x" |};
         {| pattern := lit "a"; replacement := lit "b" |} ];
     contextualCascade := false;
     maxHeadingLevel := 1; cascadeHeadingLevels := false;
     stripLineBreaks := false; convertToSingleSpaced := false;
     removeEmptyLines := false |}.

(** * Definitions for the further properties *)

(** ** Stage 1 *)

Definition settingsNine : Settings :=
  {| markdownRegexReplacements := []; contextualCascade := false;
     maxHeadingLevel := 9; cascadeHeadingLevels := false;
     stripLineBreaks := false; convertToSingleSpaced := false;
     removeEmptyLines := false |}.

(** ** Stage 2 *)

(** [out] is [s] with backslashes and backticks inserted. *)
Inductive padded : str -> str -> Prop :=
| padded_nil : padded [] []
| padded_keep c s out : padded s out -> padded (c :: s) (c :: out)
| padded_insert c s out :
    c = BACKSLASH \/ c = BACKTICK -> padded s out -> padded s (c :: out).

(** A regex of the form [/(...)/]: group 1 is the whole match. *)
Definition wholeMatch (re : Regex) : Prop :=
  forall prev s m, re prev s = Some m -> group 1 m = Some (matched m).

(** The text with a backslash before every character of the class [p]. *)
Definition escapeWhere (p : char -> bool) (s : str) : str :=
  flat_map (fun c => if p c then [BACKSLASH; c] else [c]) s.

Definition emphasisChar (c : char) : bool :=
  (c =? STAR)%N || (c =? UNDERSCORE)%N.

(** The characters that the passes of lines 103, 109 and 117 escape: star,
    underscore, opening bracket, pipe. *)
Definition special (c : char) : bool :=
  emphasisChar c || (c =? 91)%N || (c =? PIPE)%N.

(** The position after [prev] is the start of the text or follows white
    space: an anchored pass can reach it from the start of its line. *)
Definition spaceBefore (prev : option char) : bool :=
  match prev with None => true | Some c => isWhiteSpace c end.

(** Two characters that one match of an inline pass takes together: two
    stars, two underscores, an exclamation mark and a bracket. *)
Definition doubled (prev : option char) (c : char) : bool :=
  match prev with
  | Some p =>
      ((p =? STAR) && (c =? STAR))%N
      || ((p =? UNDERSCORE) && (c =? UNDERSCORE))%N
      || ((p =? 33) && (c =? 91))%N
  | None => false
  end.

(** A text in which no anchored pass of the escaping finds a match: what
    follows white space, or starts the text, is white space or an
    [opener]. *)
Fixpoint proseFrom (prev : option char) (s : str) : bool :=
  match s with
  | [] => true
  | c :: t =>
      (if spaceBefore prev then isWhiteSpace c || opener c else true)
      && proseFrom (Some c) t
  end.

(** Running text with inline markers: a word starts with an [opener], a
    star or an underscore; there is no backtick and no opening angle, and
    no two characters that an inline pass takes together. *)
Fixpoint inlineFrom (prev : option char) (s : str) : bool :=
  match s with
  | [] => true
  | c :: t =>
      (if spaceBefore prev
       then isWhiteSpace c || opener c || emphasisChar c else true)
      && negb (c =? BACKTICK)%N && negb (c =? LT)%N && negb (doubled prev c)
      && inlineFrom (Some c) t
  end.

(** The passes of lines 101-126 in order, each a regex and its replacer. *)
Definition escapeRules : list (Regex * (MatchResult -> str)) :=
  [ (escHeading, backslash1); (escEmphasis, backslash1);
    (escBullet, backslash1); (escOrdered, backslash1);
    (escBracket, backslash1); (escBacktick, backslash1);
    (escQuote, backslash1); (escRule, backslash1);
    (escPipe, backslash1); (escTask, backslash1);
    (codeOrTag, codeOrTagReplacer) ].

(** Passes in a row over the text after the character [prev]. *)
Definition runFrom (prev : option char)
  (rules : list (Regex * (MatchResult -> str))) (s : str) : str :=
  fold_left (fun s rule => replaceAt (fst rule) (snd rule) prev s) rules s.

(** The characters that carry a backslash after the first [j] passes on
    running text. *)
Definition escapedAfter (j : nat) (c : char) : bool :=
  ((2 <=? j)%nat && emphasisChar c) || ((5 <=? j)%nat && (c =? 91)%N)
  || ((9 <=? j)%nat && (c =? PIPE)%N).

(** A character of a line marker: no white space, none that an inline pass
    looks at, no backtick and no opening angle. *)
Definition neutral (c : char) : bool :=
  negb (isWhiteSpace c) && negb (special c) && negb (c =? 33)%N
  && negb (c =? BACKTICK)%N && negb (c =? LT)%N.

(** A character that escapes the bracket after it for the pass of the
    task lists: a backslash or an exclamation mark. *)
Definition guard (c : char) : bool := (c =? BACKSLASH)%N || (c =? 33)%N.

(** Every opening bracket of the text follows a backslash or an
    exclamation mark; [ok] says whether the character before the text is
    one. *)
Fixpoint guarded (ok : bool) (s : str) : bool :=
  match s with
  | [] => true
  | c :: t => (if (c =? 91)%N then ok else true) && guarded (guard c) t
  end.

(** Whether a [guard] ends the text [x], which follows what [ok] tells. *)
Fixpoint guardAfter (ok : bool) (x : str) : bool :=
  match x with
  | [] => ok
  | c :: x' => guardAfter (guard c) x'
  end.

(** The chain of lines 99-126 without the pass of line 119. *)
Definition escapeChainWithoutTask (md : str) : str :=
  let md := replace escHeading backslash1 md in
  let md := replace escEmphasis backslash1 md in
  let md := replace escBullet backslash1 md in
  let md := replace escOrdered backslash1 md in
  let md := replace escBracket backslash1 md in
  let md := replace escBacktick backslash1 md in
  let md := replace escQuote backslash1 md in
  let md := replace escRule backslash1 md in
  let md := replace escPipe backslash1 md in
  replace codeOrTag codeOrTagReplacer md.

(** A character on which no inline pass and not the last pass starts a
    match. *)
Definition plainChar (c : char) : bool :=
  negb (special c) && negb (c =? 33)%N && negb (c =? BACKTICK)%N
  && negb (c =? LT)%N.

(** What an anchored pass of lines 101, 105, 107 or 113 takes at the start
    of a text: 1 to 6 hashes; or white space (an indentation, also line
    breaks) and a bullet with a dash or a plus, the number and dot of an
    ordered list, or a closing angle; each with the white-space character
    after it. *)
Inductive lineStart : str -> Prop :=
| start_heading n w :
    (1 <= n <= 6)%nat -> isWhiteSpace w = true ->
    lineStart (List.repeat HASH n ++ [w])
| start_bullet ws b w :
    forallb isWhiteSpace ws = true -> b = DASH \/ b = PLUS ->
    isWhiteSpace w = true -> lineStart (ws ++ [b; w])
| start_ordered ws d digits w :
    forallb isWhiteSpace ws = true -> forallb isDigit (d :: digits) = true ->
    isWhiteSpace w = true -> lineStart (ws ++ d :: digits ++ [DOT; w])
| start_quote ws w :
    forallb isWhiteSpace ws = true -> isWhiteSpace w = true ->
    lineStart (ws ++ [GT; w]).

(** The pass of [rule] copies the text [pre] and the character [w] after
    it: it finds no match that starts in them. *)
Definition passesOver (rule : Regex * (MatchResult -> str)) (pre : str)
  (w : char) : Prop :=
  forall prev X,
    replaceAt (fst rule) (snd rule) prev (pre ++ w :: X)
    = pre ++ w :: replaceAt (fst rule) (snd rule) (Some w) X.

(** The pieces of a text for the last pass of the escaping: running
    text, a code span between two backticks, a tag. *)
Inductive piece : Type :=
| Words (w : str)
| Code (c : str)
| Tag (closing : bool) (a : char) (inner : str).

Definition pieceText (p : piece) : str :=
  match p with
  | Words w => w
  | Code c => BACKTICK :: c ++ [BACKTICK]
  | Tag closing a inner => tagText closing a inner
  end.

Definition piecesText (ps : list piece) : str := flat_map pieceText ps.









(** ** Stages 3 and 4 *)

(** The text without its line feeds and carriage returns. *)
Definition content (s : str) : str :=
  filter (fun c => negb (c =? LF)%N && negb (c =? CR)%N) s.

(** A text without carriage return. *)
Definition noCR (s : str) : bool := forallb (fun c => negb (c =? CR)%N) s.

(** The condition of line 170 on a line. *)
Definition hasPreserveMarker (line : str) : bool :=
  test preserveClass line || test preserveData line.

(** A run of line breaks, each a CR LF pair ([true]) or a line feed
    ([false]). *)
Definition lineBreaks (pairs : list bool) : str :=
  flat_map (fun pair : bool => if pair then [CR; LF] else [LF]) pairs.

(** The text ends in a carriage return. *)
Fixpoint endsInCR (s : str) : bool :=
  match s with
  | [] => false
  | [c] => (c =? CR)%N
  | _ :: t => endsInCR t
  end.

(** A line that the loop of stage 4 pushes as it is, whatever its
    neighbours: it is not blank and rule 1 does not replace it. *)
Definition keptLine (preserveLineBreaks : bool) (line : str) : bool :=
  negb (isBlank line) && negb (preserveLineBreaks && hasPreserveMarker line).

(** The opening texts of the two markers of lines 167 and 168. *)
Definition classOpening : str :=
  lit "<p class=" ++ QUOTE :: lit "preserve-line-break" ++ [QUOTE].
Definition dataOpening : str :=
  lit "<p data-preserve=" ++ QUOTE :: lit "true" ++ [QUOTE].

(** The lines [ms] are the lines [ls], in order: with [preserve] a line
    that holds a preserve marker is replaced by an empty line; any other
    line is kept as it is, or left out if it is blank. *)
Inductive sifted (preserve : bool) : list str -> list str -> Prop :=
| sifted_nil : sifted preserve [] []
| sifted_drop l ls ms :
    preserve && hasPreserveMarker l = false -> isBlank l = true ->
    sifted preserve ls ms -> sifted preserve (l :: ls) ms
| sifted_keep l ls ms :
    preserve && hasPreserveMarker l = false ->
    sifted preserve ls ms -> sifted preserve (l :: ls) (l :: ms)
| sifted_empty l ls ms :
    preserve && hasPreserveMarker l = true ->
    sifted preserve ls ms -> sifted preserve (l :: ls) ([] :: ms).


(** ** Stage 5 *)

(** A text without backslash. *)
Definition noBackslash (s : str) : bool :=
  forallb (fun c => negb (c =? BACKSLASH)%N) s.

(** The escape sequences of lines 213-218 and what each stands for. *)
Definition escapeSequences : list (str * str) :=
  [ (lit "\r\n", [CR; LF]); (lit "\n", [LF]); (lit "\r", [CR]);
    (lit "\t", [9%N]); (lit "\'", [39%N]); ([BACKSLASH; QUOTE], [QUOTE]) ].

(** The second character of one of them: r, n, t or a quote. *)
Definition escapeLetter (c : char) : bool :=
  existsb (N.eqb c) (lit "rnt'" ++ [QUOTE]).

(** * Properties *)

(** ** The pass of a global regex *)

Section Driver.

Variable re : Regex.

Lemma scan_nil prev :
  re prev [] = None -> scan re prev [] = ([], []).
Proof. intros H. simp scan. rewrite H. reflexivity. Qed.

Lemma scan_nomatch prev c s :
  re prev (c :: s) = None ->
  scan re prev (c :: s) = pushGap c (scan re (Some c) s).
Proof. intros H. simp scan. rewrite H. reflexivity. Qed.

Lemma scan_match prev c s m k :
  re prev (c :: s) = Some m -> length (matched m) = S k ->
  scan re prev (c :: s) =
    (([], m) :: fst (scan re (Some (lastConsumed c k s)) (skipn k s)),
     snd (scan re (Some (lastConsumed c k s)) (skipn k s))).
Proof. intros H L. simp scan. rewrite H. simpl. rewrite L. reflexivity. Qed.

(** A match that is [t ++ [w]] at the front of the subject. *)
Lemma scan_match_app prev t w rest m :
  re prev (t ++ w :: rest) = Some m -> matched m = t ++ [w] ->
  scan re prev (t ++ w :: rest) =
    (([], m) :: fst (scan re (Some w) rest), snd (scan re (Some w) rest)).
Proof.
  intros H L.
  assert (E : exists c s, t ++ w :: rest = c :: s /\
            skipn (length t) s = rest /\ lastConsumed c (length t) s = w).
  { destruct t as [|c t].
    - exists w, rest. repeat split.
    - exists c, (t ++ w :: rest). split; [reflexivity|]. split.
      + replace (t ++ w :: rest) with ((t ++ [w]) ++ rest)
          by (rewrite <- app_assoc; reflexivity).
        replace (length (c :: t)) with (length (t ++ [w]))
          by (rewrite length_app; simpl; lia).
        rewrite skipn_app, skipn_all, Nat.sub_diag. reflexivity.
      + unfold lastConsumed.
        change (c :: t ++ w :: rest) with ((c :: t) ++ w :: rest).
        rewrite app_nth2, Nat.sub_diag by lia. reflexivity. }
  destruct E as (c & s & E & Hs & Hl). rewrite E in *.
  rewrite scan_match with (m := m) (k := length t).
  - rewrite Hs, Hl. reflexivity.
  - exact H.
  - rewrite L, length_app. simpl. lia.
Qed.

Context {St : Type}.
Variable f : St -> MatchResult -> St * str.

Lemma replaceFrom_nil st prev :
  re prev [] = None -> replaceFrom re f st prev [] = (st, []).
Proof. intros H. unfold replaceFrom. rewrite scan_nil by exact H. reflexivity. Qed.

Lemma replaceFrom_nomatch st prev c s :
  re prev (c :: s) = None ->
  replaceFrom re f st prev (c :: s) =
    (fst (replaceFrom re f st (Some c) s),
     c :: snd (replaceFrom re f st (Some c) s)).
Proof.
  intros H. unfold replaceFrom. rewrite scan_nomatch by exact H.
  destruct (scan re (Some c) s) as [[|[g m] occs] tl]; simpl; [reflexivity|].
  destruct (f st m) as [st1 rep]. destruct (replaceOccs f st1 occs).
  reflexivity.
Qed.

Lemma replaceFrom_match st prev t w rest m :
  re prev (t ++ w :: rest) = Some m -> matched m = t ++ [w] ->
  replaceFrom re f st prev (t ++ w :: rest) =
    (fst (replaceFrom re f (fst (f st m)) (Some w) rest),
     snd (f st m) ++ snd (replaceFrom re f (fst (f st m)) (Some w) rest)).
Proof.
  intros H L. unfold replaceFrom. rewrite scan_match_app with (m := m) by assumption.
  destruct (scan re (Some w) rest) as [o tl]. simpl.
  destruct (f st m) as [st1 rep]. simpl.
  destruct (replaceOccs f st1 o). simpl. rewrite app_assoc. reflexivity.
Qed.

End Driver.

Section Stateless.

Variable re : Regex.
Variable f : MatchResult -> str.

Lemma replaceAt_eq prev s :
  replaceAt re f prev s =
  snd (replaceOccs (fun (_ : unit) m => (tt, f m)) tt (fst (scan re prev s)))
  ++ snd (scan re prev s).
Proof.
  unfold replaceAt, replaceFrom. destruct (scan re prev s) as [occs tl].
  cbn [fst snd]. destruct (replaceOccs _ tt occs). reflexivity.
Qed.

Lemma replaceAt_nil prev :
  re prev [] = None -> replaceAt re f prev [] = [].
Proof. intros H. unfold replaceAt. rewrite replaceFrom_nil by exact H. reflexivity. Qed.

Lemma replaceAt_nomatch prev c s :
  re prev (c :: s) = None ->
  replaceAt re f prev (c :: s) = c :: replaceAt re f (Some c) s.
Proof.
  intros H. unfold replaceAt. rewrite replaceFrom_nomatch by exact H.
  reflexivity.
Qed.

Lemma replaceAt_match prev t w rest m :
  re prev (t ++ w :: rest) = Some m -> matched m = t ++ [w] ->
  replaceAt re f prev (t ++ w :: rest) = f m ++ replaceAt re f (Some w) rest.
Proof.
  intros H L. unfold replaceAt.
  rewrite replaceFrom_match with (m := m) by assumption. reflexivity.
Qed.

End Stateless.

(** ** Stage 1 as a rule on the levels of the headings *)

Lemma contextualReplacer_step contextLevel st m :
  contextualReplacer contextLevel st m =
  replacerOf (contextualStep contextLevel) st m.
Proof.
  unfold contextualReplacer, replacerOf, contextualStep.
  destruct (cascading st); [reflexivity|].
  destruct (hashesLength m <=? contextLevel); reflexivity.
Qed.

Lemma maxLevelReplacer_step settings st m :
  maxLevelReplacer settings st m = replacerOf (maxLevelStep settings) st m.
Proof.
  unfold maxLevelReplacer, replacerOf, maxLevelStep.
  destruct (cascadeHeadingLevels settings); [|reflexivity].
  destruct (cascading st); [reflexivity|].
  destruct (hashesLength m <? maxHeadingLevel settings); reflexivity.
Qed.

Lemma replaceOccs_ext {St} (f g : St -> MatchResult -> St * str) st occs :
  (forall st m, f st m = g st m) -> replaceOccs f st occs = replaceOccs g st occs.
Proof.
  intros E. revert st. induction occs as [|[gap m] occs IH]; intros st.
  - reflexivity.
  - simpl. rewrite E. destruct (g st m) as [st1 rep]. rewrite IH. reflexivity.
Qed.

Lemma replaceOccs_text step st occs :
  snd (replaceOccs (replacerOf step) st occs) =
  rewriteMarkers occs
    (runLevels step (delta st, cascading st) (levelsOf occs)).
Proof.
  revert st. induction occs as [|[gap m] occs IH]; intros st.
  - reflexivity.
  - simpl. unfold replacerOf at 1.
    destruct (step (delta st, cascading st) (hashesLength m))
      as [n [d c]] eqn:E.
    match goal with
    | |- context [replaceOccs _ ?st1 occs] =>
        specialize (IH st1); destruct (replaceOccs (replacerOf step) st1 occs)
    end.
    simpl in *. rewrite IH. rewrite <- app_assoc. reflexivity.
Qed.

Lemma replaceOccs_flag step st occs :
  occs <> [] ->
  applied (fst (replaceOccs (replacerOf step) st occs)) =
  negb (last (runLevels step (delta st, cascading st) (levelsOf occs)) 0
        =? last (levelsOf occs) 0).
Proof.
  revert st. induction occs as [|[gap m] occs IH]; intros st Hne.
  - congruence.
  - simpl. unfold replacerOf at 1.
    destruct (step (delta st, cascading st) (hashesLength m))
      as [n [d c]] eqn:E.
    destruct occs as [|o occs].
    + reflexivity.
    + match goal with
      | |- context [replaceOccs _ ?st1 (o :: occs)] =>
          specialize (IH st1);
          destruct (replaceOccs (replacerOf step) st1 (o :: occs)) eqn:R
      end.
      simpl fst in *. rewrite IH by congruence.
      simpl delta. simpl cascading.
      destruct o as [g' m']. simpl.
      destruct (step (d, c) (hashesLength m')) as [n' st']. reflexivity.
Qed.

Lemma runLevels_cascading settings d levels :
  cascadeHeadingLevels settings = true ->
  runLevels (maxLevelStep settings) (d, true) levels =
  map (fun c => Z.min (c + d) 6) levels.
Proof.
  intros C. induction levels as [|l levels IH]; simpl; [reflexivity|].
  rewrite C. simpl. rewrite <- IH. unfold maxLevelStep. rewrite C. reflexivity.
Qed.

Lemma runLevels_maxCascade settings d levels :
  cascadeHeadingLevels settings = true ->
  runLevels (maxLevelStep settings) (d, false) levels =
  maxCascadeLevels (maxHeadingLevel settings) levels.
Proof.
  intros C. revert d. induction levels as [|l levels IH]; intros d; simpl.
  - reflexivity.
  - rewrite C. destruct (l <? maxHeadingLevel settings).
    + rewrite runLevels_cascading by exact C. reflexivity.
    + rewrite IH. reflexivity.
Qed.

Lemma runLevels_clamp settings st levels :
  cascadeHeadingLevels settings = false ->
  runLevels (maxLevelStep settings) st levels =
  map (fun l => Z.max l (maxHeadingLevel settings)) levels.
Proof.
  intros C. destruct st as [d c].
  induction levels as [|l levels IH]; simpl; [reflexivity|].
  rewrite C. rewrite <- IH. unfold maxLevelStep. rewrite C. reflexivity.
Qed.

(** Stage 1 in any of its modes: the markers rewritten to the new levels,
    and the flag of the last marker. *)
Lemma normalizeHeadings_text settings contextLevel s a :
  ((contextualCascade settings && (0 <? contextLevel)) = true
   \/ (1 <? maxHeadingLevel settings) = true) ->
  fst (normalizeHeadings settings contextLevel s a) =
  withLevels s (newLevels settings contextLevel (currentLevels s)).
Proof.
  intros M. unfold normalizeHeadings, newLevels, withLevels, currentLevels,
    headingMarkers, replaceWith, replaceFrom.
  destruct (scan headingRegex None s) as [occs tl]. simpl fst. simpl snd.
  destruct (contextualCascade settings && (0 <? contextLevel)).
  - rewrite replaceOccs_ext with (g := replacerOf (contextualStep contextLevel))
      by apply contextualReplacer_step.
    match goal with
    | |- context [replaceOccs _ ?st0 occs] =>
        pose proof (replaceOccs_text (contextualStep contextLevel) st0 occs) as T;
        destruct (replaceOccs (replacerOf (contextualStep contextLevel)) st0 occs)
    end.
    simpl in *. rewrite T. reflexivity.
  - destruct M as [M|M]; [discriminate|]. rewrite M.
    rewrite replaceOccs_ext with (g := replacerOf (maxLevelStep settings))
      by apply maxLevelReplacer_step.
    match goal with
    | |- context [replaceOccs _ ?st0 occs] =>
        pose proof (replaceOccs_text (maxLevelStep settings) st0 occs) as T;
        destruct (replaceOccs (replacerOf (maxLevelStep settings)) st0 occs)
    end.
    simpl in *. rewrite T.
    destruct (cascadeHeadingLevels settings) eqn:C.
    + rewrite runLevels_maxCascade by exact C. reflexivity.
    + rewrite runLevels_clamp by exact C. reflexivity.
Qed.

Lemma normalizeHeadings_flag settings contextLevel s a :
  ((contextualCascade settings && (0 <? contextLevel)) = true
   \/ (1 <? maxHeadingLevel settings) = true) ->
  currentLevels s <> [] ->
  snd (normalizeHeadings settings contextLevel s a) =
  negb (last (newLevels settings contextLevel (currentLevels s)) 0
        =? last (currentLevels s) 0).
Proof.
  intros M. unfold normalizeHeadings, newLevels, currentLevels,
    headingMarkers, replaceWith, replaceFrom.
  destruct (scan headingRegex None s) as [occs tl]. simpl fst.
  intros Hne. assert (Ho : occs <> []) by (intros ->; apply Hne; reflexivity).
  destruct (contextualCascade settings && (0 <? contextLevel)).
  - rewrite replaceOccs_ext with (g := replacerOf (contextualStep contextLevel))
      by apply contextualReplacer_step.
    match goal with
    | |- context [replaceOccs _ ?st0 occs] =>
        pose proof (replaceOccs_flag (contextualStep contextLevel) st0 Ho) as T;
        destruct (replaceOccs (replacerOf (contextualStep contextLevel)) st0 occs)
    end.
    simpl in *. exact T.
  - destruct M as [M|M]; [discriminate|]. rewrite M.
    rewrite replaceOccs_ext with (g := replacerOf (maxLevelStep settings))
      by apply maxLevelReplacer_step.
    match goal with
    | |- context [replaceOccs _ ?st0 occs] =>
        pose proof (replaceOccs_flag (maxLevelStep settings) st0 Ho) as T;
        destruct (replaceOccs (replacerOf (maxLevelStep settings)) st0 occs)
    end.
    simpl in *. rewrite T.
    destruct (cascadeHeadingLevels settings) eqn:C.
    + rewrite runLevels_maxCascade by exact C. reflexivity.
    + rewrite runLevels_clamp by exact C. reflexivity.
Qed.

(** ** The results of a pass partition the subject *)

Lemma span_app p s : fst (span p s) ++ snd (span p s) = s.
Proof.
  induction s as [|c s IH]; simpl; [reflexivity|].
  destruct (p c); [|reflexivity].
  destruct (span p s) as [a b]. simpl in *. rewrite IH. reflexivity.
Qed.

Lemma span_forall p s : forallb p (fst (span p s)) = true.
Proof.
  induction s as [|c s IH]; simpl; [reflexivity|].
  destruct (p c) eqn:E; [|reflexivity].
  destruct (span p s) as [a b]. simpl in *. rewrite E. exact IH.
Qed.

Lemma span_rest p s c r : snd (span p s) = c :: r -> p c = false.
Proof.
  induction s as [|x s IH]; simpl; [discriminate|].
  destruct (p x) eqn:E.
  - destruct (span p s) as [a b]. simpl in *. exact IH.
  - simpl. intros [= -> _]. exact E.
Qed.

(** The span of a run followed by a character outside of the class. *)
Lemma span_run p t c r :
  forallb p t = true -> p c = false -> span p (t ++ c :: r) = (t, c :: r).
Proof.
  intros Ht Hc. induction t as [|x t IH]; simpl.
  - rewrite Hc. reflexivity.
  - simpl in Ht. apply andb_prop in Ht as [Hx Ht]. rewrite Hx, IH by exact Ht.
    reflexivity.
Qed.

Lemma span_all p t : forallb p t = true -> span p t = (t, []).
Proof.
  intros Ht. induction t as [|x t IH]; simpl; [reflexivity|].
  simpl in Ht. apply andb_prop in Ht as [Hx Ht]. rewrite Hx, IH by exact Ht.
  reflexivity.
Qed.

Section Partition.

Variable re : Regex.
Hypothesis re_consuming : consuming re.

Lemma consuming_nil prev : re prev [] = None.
Proof.
  destruct (re prev []) as [m|] eqn:E; [|reflexivity].
  apply re_consuming in E as (t & w & rest & _ & H).
  destruct t; discriminate.
Qed.

(** The pass, result by result. *)
Lemma scan_cases prev s :
  (s = [] /\ scan re prev s = ([], []))
  \/ (exists c s', s = c :: s' /\ re prev s = None /\
        scan re prev s = pushGap c (scan re (Some c) s'))
  \/ (exists m t w rest, re prev s = Some m /\ matched m = t ++ [w] /\
        s = t ++ w :: rest /\
        scan re prev s =
          (([], m) :: fst (scan re (Some w) rest),
           snd (scan re (Some w) rest))).
Proof.
  destruct s as [|c s'].
  - left. split; [reflexivity|]. apply scan_nil, consuming_nil.
  - right. destruct (re prev (c :: s')) as [m|] eqn:E.
    + right. pose proof E as E'.
      apply re_consuming in E' as (t & w & rest & Hm & Hs).
      exists m, t, w, rest. repeat split; try assumption.
      rewrite Hs in *. apply scan_match_app; assumption.
    + left. exists c, s'. repeat split; try assumption.
      apply scan_nomatch. exact E.
Qed.

(** Induction along the pass. *)
Lemma scan_induction
  (P : option char -> str -> list (str * MatchResult) * str -> Prop) :
  (forall prev, P prev [] ([], [])) ->
  (forall prev c s, re prev (c :: s) = None ->
     P (Some c) s (scan re (Some c) s) ->
     P prev (c :: s) (pushGap c (scan re (Some c) s))) ->
  (forall prev m t w rest, re prev (t ++ w :: rest) = Some m ->
     matched m = t ++ [w] ->
     P (Some w) rest (scan re (Some w) rest) ->
     P prev (t ++ w :: rest)
       (([], m) :: fst (scan re (Some w) rest), snd (scan re (Some w) rest))) ->
  forall prev s, P prev s (scan re prev s).
Proof.
  intros Hnil Hno Hyes prev s.
  remember (length s) as n eqn:Hn. revert prev s Hn.
  induction n as [n IH] using lt_wf_ind. intros prev s Hn.
  destruct (scan_cases prev s)
    as [[-> E]|[(c & s' & -> & Hre & E)|(m & t & w & rest & Hre & Hm & -> & E)]];
    rewrite E.
  - apply Hnil.
  - apply Hno; [exact Hre|]. apply (IH (length s')); simpl in *; [lia|reflexivity].
  - apply Hyes; try assumption. apply (IH (length rest)); [|reflexivity].
    subst n. rewrite length_app. simpl. lia.
Qed.

Lemma scan_subject prev s :
  flat_map (fun o => fst o ++ matched (snd o)) (fst (scan re prev s))
  ++ snd (scan re prev s) = s.
Proof.
  apply scan_induction with (P := fun _ s r =>
    flat_map (fun o => fst o ++ matched (snd o)) (fst r) ++ snd r = s);
    clear prev s.
  - reflexivity.
  - intros _ c s _ IH. destruct (scan re (Some c) s) as [[|[g m] occs] tl];
      simpl in *; rewrite IH; reflexivity.
  - intros _ m t w rest _ Hm IH. simpl. rewrite Hm, <- !app_assoc. simpl.
    do 2 f_equal. exact IH.
Qed.

Lemma scan_results prev s :
  Forall (fun o => exists prev' s', re prev' s' = Some (snd o))
         (fst (scan re prev s)).
Proof.
  apply scan_induction with (P := fun _ _ r =>
    Forall (fun o => exists prev' s', re prev' s' = Some (snd o)) (fst r));
    clear prev s.
  - constructor.
  - intros _ c s _ IH. destruct (scan re (Some c) s) as [[|[g m] occs] tl];
      simpl in *; [constructor|].
    inversion IH; subst. constructor; assumption.
  - intros prev m t w rest Hre _ IH. simpl. constructor; [|exact IH].
    simpl. eauto.
Qed.

(** Induction along the pass of a replacer without state. *)
Lemma replaceAt_induction (f : MatchResult -> str)
  (P : option char -> str -> str -> Prop) :
  (forall prev, P prev [] []) ->
  (forall prev c s, re prev (c :: s) = None ->
     P (Some c) s (replaceAt re f (Some c) s) ->
     P prev (c :: s) (c :: replaceAt re f (Some c) s)) ->
  (forall prev m t w rest, re prev (t ++ w :: rest) = Some m ->
     matched m = t ++ [w] ->
     P (Some w) rest (replaceAt re f (Some w) rest) ->
     P prev (t ++ w :: rest) (f m ++ replaceAt re f (Some w) rest)) ->
  forall prev s, P prev s (replaceAt re f prev s).
Proof.
  intros Hnil Hno Hyes prev s.
  remember (length s) as n eqn:Hn. revert prev s Hn.
  induction n as [n IH] using lt_wf_ind. intros prev s Hn.
  destruct s as [|c s'].
  - rewrite replaceAt_nil by apply consuming_nil. apply Hnil.
  - destruct (re prev (c :: s')) as [m|] eqn:E.
    + pose proof E as E'.
      apply re_consuming in E' as (t & w & rest & Hm & Hs).
      rewrite Hs in *. rewrite replaceAt_match with (m := m) by assumption.
      apply Hyes; try assumption. apply (IH (length rest)); [|reflexivity].
      subst n. rewrite length_app. simpl. lia.
    + rewrite replaceAt_nomatch by exact E. apply Hno; [exact E|].
      apply (IH (length s')); [subst n; simpl; lia|reflexivity].
Qed.

End Partition.

(** ** The heading markers *)

Lemma headingMarker_Some s m :
  headingMarker s = Some m ->
  exists hashes w rest,
    s = hashes ++ w :: rest
    /\ m = {| matched := hashes ++ [w]; groups := [Some hashes] |}
    /\ forallb (N.eqb HASH) hashes = true
    /\ (1 <= length hashes <= 6)%nat
    /\ isWhiteSpace w = true.
Proof.
  unfold headingMarker.
  pose proof (span_app (N.eqb HASH) s) as A.
  pose proof (span_forall (N.eqb HASH) s) as F.
  destruct (span (N.eqb HASH) s) as [hashes rest]. simpl in A, F.
  destruct rest as [|w rest]; [discriminate|].
  destruct ((1 <=? length hashes)%nat && (length hashes <=? 6)%nat
            && isWhiteSpace w) eqn:C; [|discriminate].
  intros [= <-]. apply andb_prop in C as [C W]. apply andb_prop in C as [C1 C2].
  apply Nat.leb_le in C1, C2.
  exists hashes, w, rest. repeat split; auto.
Qed.

Lemma headingRegex_Some prev s m :
  headingRegex prev s = Some m ->
  atLineStart prev = true /\ headingMarker s = Some m.
Proof.
  unfold headingRegex. destruct (atLineStart prev); [auto|discriminate].
Qed.

Lemma headingRegex_consuming : consuming headingRegex.
Proof.
  intros prev s m H. apply headingRegex_Some in H as [_ H].
  apply headingMarker_Some in H as (h & w & rest & -> & -> & _).
  exists h, w, rest. split; reflexivity.
Qed.

Lemma headingMarkers_shape s :
  Forall (fun o => isMarker (snd o)) (fst (headingMarkers s)).
Proof.
  unfold headingMarkers.
  pose proof (scan_results headingRegex_consuming None s) as R.
  eapply Forall_impl; [|exact R]. intros o (prev' & s' & H).
  apply headingRegex_Some in H as [_ H].
  apply headingMarker_Some in H as (h & w & rest & _ & E & F & L & W).
  exists h, w. auto.
Qed.

Lemma isMarker_level m :
  isMarker m -> 1 <= hashesLength m <= 6.
Proof.
  intros (h & w & -> & _ & L & _). unfold hashesLength. simpl. lia.
Qed.

Lemma currentLevels_range s :
  Forall (fun l => 1 <= l <= 6) (currentLevels s).
Proof.
  unfold currentLevels, levelsOf. apply Forall_map.
  eapply Forall_impl; [|apply headingMarkers_shape].
  intros o. apply isMarker_level.
Qed.

Lemma maxCascadeLevels_none maxLevel levels :
  Forall (fun l => maxLevel <= l) levels ->
  maxCascadeLevels maxLevel levels = levels.
Proof.
  induction 1 as [|l levels Hl _ IH]; simpl; [reflexivity|].
  destruct (Z.ltb_spec l maxLevel); [lia|]. rewrite IH. reflexivity.
Qed.

Lemma maxCascadeLevels_trigger maxLevel before t after :
  Forall (fun l => maxLevel <= l) before -> t < maxLevel ->
  maxCascadeLevels maxLevel (before ++ t :: after) =
  before ++ maxLevel :: map (fun c => Z.min (c + (maxLevel - t)) 6) after.
Proof.
  induction 1 as [|l before Hl _ IH]; intros Ht; simpl.
  - destruct (Z.ltb_spec t maxLevel); [reflexivity|lia].
  - destruct (Z.ltb_spec l maxLevel); [lia|]. rewrite IH by exact Ht.
    reflexivity.
Qed.

(** C1.  In the contextual cascade (the setting on and a context level
    above 0) the heading markers partition the text in document order, and
    the stage rewrites marker [i] to the level the rule of the
    specification gives from the state (delta, cascading) = (-1, false):
    under cascading min(currentLevel + delta, 6); else, at a level up to
    the context level, min(contextLevel + 1, 6), which sets delta and
    starts the cascade; else the level it has. *)
Theorem contextual_cascade_levels settings contextLevel s a :
  contextualCascade settings = true -> 0 < contextLevel ->
  flat_map (fun o => fst o ++ matched (snd o)) (fst (headingMarkers s))
    ++ snd (headingMarkers s) = s
  /\ fst (normalizeHeadings settings contextLevel s a) =
     withLevels s
       (runLevels (contextualStep contextLevel) (-1, false) (currentLevels s)).
Proof.
  intros C L. split.
  - apply (scan_subject headingRegex_consuming).
  - rewrite normalizeHeadings_text.
    + unfold newLevels. rewrite C.
      destruct (Z.ltb_spec 0 contextLevel); [reflexivity|lia].
    + left. rewrite C. apply Z.ltb_lt. exact L.
Qed.

Lemma contextual_cascade_levels_witness :
  fst (normalizeHeadings settingsContextual 2
         (lit "# a" ++ LF :: lit "### b" ++ LF :: lit "##### c") false)
  = lit "### a" ++ LF :: lit "##### b" ++ LF :: lit "###### c".
Proof.
  pose proof (@contextual_cascade_levels settingsContextual 2
    (lit "# a" ++ LF :: lit "### b" ++ LF :: lit "##### c") false
    eq_refl eq_refl) as [_ H].
  rewrite H. vm_compute. reflexivity.
Defined.

(** C2.  In the max-level branch with cascading (no contextual cascade, a
    maximum above 1, the cascade setting on) the stage rewrites the
    markers to the levels of the max-level cascade: with no level below
    the maximum all levels are kept; else the first level below it
    becomes the maximum, the levels before it are kept, and every level
    after it is min(level + delta, 6) for the one delta of that first
    heading. *)
Theorem max_cascade_levels settings contextLevel s a :
  (contextualCascade settings && (0 <? contextLevel)) = false ->
  1 < maxHeadingLevel settings ->
  cascadeHeadingLevels settings = true ->
  fst (normalizeHeadings settings contextLevel s a) =
    withLevels s (maxCascadeLevels (maxHeadingLevel settings) (currentLevels s))
  /\ (Forall (fun l => maxHeadingLevel settings <= l) (currentLevels s) ->
      maxCascadeLevels (maxHeadingLevel settings) (currentLevels s)
      = currentLevels s)
  /\ (forall before t after,
        currentLevels s = before ++ t :: after ->
        Forall (fun l => maxHeadingLevel settings <= l) before ->
        t < maxHeadingLevel settings ->
        maxCascadeLevels (maxHeadingLevel settings) (currentLevels s)
        = before ++ maxHeadingLevel settings
            :: map (fun c => Z.min (c + (maxHeadingLevel settings - t)) 6)
                   after).
Proof.
  intros C M K. split; [|split].
  - rewrite normalizeHeadings_text.
    + unfold newLevels. rewrite C, K.
      destruct (Z.ltb_spec 1 (maxHeadingLevel settings)); [reflexivity|lia].
    + right. apply Z.ltb_lt. exact M.
  - apply maxCascadeLevels_none.
  - intros before t after -> B T. apply maxCascadeLevels_trigger; assumption.
Qed.

Lemma max_cascade_levels_witness :
  fst (normalizeHeadings settingsMaxCascade 0
         (lit "### a" ++ LF :: lit "# b" ++ LF :: lit "###### c") false)
  = lit "### a" ++ LF :: lit "## b" ++ LF :: lit "###### c".
Proof.
  pose proof (@max_cascade_levels settingsMaxCascade 0
    (lit "### a" ++ LF :: lit "# b" ++ LF :: lit "###### c") false
    eq_refl eq_refl eq_refl) as [H _].
  rewrite H. vm_compute. reflexivity.
Defined.

(** C4.  In either mode of stage 1, on a text with at least one heading
    marker, the flag after the stage is whether the new level of the last
    marker differs from its level; and in each mode there are texts whose
    first marker is rewritten while the stage leaves the flag false. *)
Theorem heading_flag_is_last_change :
  (forall settings contextLevel s a,
     (contextualCascade settings && (0 <? contextLevel)) = true
     \/ (1 <? maxHeadingLevel settings) = true ->
     currentLevels s <> [] ->
     snd (normalizeHeadings settings contextLevel s a) =
     negb (last (newLevels settings contextLevel (currentLevels s)) 0
           =? last (currentLevels s) 0))
  /\ (let s := lit "# a" ++ LF :: lit "###### b" in
      currentLevels s = [1; 6]
      /\ newLevels settingsContextual 1 (currentLevels s) = [2; 6]
      /\ normalizeHeadings settingsContextual 1 s false
         = (lit "## a" ++ LF :: lit "###### b", false))
  /\ (let s := lit "# a" ++ LF :: lit "###### b" in
      currentLevels s = [1; 6]
      /\ newLevels settingsMaxCascade 0 (currentLevels s) = [2; 6]
      /\ normalizeHeadings settingsMaxCascade 0 s false
         = (lit "## a" ++ LF :: lit "###### b", false))
  /\ (let s := lit "# a" ++ LF :: lit "### b" in
      currentLevels s = [1; 3]
      /\ newLevels settingsClamp 0 (currentLevels s) = [2; 3]
      /\ normalizeHeadings settingsClamp 0 s false
         = (lit "## a" ++ LF :: lit "### b", false)).
Proof.
  split; [|repeat split; vm_compute; reflexivity].
  intros settings contextLevel s a M Hne.
  apply normalizeHeadings_flag; assumption.
Qed.

Lemma heading_flag_is_last_change_witness :
  snd (normalizeHeadings settingsClamp 0
         (lit "# a" ++ LF :: lit "### b") true) = false.
Proof.
  rewrite (proj1 heading_flag_is_last_change settingsClamp 0
             (lit "# a" ++ LF :: lit "### b") true).
  - vm_compute. reflexivity.
  - right. vm_compute. reflexivity.
  - vm_compute. discriminate.
Defined.

(** ** The clamp is idempotent *)

Lemma replaceOccs_clamp settings st occs :
  cascadeHeadingLevels settings = false ->
  snd (replaceOccs (maxLevelReplacer settings) st occs) =
  snd (replaceOccs
         (fun (_ : unit) m => (tt, clampMarker (maxHeadingLevel settings) m))
         tt occs).
Proof.
  intros C. revert st. induction occs as [|[gap m] occs IH]; intros st.
  - reflexivity.
  - cbn [replaceOccs]. unfold maxLevelReplacer at 1. rewrite C.
    match goal with
    | |- context [replaceOccs (maxLevelReplacer settings) ?st1 occs] =>
        specialize (IH st1);
        destruct (replaceOccs (maxLevelReplacer settings) st1 occs)
    end.
    destruct (replaceOccs _ tt occs).
    cbn [fst snd] in *. rewrite IH. reflexivity.
Qed.

Lemma normalizeHeadings_clamp settings contextLevel s a :
  (contextualCascade settings && (0 <? contextLevel)) = false ->
  1 < maxHeadingLevel settings ->
  cascadeHeadingLevels settings = false ->
  fst (normalizeHeadings settings contextLevel s a) =
  clampFrom (maxHeadingLevel settings) None s.
Proof.
  intros C M K. unfold clampFrom. rewrite replaceAt_eq.
  rewrite <- replaceOccs_clamp
    with (st := {| delta := -1; cascading := false; applied := a |})
    by exact K.
  unfold normalizeHeadings, replaceWith, replaceFrom.
  rewrite C. destruct (Z.ltb_spec 1 (maxHeadingLevel settings)); [|lia].
  destruct (scan headingRegex None s) as [occs tl]. cbn [fst snd].
  destruct (replaceOccs (maxLevelReplacer settings) _ occs) as [st1 out].
  reflexivity.
Qed.

Section Clamp.

Variable maxLevel : Z.
Hypothesis maxLevel_gt_1 : 1 < maxLevel.

Lemma clamp_nil prev : clampFrom maxLevel prev [] = [].
Proof. apply replaceAt_nil, (consuming_nil headingRegex_consuming). Qed.

Lemma clamp_nomatch prev c s :
  headingRegex prev (c :: s) = None ->
  clampFrom maxLevel prev (c :: s) = c :: clampFrom maxLevel (Some c) s.
Proof.
  intros H. apply replaceAt_nomatch. exact H.
Qed.

Lemma clamp_inside prev c s :
  atLineStart prev = false ->
  clampFrom maxLevel prev (c :: s) = c :: clampFrom maxLevel (Some c) s.
Proof.
  intros H. apply clamp_nomatch. unfold headingRegex. rewrite H. reflexivity.
Qed.

Lemma clamp_match prev hashes w rest :
  headingRegex prev (hashes ++ w :: rest)
    = Some {| matched := hashes ++ [w]; groups := [Some hashes] |} ->
  clampFrom maxLevel prev (hashes ++ w :: rest) =
  JS.repeat HASH (Z.max (Z.of_nat (length hashes)) maxLevel)
    ++ SPACE :: clampFrom maxLevel (Some w) rest.
Proof.
  intros H. unfold clampFrom.
  rewrite replaceAt_match
    with (m := {| matched := hashes ++ [w]; groups := [Some hashes] |})
    by (exact H || reflexivity).
  unfold clampMarker, hashesLength. simpl. rewrite <- app_assoc. reflexivity.
Qed.

(** The marker at the front of a run of hashes and the character after. *)
Lemma headingMarker_run hashes w rest :
  forallb (N.eqb HASH) hashes = true -> N.eqb HASH w = false ->
  headingMarker (hashes ++ w :: rest) =
  if (1 <=? length hashes)%nat && (length hashes <=? 6)%nat && isWhiteSpace w
  then Some {| matched := hashes ++ [w]; groups := [Some hashes] |}
  else None.
Proof.
  intros F W. unfold headingMarker. rewrite span_run by assumption.
  reflexivity.
Qed.

Lemma headingMarker_hashes hashes :
  forallb (N.eqb HASH) hashes = true -> headingMarker hashes = None.
Proof.
  intros F. unfold headingMarker. rewrite span_all by assumption. reflexivity.
Qed.

(** Inside a line the pass copies a run of hashes. *)
Lemma clamp_hashes hashes rest :
  forallb (N.eqb HASH) hashes = true ->
  clampFrom maxLevel (Some HASH) (hashes ++ rest)
  = hashes ++ clampFrom maxLevel (Some HASH) rest.
Proof.
  intros F. induction hashes as [|c hashes IH].
  - reflexivity.
  - cbn [forallb] in F. apply andb_prop in F as [Fc F].
    apply N.eqb_eq in Fc. subst c.
    cbn [app]. rewrite clamp_inside by reflexivity. rewrite IH by exact F.
    reflexivity.
Qed.

(** Where the regex fails at a line start, it fails on the output too. *)
Lemma headingMarker_clamp_None c s :
  headingMarker (c :: s) = None ->
  headingMarker (c :: clampFrom maxLevel (Some c) s) = None.
Proof.
  intros H. destruct (N.eqb HASH c) eqn:Ec.
  - apply N.eqb_eq in Ec. subst c.
    pose proof (span_app (N.eqb HASH) s) as A.
    pose proof (span_forall (N.eqb HASH) s) as F.
    pose proof (span_rest (N.eqb HASH) s) as R.
    destruct (span (N.eqb HASH) s) as [t r]. cbn [fst snd] in A, F, R. subst s.
    rewrite clamp_hashes by exact F.
    destruct r as [|w r].
    + rewrite clamp_nil, app_nil_r.
      apply (headingMarker_hashes (HASH :: t)). simpl. exact F.
    + specialize (R w r eq_refl).
      rewrite clamp_inside by reflexivity.
      change (HASH :: t ++ w :: r) with ((HASH :: t) ++ w :: r) in H.
      change (HASH :: t ++ w :: clampFrom maxLevel (Some w) r)
        with ((HASH :: t) ++ w :: clampFrom maxLevel (Some w) r).
      rewrite headingMarker_run in * by (simpl; assumption).
      exact H.
  - unfold headingMarker. cbn [span]. rewrite Ec. reflexivity.
Qed.

Lemma repeat_hashes n : forallb (N.eqb HASH) (List.repeat HASH n) = true.
Proof. induction n; simpl; auto. Qed.

(** The pass over a marker that the clamp has written. *)
Lemma clamp_written prev n rest :
  maxLevel <= Z.of_nat n ->
  clampFrom maxLevel prev (List.repeat HASH n ++ SPACE :: rest) =
  List.repeat HASH n ++ SPACE :: clampFrom maxLevel (Some SPACE) rest.
Proof.
  intros Hn.
  destruct (headingRegex prev (List.repeat HASH n ++ SPACE :: rest)) as [m|] eqn:E.
  - pose proof E as E'. apply headingRegex_Some in E' as [_ E'].
    rewrite headingMarker_run in E' by (apply repeat_hashes || reflexivity).
    match type of E' with
    | (if ?c then _ else _) = _ => destruct c; [|discriminate]
    end.
    injection E' as <-. rewrite clamp_match by exact E.
    rewrite repeat_length. unfold JS.repeat.
    replace (Z.to_nat (Z.max (Z.of_nat n) maxLevel)) with n by lia.
    reflexivity.
  - destruct n as [|n]; [lia|]. simpl in *.
    rewrite clamp_nomatch by exact E.
    rewrite clamp_hashes by apply repeat_hashes.
    rewrite clamp_inside by reflexivity. reflexivity.
Qed.

Lemma clampFrom_idempotent s :
  forall p q, (atLineStart p = true -> atLineStart q = true) ->
  clampFrom maxLevel p (clampFrom maxLevel q s) = clampFrom maxLevel q s.
Proof.
  remember (length s) as n eqn:Hn. revert s Hn.
  induction n as [n IH] using lt_wf_ind. intros s Hn p q Hpq.
  destruct s as [|c s].
  - rewrite !clamp_nil. reflexivity.
  - destruct (headingRegex q (c :: s)) as [m|] eqn:E.
    + pose proof E as E'. apply headingRegex_Some in E' as [_ E'].
      apply headingMarker_Some in E' as (h & w & rest & Hs & -> & F & L & W).
      rewrite Hs in *. rewrite clamp_match by exact E.
      unfold JS.repeat. rewrite clamp_written by lia.
      rewrite (IH (length rest)) with (s := rest) (p := Some SPACE) (q := Some w).
      * reflexivity.
      * subst n. rewrite <- Hs. rewrite Hs, length_app. simpl. lia.
      * reflexivity.
      * discriminate.
    + rewrite clamp_nomatch by exact E.
      assert (N : headingRegex p (c :: clampFrom maxLevel (Some c) s) = None).
      { unfold headingRegex in *. destruct (atLineStart p); [|reflexivity].
        rewrite Hpq in E by reflexivity. apply headingMarker_clamp_None. exact E. }
      rewrite clamp_nomatch by exact N. f_equal.
      apply (IH (length s)); [subst n; simpl; lia|reflexivity|auto].
Qed.

End Clamp.

(** C9.  In the max-level branch without cascading (no contextual
    cascade, a maximum above 1, the cascade setting off) stage 1 applied to
    its own output gives that output again. *)
Theorem clamp_idempotent settings contextLevel s a a' :
  (contextualCascade settings && (0 <? contextLevel)) = false ->
  1 < maxHeadingLevel settings ->
  cascadeHeadingLevels settings = false ->
  fst (normalizeHeadings settings contextLevel
         (fst (normalizeHeadings settings contextLevel s a)) a')
  = fst (normalizeHeadings settings contextLevel s a).
Proof.
  intros C M K. rewrite !normalizeHeadings_clamp by assumption.
  apply clampFrom_idempotent; auto.
Qed.

Lemma clamp_idempotent_witness :
  fst (normalizeHeadings settingsClamp 0
         (fst (normalizeHeadings settingsClamp 0
                 (lit "# a" ++ LF :: lit "### b") false)) false)
  = lit "## a" ++ LF :: lit "### b".
Proof.
  rewrite (@clamp_idempotent settingsClamp 0 (lit "# a" ++ LF :: lit "### b")
             false false eq_refl eq_refl eq_refl).
  vm_compute. reflexivity.
Defined.

(** ** Stage 3: no run of three line feeds is left *)

Lemma blankRun_Some prev s m :
  blankRun prev s = Some m ->
  m = plain (fst (span (N.eqb LF) s)) /\ (3 <= leadingLF s)%nat.
Proof.
  unfold blankRun, leadingLF.
  destruct (Nat.leb_spec 3 (length (fst (span (N.eqb LF) s)))); [|discriminate].
  intros [= <-]. auto.
Qed.

Lemma blankRun_None prev s :
  blankRun prev s = None -> (leadingLF s < 3)%nat.
Proof.
  unfold blankRun, leadingLF.
  destruct (Nat.leb_spec 3 (length (fst (span (N.eqb LF) s)))); [discriminate|].
  auto.
Qed.

Lemma blankRun_consuming : consuming blankRun.
Proof.
  intros prev s m H. apply blankRun_Some in H as [-> L]. unfold leadingLF in L.
  pose proof (span_app (N.eqb LF) s) as A.
  destruct (span (N.eqb LF) s) as [run rest]. cbn [fst snd matched plain] in *.
  destruct (exists_last (l := run)) as (t & w & ->).
  { intros ->. simpl in L. lia. }
  exists t, w, rest. split; [reflexivity|].
  rewrite <- A, <- app_assoc. reflexivity.
Qed.

Lemma leadingLF_cons c s :
  leadingLF (c :: s) = if N.eqb LF c then S (leadingLF s) else 0%nat.
Proof.
  unfold leadingLF. cbn [span]. destruct (N.eqb LF c); [|reflexivity].
  destruct (span (N.eqb LF) s). reflexivity.
Qed.

(** After the whole run of line feeds no line feed follows. *)
Lemma leadingLF_after_run t w rest :
  t ++ [w] = fst (span (N.eqb LF) (t ++ w :: rest)) -> leadingLF rest = 0%nat.
Proof.
  intros E.
  pose proof (span_app (N.eqb LF) (t ++ w :: rest)) as A.
  pose proof (span_rest (N.eqb LF) (t ++ w :: rest)) as R.
  rewrite <- E in A.
  replace (t ++ w :: rest) with ((t ++ [w]) ++ rest) in A at 2
    by (rewrite <- app_assoc; reflexivity).
  apply app_inv_head in A. rewrite A in R.
  destruct rest as [|c rest]; [reflexivity|].
  rewrite leadingLF_cons, (R c rest eq_refl). reflexivity.
Qed.

(** A text without three line feeds in a row, by its leading line feeds. *)
Lemma threeLineFeeds_cons c s :
  threeLineFeeds (c :: s) ->
  (c = LF /\ (2 <= leadingLF s)%nat) \/ threeLineFeeds s.
Proof.
  intros (a & b & E). destruct a as [|x a].
  - left. injection E as -> ->. split; [reflexivity|].
    rewrite !leadingLF_cons. simpl. lia.
  - right. injection E as _ ->. exists a, b. reflexivity.
Qed.

Lemma not_threeLineFeeds_nil : ~ threeLineFeeds [].
Proof. intros (a & b & E). destruct a; discriminate. Qed.

Lemma collapse_bounded prev s :
  ~ threeLineFeeds (replaceAt blankRun (fun _ => [LF; LF]) prev s)
  /\ (leadingLF (replaceAt blankRun (fun _ => [LF; LF]) prev s)
      <= Nat.min 2 (leadingLF s))%nat.
Proof.
  apply (replaceAt_induction blankRun_consuming) with (P := fun _ s out =>
    ~ threeLineFeeds out /\ (leadingLF out <= Nat.min 2 (leadingLF s))%nat);
    clear prev s.
  - intros _. split; [apply not_threeLineFeeds_nil|]. reflexivity.
  - intros prev c s Hre [IH1 IH2]. apply blankRun_None in Hre.
    rewrite leadingLF_cons in Hre. rewrite !leadingLF_cons.
    set (k := leadingLF (replaceAt _ _ _ s)) in *.
    destruct (N.eqb LF c) eqn:Ec.
    + split; [|lia]. intros T. apply threeLineFeeds_cons in T as [[_ T]|T].
      * fold k in T. lia.
      * contradiction.
    + split; [|lia]. intros T. apply threeLineFeeds_cons in T as [[-> _]|T].
      * discriminate.
      * contradiction.
  - intros prev m t w rest Hre Hm [IH1 IH2].
    apply blankRun_Some in Hre as [-> L]. cbn [matched plain] in Hm.
    symmetry in Hm. apply leadingLF_after_run in Hm.
    rewrite Hm in IH2. apply Nat.le_0_r in IH2. split.
    + cbn [app]. intros T.
      apply threeLineFeeds_cons in T as [[_ T]|T].
      * rewrite leadingLF_cons in T. rewrite IH2 in T. simpl in T. lia.
      * apply threeLineFeeds_cons in T as [[_ T]|T]; [|contradiction].
        rewrite IH2 in T. lia.
    + cbn [app]. rewrite !leadingLF_cons. rewrite IH2. simpl N.eqb. cbn iota.
      apply Nat.min_glb; [lia|].
      apply Nat.le_trans with 3%nat; [lia|exact L].
Qed.

Lemma collapseBlankRuns_bounded md a :
  ~ threeLineFeeds (fst (collapseBlankRuns md a)).
Proof. unfold collapseBlankRuns. cbn [fst]. apply collapse_bounded. Qed.

Lemma last_cons_default {A} (x d : A) l : last (x :: l) d = last l x.
Proof.
  revert x d. induction l as [|y l IH]; intros x d; [reflexivity|].
  change (last (x :: y :: l) d) with (last (y :: l) d).
  rewrite !IH. reflexivity.
Qed.

(** A pass copies a text on whose characters the regex never starts. *)
Lemma replaceAt_skip re f (p : char -> bool) a :
  (forall prev c t, p c = true -> re prev (c :: t) = None) ->
  forallb p a = true ->
  forall prev b,
    replaceAt re f prev (a ++ b) =
    a ++ replaceAt re f (last (map Some a) prev) b.
Proof.
  intros Hp. induction a as [|c a IH]; intros Fa prev b.
  - reflexivity.
  - cbn [forallb] in Fa. apply andb_prop in Fa as [Fc Fa].
    cbn [app]. rewrite replaceAt_nomatch by (apply Hp; exact Fc).
    rewrite IH by exact Fa. cbn [map]. rewrite last_cons_default. reflexivity.
Qed.

Lemma replaceAt_fixed re f (p : char -> bool) a prev :
  (forall prev c t, p c = true -> re prev (c :: t) = None) ->
  re (last (map Some a) prev) [] = None ->
  forallb p a = true ->
  replaceAt re f prev a = a.
Proof.
  intros Hp Hnil Fa.
  rewrite <- (app_nil_r a) at 1. rewrite replaceAt_skip with (p := p) by assumption.
  rewrite replaceAt_nil by exact Hnil. apply app_nil_r.
Qed.

Lemma literal_head pat c prev x t :
  (x =? c)%N = false -> literal (c :: pat) prev (x :: t) = None.
Proof.
  intros H. unfold literal. cbn [stripPrefix].
  rewrite N.eqb_sym, H. reflexivity.
Qed.

Lemma normalizeLineEndings_fixed a :
  forallb (fun c => negb (c =? CR)%N) a = true -> normalizeLineEndings a = a.
Proof.
  intros F. unfold normalizeLineEndings, replaceLiteral, replace.
  apply replaceAt_fixed with (p := fun c => negb (c =? CR)%N).
  - intros prev c t H. apply literal_head. apply negb_true_iff. exact H.
  - reflexivity.
  - exact F.
Qed.

Lemma eqb_eq a b : JS.eqb a b = true <-> a = b.
Proof.
  revert b. induction a as [|x a IH]; intros [|y b]; simpl; split;
    try discriminate; try reflexivity.
  - intros H. apply andb_prop in H as [H1 H2]. apply N.eqb_eq in H1.
    apply IH in H2. congruence.
  - intros [= -> ->]. rewrite N.eqb_refl. apply IH. reflexivity.
Qed.

Lemma neqb_true a b : a <> b -> neqb a b = true.
Proof.
  intros H. unfold neqb. destruct (JS.eqb a b) eqn:E; [|reflexivity].
  apply eqb_eq in E. contradiction.
Qed.

Lemma neqb_refl a : neqb a a = false.
Proof.
  unfold neqb. rewrite (proj2 (eqb_eq a a) eq_refl). reflexivity.
Qed.

Lemma neqb_false a b : neqb a b = false -> a = b.
Proof.
  unfold neqb. intros H. apply negb_false_iff in H. apply eqb_eq. exact H.
Qed.

(** ** The function and its stages *)

Section Pipeline.

Context {Exn RegExpObj : Type}.
Variable newRegExp : str -> Exn + RegExpObj.
Variable replaceRegExp : RegExpObj -> str -> str -> Exn + str.

Lemma transformMarkdown_stages md settings contextLevel escapeMarkdown :
  transformMarkdown newRegExp replaceRegExp md settings contextLevel
    escapeMarkdown =
  match (if (0 <? length (markdownRegexReplacements settings))%nat
         then applyReplacements newRegExp replaceRegExp
                (markdownRegexReplacements settings)
                (textStages md settings contextLevel escapeMarkdown)
         else inr (textStages md settings contextLevel escapeMarkdown)) with
  | inl e => inl e
  | inr state =>
      inr {| markdown := fst state; appliedTransformations := snd state |}
  end.
Proof.
  unfold transformMarkdown, textStages.
  destruct (if negb escapeMarkdown then _ else _) as [md1 a1].
  destruct (if convertToSingleSpaced settings && _ then _ else _) as [md2 a2].
  destruct (if removeEmptyLines settings then _ else _) as [md3 a3].
  reflexivity.
Qed.

Lemma transformMarkdown_no_rules md settings contextLevel escapeMarkdown :
  markdownRegexReplacements settings = [] ->
  transformMarkdown newRegExp replaceRegExp md settings contextLevel
    escapeMarkdown =
  inr {| markdown := fst (textStages md settings contextLevel escapeMarkdown);
         appliedTransformations :=
           snd (textStages md settings contextLevel escapeMarkdown) |}.
Proof.
  intros H. rewrite transformMarkdown_stages, H. reflexivity.
Qed.

End Pipeline.

Lemma span_split p t b :
  forallb p t = true -> forallb (fun c => negb (p c)) b = true ->
  span p (t ++ b) = (t, b).
Proof.
  intros Ft Fb. destruct b as [|c b].
  - rewrite app_nil_r. apply span_all. exact Ft.
  - cbn [forallb] in Fb. apply andb_prop in Fb as [Fc _].
    apply span_run; [exact Ft|]. apply negb_true_iff. exact Fc.
Qed.

Lemma forallb_weaken (p q : char -> bool) s :
  (forall c, p c = true -> q c = true) ->
  forallb p s = true -> forallb q s = true.
Proof.
  intros H F. rewrite forallb_forall in *. auto.
Qed.

Lemma repeat_LF_forall k : forallb (N.eqb LF) (List.repeat LF k) = true.
Proof. induction k; simpl; auto. Qed.

Lemma blankRun_head prev c t :
  negb (c =? LF)%N = true -> blankRun prev (c :: t) = None.
Proof.
  intros H. unfold blankRun. cbn [span].
  rewrite N.eqb_sym. apply negb_true_iff in H. rewrite H. reflexivity.
Qed.

(** A run of three or more line feeds between two texts of one line. *)
Lemma collapseBlankRuns_run a b k applied :
  oneLine a = true -> oneLine b = true -> (3 <= k)%nat ->
  collapseBlankRuns (a ++ List.repeat LF k ++ b) applied
  = (a ++ LF :: LF :: b, true).
Proof.
  intros Ha Hb Hk. unfold oneLine in *.
  assert (HaLF : forallb (fun c => negb (c =? LF)%N) a = true).
  { eapply forallb_weaken; [|exact Ha]. intros c H.
    apply andb_prop in H as [H _]. exact H. }
  assert (HbLF : forallb (fun c => negb (c =? LF)%N) b = true).
  { eapply forallb_weaken; [|exact Hb]. intros c H.
    apply andb_prop in H as [H _]. exact H. }
  assert (N : normalizeLineEndings (a ++ List.repeat LF k ++ b)
              = a ++ List.repeat LF k ++ b).
  { apply normalizeLineEndings_fixed. rewrite !forallb_app.
    apply andb_true_intro. split; [|apply andb_true_intro; split].
    - eapply forallb_weaken; [|exact Ha]. intros c H.
      apply andb_prop in H as [_ H]. exact H.
    - clear. induction k; simpl; auto.
    - eapply forallb_weaken; [|exact Hb]. intros c H.
      apply andb_prop in H as [_ H]. exact H. }
  assert (R : replace blankRun (fun _ => [LF; LF]) (a ++ List.repeat LF k ++ b)
              = a ++ LF :: LF :: b).
  { unfold replace.
    rewrite replaceAt_skip with (p := fun c => negb (c =? LF)%N)
      by (exact HaLF || (intros; apply blankRun_head; assumption)).
    f_equal. destruct k as [|k]; [lia|].
    assert (Sp : span (N.eqb LF) (List.repeat LF (S k) ++ b)
                = (List.repeat LF (S k), b)).
    { apply span_split; [apply repeat_LF_forall|].
      eapply forallb_weaken; [|exact HbLF]. intros c H.
      rewrite N.eqb_sym. exact H. }
    assert (M : forall prev, blankRun prev (List.repeat LF (S k) ++ b)
                = Some (plain (List.repeat LF (S k)))).
    { intros prev. unfold blankRun. rewrite Sp. cbn [fst].
      rewrite repeat_length.
      destruct (Nat.leb_spec 3 (S k)); [reflexivity|lia]. }
    revert M. cbn [List.repeat]. rewrite repeat_cons, <- app_assoc. cbn [app].
    intros M.
    rewrite replaceAt_match with (m := plain (List.repeat LF k ++ [LF]))
      by (apply M || reflexivity).
    rewrite replaceAt_fixed with (p := fun c => negb (c =? LF)%N)
      by (exact HbLF || reflexivity || (intros; apply blankRun_head; assumption)).
    reflexivity. }
  unfold collapseBlankRuns. rewrite N, R. rewrite neqb_true; [reflexivity|].
  intros E. apply app_inv_head in E. apply (f_equal (@length _)) in E.
  rewrite length_app, repeat_length in E. simpl in E. lia.
Qed.

(** ** Stage 4: the empty lines *)

Lemma dropWhile_nil p s : dropWhile p s = [] -> forallb p s = true.
Proof.
  induction s as [|c s IH]; simpl; [reflexivity|].
  destruct (p c); [exact IH|discriminate].
Qed.

Lemma isBlank_whitespace line :
  isBlank line = true -> forallb isWhiteSpace line = true.
Proof.
  unfold isBlank, trim. intros H. apply eqb_eq in H.
  apply (f_equal (@rev _)) in H. rewrite rev_involutive in H. simpl in H.
  apply dropWhile_nil in H. rewrite forallb_forall in H.
  assert (E : dropWhile isWhiteSpace line = []).
  { destruct (dropWhile isWhiteSpace line) as [|c t] eqn:D; [reflexivity|].
    assert (isWhiteSpace c = true)
      by (apply H, in_rev; rewrite rev_involutive; left; reflexivity).
    assert (isWhiteSpace c = false).
    { clear -D. induction line as [|x line IH]; simpl in D; [discriminate|].
      destruct (isWhiteSpace x) eqn:X; [auto|]. injection D as <- _. exact X. }
    congruence. }
  apply dropWhile_nil. exact E.
Qed.

(** A blank line holds no preserve marker: a marker starts with [<]. *)
Lemma searchFrom_whitespace opening prev line :
  forallb isWhiteSpace line = true ->
  searchFrom (preserveMarker (LT :: opening)) prev line = false.
Proof.
  revert prev. induction line as [|c line IH]; intros prev F.
  - reflexivity.
  - cbn [forallb] in F. apply andb_prop in F as [Fc F].
    cbn [searchFrom]. unfold preserveMarker at 1. cbn [stripPrefix].
    destruct (N.eqb_spec LT c) as [<-|_]; [discriminate|].
    apply IH. exact F.
Qed.

Lemma isBlank_no_marker line :
  isBlank line = true ->
  test preserveClass line || test preserveData line = false.
Proof.
  intros B. apply isBlank_whitespace in B. unfold test.
  unfold preserveClass, preserveData.
  change (lit "<p class=" ++ QUOTE :: lit "preserve-line-break" ++ [QUOTE])
    with (LT :: lit "p class=" ++ QUOTE :: lit "preserve-line-break" ++ [QUOTE]).
  change (lit "<p data-preserve=" ++ QUOTE :: lit "true" ++ [QUOTE])
    with (LT :: lit "p data-preserve=" ++ QUOTE :: lit "true" ++ [QUOTE]).
  rewrite !searchFrom_whitespace by exact B. reflexivity.
Qed.

(** What the loop does with a blank line. *)
Lemma filterLine_blank preserveLineBreaks lines i currentLine :
  nth_error lines i = Some currentLine -> isBlank currentLine = true ->
  filterLine preserveLineBreaks lines i =
  if match nth_error lines (i + 1) with
     | Some next => test ruleLine next
     | None => false
     end
     || match nth_error lines (i + 1) with
        | Some next => test tableLine next
        | None => false
        end
     || ((0 <? i)%nat
         && match nth_error lines (i - 1) with
            | Some previous => test headingLine previous
            | None => false
            end)
  then [currentLine] else [].
Proof.
  intros N B. unfold filterLine. rewrite N.
  rewrite isBlank_no_marker by exact B. rewrite andb_false_r.
  unfold isBlank in B. rewrite B. cbn [andb negb].
  destruct (match nth_error lines (i + 1) with
            | Some next => test ruleLine next | None => false end);
    [reflexivity|].
  destruct (match nth_error lines (i + 1) with
            | Some next => test tableLine next | None => false end);
    [reflexivity|].
  cbn [orb].
  destruct ((0 <? i)%nat && _); reflexivity.
Qed.

(** C6.  With [removeEmptyLines] on, the loop keeps a blank line that
    comes after a heading line of the split text and a blank line that
    comes before a rule line of the split text, and drops a blank line
    that has no rule line and no table line after it and no heading line
    before it; and on the three texts of the specification the stage gives
    the heading with its blank line, the blank line before the rule (the
    empty last line is dropped), and the two lines without the blank ones. *)
Theorem empty_line_filter_rules :
  (forall preserveLineBreaks lines i currentLine previous,
     nth_error lines (S i) = Some currentLine -> isBlank currentLine = true ->
     nth_error lines i = Some previous -> test headingLine previous = true ->
     filterLine preserveLineBreaks lines (S i) = [currentLine])
  /\ (forall preserveLineBreaks lines i currentLine next,
        nth_error lines i = Some currentLine -> isBlank currentLine = true ->
        nth_error lines (i + 1) = Some next -> test ruleLine next = true ->
        filterLine preserveLineBreaks lines i = [currentLine])
  /\ (forall preserveLineBreaks lines i currentLine,
        nth_error lines i = Some currentLine -> isBlank currentLine = true ->
        (forall next, nth_error lines (i + 1) = Some next ->
           test ruleLine next = false /\ test tableLine next = false) ->
        (forall previous, (0 < i)%nat ->
           nth_error lines (i - 1) = Some previous ->
           test headingLine previous = false) ->
        filterLine preserveLineBreaks lines i = [])
  /\ (forall preserveLineBreaks applied,
        removeEmptyLinesStage preserveLineBreaks
          (lit "# Heading" ++ LF :: LF :: lit "text") applied
        = (lit "# Heading" ++ LF :: LF :: lit "text", applied)
        /\ removeEmptyLinesStage preserveLineBreaks
             (lit "a" ++ LF :: LF :: lit "---" ++ [LF]) applied
           = (lit "a" ++ LF :: LF :: lit "---", true)
        /\ removeEmptyLinesStage preserveLineBreaks
             (lit "a" ++ LF :: LF :: LF :: lit "b") applied
           = (lit "a" ++ LF :: lit "b", true)).
Proof.
  split; [|split; [|split]].
  - intros p lines i currentLine previous N B P H.
    rewrite filterLine_blank with (currentLine := currentLine) by assumption.
    replace (S i - 1)%nat with i by lia. rewrite P, H.
    cbn [Nat.ltb Nat.leb andb]. rewrite orb_true_r. reflexivity.
  - intros p lines i currentLine next N B X H.
    rewrite filterLine_blank with (currentLine := currentLine) by assumption.
    rewrite X, H. reflexivity.
  - intros p lines i currentLine N B X P.
    rewrite filterLine_blank with (currentLine := currentLine) by assumption.
    assert (E1 : match nth_error lines (i + 1) with
                 | Some next => test ruleLine next | None => false end = false).
    { destruct (nth_error lines (i + 1)) as [next|]; [|reflexivity].
      apply (X next eq_refl). }
    assert (E2 : match nth_error lines (i + 1) with
                 | Some next => test tableLine next | None => false end = false).
    { destruct (nth_error lines (i + 1)) as [next|]; [|reflexivity].
      apply (X next eq_refl). }
    rewrite E1, E2. cbn [orb].
    destruct (Nat.ltb_spec 0 i) as [L|L]; [|reflexivity].
    destruct (nth_error lines (i - 1)) as [previous|] eqn:Q; [|reflexivity].
    rewrite (P previous L eq_refl). reflexivity.
  - intros p applied.
    destruct p, applied; repeat split; vm_compute; reflexivity.
Qed.

Lemma empty_line_filter_rules_witness :
  filterLine true [lit "# Heading"; []; lit "text"] 1 = [[]]
  /\ filterLine true [lit "a"; []; lit "---"; []] 1 = [[]]
  /\ filterLine true [lit "a"; []; []; lit "b"] 1 = [].
Proof.
  split; [|split].
  - apply (proj1 empty_line_filter_rules true
             [lit "# Heading"; []; lit "text"] 0%nat [] (lit "# Heading"));
      vm_compute; reflexivity.
  - apply (proj1 (proj2 empty_line_filter_rules) true
             [lit "a"; []; lit "---"; []] 1%nat [] (lit "---"));
      vm_compute; reflexivity.
  - apply (proj1 (proj2 (proj2 empty_line_filter_rules)) true
             [lit "a"; []; []; lit "b"] 1%nat []); try (vm_compute; reflexivity).
    + intros next H. vm_compute in H. injection H as <-.
      split; vm_compute; reflexivity.
    + intros previous _ H. vm_compute in H. injection H as <-.
      vm_compute. reflexivity.
Defined.

(** ** Stage 5: the rules *)

Section Rules.

Context {Exn RegExpObj : Type}.
Variable newRegExp : str -> Exn + RegExpObj.
Variable replaceRegExp : RegExpObj -> str -> str -> Exn + str.

Lemma applyReplacements_cons rule rules state :
  applyReplacements newRegExp replaceRegExp (rule :: rules) state =
  applyReplacements newRegExp replaceRegExp rules
    (applyOrSkip newRegExp replaceRegExp state rule).
Proof.
  cbn [applyReplacements]. unfold applyReplacement, applyOrSkip.
  destruct (newRegExp (pattern rule)) as [e|regex]; [reflexivity|].
  cbn. destruct (replaceRegExp regex (fst state) _) as [e|md]; reflexivity.
Qed.

Lemma applyReplacements_fold rules state :
  applyReplacements newRegExp replaceRegExp rules state =
  inr (fold_left (applyOrSkip newRegExp replaceRegExp) rules state).
Proof.
  revert state. induction rules as [|rule rules IH]; intros state.
  - reflexivity.
  - rewrite applyReplacements_cons, IH. reflexivity.
Qed.

Lemma applyOrSkip_fails state rule :
  ruleFails newRegExp replaceRegExp (fst state) rule ->
  applyOrSkip newRegExp replaceRegExp state rule = state.
Proof.
  unfold ruleFails, applyOrSkip.
  destruct (newRegExp (pattern rule)) as [e|regex]; [reflexivity|].
  destruct (replaceRegExp regex (fst state) _); [reflexivity|contradiction].
Qed.

Lemma transformMarkdown_total md settings contextLevel escapeMarkdown :
  transformMarkdown newRegExp replaceRegExp md settings contextLevel
    escapeMarkdown =
  inr (let state :=
         fold_left (applyOrSkip newRegExp replaceRegExp)
           (markdownRegexReplacements settings)
           (textStages md settings contextLevel escapeMarkdown) in
       {| markdown := fst state; appliedTransformations := snd state |}).
Proof.
  rewrite transformMarkdown_stages.
  destruct (markdownRegexReplacements settings) as [|rule rules] eqn:R.
  - reflexivity.
  - cbn [length Nat.ltb Nat.leb]. rewrite applyReplacements_fold. reflexivity.
Qed.

End Rules.

(** C5.  The loop over the rules is the fold of the rule-or-skip over the
    list, in order, and never throws; a rule whose pattern does not
    compile, or whose substitution throws, leaves the text and the flag as
    they were, also in the middle of the list; and the function returns a
    result for every input and every list of rules. *)
Theorem malformed_rule_is_skipped :
  forall (Exn RegExpObj : Type) (newRegExp : str -> Exn + RegExpObj)
         (replaceRegExp : RegExpObj -> str -> str -> Exn + str),
    (forall rules state,
       applyReplacements newRegExp replaceRegExp rules state =
       inr (fold_left (applyOrSkip newRegExp replaceRegExp) rules state))
    /\ (forall state rule,
          ruleFails newRegExp replaceRegExp (fst state) rule ->
          applyOrSkip newRegExp replaceRegExp state rule = state)
    /\ (forall before rule after state,
          ruleFails newRegExp replaceRegExp
            (fst (fold_left (applyOrSkip newRegExp replaceRegExp) before state))
            rule ->
          applyReplacements newRegExp replaceRegExp
            (before ++ rule :: after) state =
          applyReplacements newRegExp replaceRegExp (before ++ after) state)
    /\ (forall md settings contextLevel escapeMarkdown,
          exists r,
            transformMarkdown newRegExp replaceRegExp md settings contextLevel
              escapeMarkdown = inr r).
Proof.
  intros Exn RegExpObj newRegExp replaceRegExp. split; [|split; [|split]].
  - apply applyReplacements_fold.
  - apply applyOrSkip_fails.
  - intros before rule after state F.
    rewrite !applyReplacements_fold, !fold_left_app. cbn [fold_left].
    rewrite applyOrSkip_fails by exact F. reflexivity.
  - intros md settings contextLevel escapeMarkdown. eexists.
    apply transformMarkdown_total.
Qed.

Lemma malformed_rule_is_skipped_witness :
  applyOrSkip LiteralEngine.newRegExp LiteralEngine.replaceRegExp
    (lit "a(a", false) {| pattern := lit "("; replacement := lit "x" |}
  = (lit "a(a", false)
  /\ LiteralEngine.transform (lit "a(a") settingsRules 0 false
     = inr {| markdown := lit "b(b"; appliedTransformations := true |}.
Proof.
  split.
  - apply (proj1 (proj2 (malformed_rule_is_skipped
             LiteralEngine.newRegExp LiteralEngine.replaceRegExp))).
    vm_compute. exact I.
  - vm_compute. reflexivity.
Defined.

(** ** Stage 1 never shortens a marker *)

Lemma contextualStep_raising contextLevel :
  0 < contextLevel -> raising (contextualStep contextLevel).
Proof.
  intros L d c cur R I. unfold contextualStep. destruct c.
  - specialize (I eq_refl). cbn [fst snd]. split; [lia|auto].
  - destruct (Z.leb_spec cur contextLevel); cbn [fst snd]; split;
      try lia; try discriminate; try (intros _; lia).
Qed.

Lemma maxLevelStep_raising settings : raising (maxLevelStep settings).
Proof.
  intros d c cur R I. unfold maxLevelStep.
  destruct (cascadeHeadingLevels settings).
  - destruct c.
    + specialize (I eq_refl). cbn [fst snd]. split; [lia|auto].
    + destruct (Z.ltb_spec cur (maxHeadingLevel settings)); cbn [fst snd];
        split; try lia; try discriminate; try (intros _; lia).
  - cbn [fst snd]. split; [lia|exact I].
Qed.

Lemma replaceOccs_cons step st gap m occs :
  replaceOccs (replacerOf step) st ((gap, m) :: occs) =
  let st1 :=
    {| delta := fst (snd (step (delta st, cascading st) (hashesLength m)));
       cascading := snd (snd (step (delta st, cascading st) (hashesLength m)));
       applied := negb (fst (step (delta st, cascading st) (hashesLength m))
                        =? hashesLength m) |} in
  (fst (replaceOccs (replacerOf step) st1 occs),
   gap ++ (JS.repeat HASH (fst (step (delta st, cascading st) (hashesLength m)))
           ++ [SPACE])
       ++ snd (replaceOccs (replacerOf step) st1 occs)).
Proof.
  cbn [replaceOccs]. unfold replacerOf at 1.
  destruct (step (delta st, cascading st) (hashesLength m)) as [n [d c]].
  cbn [fst snd]. destruct (replaceOccs _ _ occs). reflexivity.
Qed.

Lemma replaceOccs_length step st occs :
  raising step -> (cascading st = true -> 0 <= delta st) ->
  Forall (fun o => isMarker (snd o)) occs ->
  (length (flat_map (fun o => fst o ++ matched (snd o)) occs)
   <= length (snd (replaceOccs (replacerOf step) st occs)))%nat
  /\ (occs <> [] ->
      applied (fst (replaceOccs (replacerOf step) st occs)) = true ->
      (length (flat_map (fun o => fst o ++ matched (snd o)) occs)
       < length (snd (replaceOccs (replacerOf step) st occs)))%nat).
Proof.
  intros R. revert st. induction occs as [|[gap m] occs IH]; intros st I F.
  - split; [reflexivity|congruence].
  - inversion F as [|? ? Hm F']; subst. cbn [snd] in Hm.
    pose proof (isMarker_level Hm) as Lv.
    pose proof (R (delta st) (cascading st) _ Lv I) as [R1 R2].
    rewrite replaceOccs_cons. cbv zeta. cbn [fst snd flat_map].
    set (n := fst (step (delta st, cascading st) (hashesLength m))) in *.
    set (st1 := {| delta := _; cascading := _; applied := _ |}).
    destruct (IH st1 R2 F') as [IH1 IH2].
    assert (Lm : Z.of_nat (length (matched m)) = hashesLength m + 1).
    { destruct Hm as (h & w & -> & _). unfold hashesLength. cbn.
      rewrite length_app. simpl. lia. }
    rewrite !length_app. unfold JS.repeat. rewrite repeat_length.
    cbn [length]. split; [lia|]. intros _ A.
    destruct occs as [|o occs].
    + cbn in A. apply negb_true_iff, Z.eqb_neq in A. fold n in A.
      cbn [length flat_map replaceOccs snd]. lia.
    + specialize (IH2 ltac:(discriminate) A). lia.
Qed.

(** The new levels are at least 1: [repeat] gets no negative count. *)
Lemma runLevels_positive step d c levels :
  raising step -> (c = true -> 0 <= d) ->
  Forall (fun l => 1 <= l <= 6) levels ->
  Forall (fun n => 1 <= n) (runLevels step (d, c) levels).
Proof.
  intros R I F. revert d c I. induction F as [|l levels Hl _ IH]; intros d c I.
  - constructor.
  - cbn [runLevels]. destruct (R d c l Hl I) as [R1 R2].
    destruct (step (d, c) l) as [n [d' c']]. cbn [fst snd] in *.
    constructor; [lia|]. apply IH. exact R2.
Qed.

Lemma newLevels_positive settings contextLevel s :
  (contextualCascade settings && (0 <? contextLevel)) = true
  \/ (1 <? maxHeadingLevel settings) = true ->
  Forall (fun n => 1 <= n) (newLevels settings contextLevel (currentLevels s)).
Proof.
  intros M. unfold newLevels.
  pose proof (currentLevels_range s) as F.
  destruct (contextualCascade settings && (0 <? contextLevel)) eqn:C.
  - apply andb_prop in C as [_ C]. apply Z.ltb_lt in C.
    apply runLevels_positive;
      [apply contextualStep_raising; exact C|discriminate|exact F].
  - destruct M as [M|M]; [discriminate|]. rewrite M.
    destruct (cascadeHeadingLevels settings) eqn:K.
    + rewrite <- runLevels_maxCascade with (d := -1) by exact K.
      apply runLevels_positive;
        [apply maxLevelStep_raising|discriminate|exact F].
    + rewrite <- runLevels_clamp with (st := (-1, false)) by exact K.
      apply runLevels_positive;
        [apply maxLevelStep_raising|discriminate|exact F].
Qed.

(** Stage 1 that returns its input leaves the flag off. *)
Lemma normalizeHeadings_unaltered settings contextLevel md :
  fst (normalizeHeadings settings contextLevel md false) = md ->
  snd (normalizeHeadings settings contextLevel md false) = false.
Proof.
  unfold normalizeHeadings, replaceWith, replaceFrom.
  pose proof (scan_subject headingRegex_consuming None md) as S.
  pose proof (headingMarkers_shape md) as F. unfold headingMarkers in F.
  destruct (scan headingRegex None md) as [occs tl]. cbn [fst snd] in S, F.
  assert (G : forall step, raising step ->
    let r := replaceOccs (replacerOf step)
               {| delta := -1; cascading := false; applied := false |} occs in
    snd r ++ tl = md -> applied (fst r) = false).
  { intros step R r E.
    destruct (replaceOccs_length
                {| delta := -1; cascading := false; applied := false |}
                R ltac:(discriminate) F) as [_ L].
    fold r in L. destruct occs as [|o occs]; [reflexivity|].
    destruct (applied (fst r)) eqn:A; [|reflexivity].
    specialize (L ltac:(discriminate) eq_refl).
    rewrite <- S in E. apply app_inv_tail in E.
    rewrite E in L. lia. }
  destruct (contextualCascade settings && (0 <? contextLevel)) eqn:C.
  - apply andb_prop in C as [_ C]. apply Z.ltb_lt in C.
    rewrite replaceOccs_ext with (g := replacerOf (contextualStep contextLevel))
      by apply contextualReplacer_step.
    specialize (G _ (contextualStep_raising C)).
    destruct (replaceOccs _ _ occs) as [st out]. exact G.
  - destruct (1 <? maxHeadingLevel settings); [|reflexivity].
    rewrite replaceOccs_ext with (g := replacerOf (maxLevelStep settings))
      by apply maxLevelReplacer_step.
    specialize (G _ (maxLevelStep_raising settings)).
    destruct (replaceOccs _ _ occs) as [st out]. exact G.
Qed.

(** ** The line endings *)

Lemma literal_crlf prev s :
  literal [CR; LF] prev s =
  match s with
  | c :: y :: _ =>
      if (CR =? c)%N && (LF =? y)%N then Some (plain [CR; LF]) else None
  | _ => None
  end.
Proof.
  unfold literal. destruct s as [|c [|y s]]; cbn [stripPrefix].
  - reflexivity.
  - destruct (CR =? c)%N; reflexivity.
  - destruct (CR =? c)%N; [|reflexivity]. destruct (LF =? y)%N; reflexivity.
Qed.

Lemma crlf_match prev s :
  crlfFrom prev (CR :: LF :: s) = LF :: crlfFrom (Some LF) s.
Proof.
  change (CR :: LF :: s) with ([CR] ++ LF :: s).
  rewrite replaceAt_match with (m := plain [CR; LF]); reflexivity.
Qed.

Lemma crlf_nil prev : crlfFrom prev [] = [].
Proof. apply replaceAt_nil. reflexivity. Qed.

(** The pass does not look at the character before the position. *)
Lemma crlf_prev s : forall prev prev', crlfFrom prev s = crlfFrom prev' s.
Proof.
  remember (length s) as n eqn:Hn. revert s Hn.
  induction n as [n IH] using lt_wf_ind. intros s Hn prev prev'.
  destruct s as [|c s]; [rewrite !crlf_nil; reflexivity|].
  destruct (literal [CR; LF] prev (c :: s)) as [m|] eqn:E.
  - rewrite literal_crlf in E. destruct s as [|y s]; [discriminate|].
    destruct ((CR =? c)%N && (LF =? y)%N) eqn:B; [|discriminate].
    apply andb_prop in B as [B1 B2]. apply N.eqb_eq in B1, B2. subst c y.
    rewrite !crlf_match. reflexivity.
  - rewrite !replaceAt_nomatch; [reflexivity| |exact E].
    rewrite literal_crlf in *. exact E.
Qed.

(** Every CR LF pair of the text becomes a line feed. *)
Lemma crlf_pair a : forall prev b,
  crlfFrom prev (a ++ CR :: LF :: b)
  = crlfFrom prev a ++ LF :: crlfFrom (Some LF) b.
Proof.
  remember (length a) as n eqn:Hn. revert a Hn.
  induction n as [n IH] using lt_wf_ind. intros a Hn prev b.
  destruct a as [|c a].
  - cbn [app]. rewrite crlf_match, crlf_nil. reflexivity.
  - cbn [app].
    destruct (literal [CR; LF] prev (c :: a ++ CR :: LF :: b)) as [m|] eqn:E.
    + rewrite literal_crlf in E. destruct a as [|y a].
      * cbn [app] in E. destruct (CR =? c)%N; discriminate.
      * cbn [app] in E.
        destruct ((CR =? c)%N && (LF =? y)%N) eqn:B; [|discriminate].
        apply andb_prop in B as [B1 B2]. apply N.eqb_eq in B1, B2. subst c y.
        cbn [app]. rewrite !crlf_match.
        rewrite (IH (length a)) by (subst n; simpl; lia || reflexivity).
        reflexivity.
    + rewrite replaceAt_nomatch by exact E.
      rewrite (IH (length a)) by (subst n; simpl; lia || reflexivity).
      rewrite replaceAt_nomatch with (s := a); [reflexivity|].
      rewrite literal_crlf in *. destruct a as [|y a]; [reflexivity|].
      exact E.
Qed.

Lemma crlf_length s0 : forall prev, (length (crlfFrom prev s0) <= length s0)%nat.
Proof.
  assert (G : forall n s, (length s <= n)%nat ->
              forall prev, (length (crlfFrom prev s) <= length s)%nat).
  { clear s0. induction n as [|n IH]; intros s Hn prev.
    - destruct s; [|simpl in Hn; lia]. rewrite crlf_nil. reflexivity.
    - destruct s as [|c s]; [rewrite crlf_nil; reflexivity|].
      destruct (literal [CR; LF] prev (c :: s)) as [m|] eqn:E.
      + rewrite literal_crlf in E. destruct s as [|y s]; [discriminate|].
        destruct ((CR =? c)%N && (LF =? y)%N) eqn:B; [|discriminate].
        apply andb_prop in B as [B1 B2]. apply N.eqb_eq in B1, B2. subst c y.
        rewrite crlf_match. cbn [length] in *.
        specialize (IH s ltac:(lia) (Some LF)). lia.
      + rewrite replaceAt_nomatch by exact E. cbn [length] in *.
        specialize (IH s ltac:(lia) (Some c)). lia. }
  intros prev. apply (G (length s0)). reflexivity.
Qed.

Lemma normalizeLineEndings_pair a b :
  normalizeLineEndings (a ++ CR :: LF :: b)
  = normalizeLineEndings a ++ LF :: normalizeLineEndings b.
Proof.
  unfold normalizeLineEndings, replaceLiteral, replace.
  rewrite crlf_pair. rewrite (crlf_prev b (Some LF) None). reflexivity.
Qed.

Lemma normalizeLineEndings_shortens a b :
  normalizeLineEndings (a ++ CR :: LF :: b) <> a ++ CR :: LF :: b.
Proof.
  rewrite normalizeLineEndings_pair. intros E.
  apply (f_equal (@length _)) in E. rewrite !length_app in E. cbn [length] in E.
  pose proof (crlf_length a None) as La. pose proof (crlf_length b None) as Lb.
  unfold normalizeLineEndings, replaceLiteral, replace in E. lia.
Qed.

(** ** The flag and the line endings *)

Section Silent.

Context {Exn RegExpObj : Type}.
Variable newRegExp : str -> Exn + RegExpObj.
Variable replaceRegExp : RegExpObj -> str -> str -> Exn + str.

Lemma rules_unaltered rules n :
  Forall (fun rule => fst (applyOrSkip newRegExp replaceRegExp (n, false) rule) = n)
         rules ->
  fold_left (applyOrSkip newRegExp replaceRegExp) rules (n, false) = (n, false).
Proof.
  induction 1 as [|rule rules H _ IH]; [reflexivity|].
  cbn [fold_left].
  assert (E : applyOrSkip newRegExp replaceRegExp (n, false) rule = (n, false)).
  { revert H. unfold applyOrSkip. cbn [fst snd].
    destruct (newRegExp (pattern rule)) as [e|regex]; [reflexivity|].
    destruct (replaceRegExp regex n _) as [e|md]; [reflexivity|].
    cbn [fst]. intros ->. rewrite neqb_refl. reflexivity. }
  rewrite E. exact IH.
Qed.

Lemma textStages_silent md settings contextLevel escapeMarkdown :
  (convertToSingleSpaced settings || removeEmptyLines settings) = true ->
  fst (if negb escapeMarkdown
       then normalizeHeadings settings contextLevel md false
       else escapeStage md) = md ->
  (removeEmptyLines settings = false ->
   replace blankRun (fun _ => [LF; LF]) (normalizeLineEndings md)
   = normalizeLineEndings md) ->
  (removeEmptyLines settings = true ->
   join LF (filterLines (negb (stripLineBreaks settings))
              (split LF (normalizeLineEndings md)))
   = normalizeLineEndings md) ->
  textStages md settings contextLevel escapeMarkdown
  = (normalizeLineEndings md, false).
Proof.
  intros G H1 H3 H4. unfold textStages.
  assert (F : snd (if negb escapeMarkdown
                   then normalizeHeadings settings contextLevel md false
                   else escapeStage md) = false).
  { destruct escapeMarkdown; cbn [negb] in *.
    - unfold escapeStage in *. cbn [fst snd] in *. rewrite H1.
      apply neqb_refl.
    - apply normalizeHeadings_unaltered. exact H1. }
  destruct (if negb escapeMarkdown then _ else _) as [md1 a1].
  cbn [fst snd] in H1, F. subst md1 a1.
  destruct (removeEmptyLines settings) eqn:R.
  - rewrite andb_false_r. unfold removeEmptyLinesStage.
    rewrite H4 by reflexivity. rewrite neqb_refl. reflexivity.
  - rewrite orb_false_r in G. rewrite G. cbn [andb negb].
    unfold collapseBlankRuns. rewrite H3 by reflexivity.
    rewrite neqb_refl. reflexivity.
Qed.

End Silent.

(** C10.  The line-ending pass of stages 3 and 4 turns every CR LF pair of
    its input into a line feed.  When one of the two stages runs and no
    stage alters the text otherwise (stage 1 or 2 returns its input, the
    collapse or the filter returns the text with the line endings
    normalised, and so does every rule), the function returns the text
    with the line endings normalised and the flag off; and that text is
    not the input when the input holds a CR LF pair. *)
Theorem crlf_normalisation_is_silent :
  forall (Exn RegExpObj : Type) (newRegExp : str -> Exn + RegExpObj)
         (replaceRegExp : RegExpObj -> str -> str -> Exn + str),
    (forall a b,
       normalizeLineEndings (a ++ CR :: LF :: b)
       = normalizeLineEndings a ++ LF :: normalizeLineEndings b)
    /\ (forall md settings contextLevel escapeMarkdown,
          (convertToSingleSpaced settings || removeEmptyLines settings) = true ->
          fst (if negb escapeMarkdown
               then normalizeHeadings settings contextLevel md false
               else escapeStage md) = md ->
          (removeEmptyLines settings = false ->
           replace blankRun (fun _ => [LF; LF]) (normalizeLineEndings md)
           = normalizeLineEndings md) ->
          (removeEmptyLines settings = true ->
           join LF (filterLines (negb (stripLineBreaks settings))
                      (split LF (normalizeLineEndings md)))
           = normalizeLineEndings md) ->
          Forall (fun rule =>
                    fst (applyOrSkip newRegExp replaceRegExp
                           (normalizeLineEndings md, false) rule)
                    = normalizeLineEndings md)
                 (markdownRegexReplacements settings) ->
          transformMarkdown newRegExp replaceRegExp md settings contextLevel
            escapeMarkdown
          = inr {| markdown := normalizeLineEndings md;
                   appliedTransformations := false |}
          /\ ((exists a b, md = a ++ CR :: LF :: b) ->
              normalizeLineEndings md <> md)).
Proof.
  intros Exn RegExpObj newRegExp replaceRegExp. split.
  - apply normalizeLineEndings_pair.
  - intros md settings contextLevel escapeMarkdown G H1 H3 H4 H5. split.
    + rewrite transformMarkdown_total.
      rewrite textStages_silent by assumption.
      rewrite rules_unaltered by exact H5. reflexivity.
    + intros (a & b & ->). apply normalizeLineEndings_shortens.
Qed.

Lemma crlf_normalisation_is_silent_witness :
  LiteralEngine.transform (lit "a" ++ CR :: LF :: lit "b") settingsCollapse 0 false
  = inr {| markdown := lit "a" ++ LF :: lit "b";
           appliedTransformations := false |}.
Proof.
  apply (proj2 (crlf_normalisation_is_silent
                  LiteralEngine.newRegExp LiteralEngine.replaceRegExp)
           (lit "a" ++ CR :: LF :: lit "b") settingsCollapse 0 false).
  - reflexivity.
  - vm_compute. reflexivity.
  - intros _. vm_compute. reflexivity.
  - intros H. discriminate H.
  - constructor.
Defined.

(** ** Stage 2: the escaping *)

(** A pass copies a text on which its regex matches nowhere. *)
Lemma replaceAt_closed re f (Q : option char -> str -> Prop) :
  (forall prev c t, Q prev (c :: t) -> Q (Some c) t) ->
  (forall prev s, Q prev s -> re prev s = None) ->
  forall s prev, Q prev s -> replaceAt re f prev s = s.
Proof.
  intros Hstep Hnone. induction s as [|c s IH]; intros prev H.
  - apply replaceAt_nil. apply Hnone. exact H.
  - rewrite replaceAt_nomatch by (apply Hnone; exact H).
    rewrite IH by (eapply Hstep; exact H). reflexivity.
Qed.



Lemma afterIndent_anchored body : anchored (afterIndent body).
Proof. intros prev s H. unfold afterIndent. rewrite H. reflexivity. Qed.


Lemma opener_spec c :
  opener c = true ->
  isWhiteSpace c = false /\ (c =? HASH)%N = false /\ (c =? DASH)%N = false
  /\ (c =? PLUS)%N = false /\ (c =? STAR)%N = false
  /\ (c =? UNDERSCORE)%N = false /\ isDigit c = false /\ (c =? GT)%N = false.
Proof.
  unfold opener. rewrite !andb_true_iff, !negb_true_iff. tauto.
Qed.






Lemma alternatives_single c x t :
  (c =? x)%N = false -> alternatives [[c]] (x :: t) = None.
Proof. intros H. cbn [alternatives stripPrefix]. rewrite H. reflexivity. Qed.







(** The pass of the backticks. *)
Lemma escBacktick_other prev c t :
  (c =? BACKTICK)%N = false -> escBacktick prev (c :: t) = None.
Proof.
  intros H. unfold escBacktick. cbn [span]. rewrite N.eqb_sym, H. reflexivity.
Qed.














(** The flag misses a change of stage 1, whose replacer assigns it at every
    match: of two headings under a maximum of 2 without cascading the
    first is rewritten, the second is not, and the function returns the
    changed text with the flag off. *)
Lemma flag_misses_heading_change :
  forall (Exn RegExpObj : Type) (newRegExp : str -> Exn + RegExpObj)
         (replaceRegExp : RegExpObj -> str -> str -> Exn + str),
    transformMarkdown newRegExp replaceRegExp
      (lit "# a" ++ LF :: lit "### b") settingsClamp 0 false
    = inr {| markdown := lit "## a" ++ LF :: lit "### b";
             appliedTransformations := false |}.
Proof.
  intros Exn RegExpObj newRegExp replaceRegExp.
  rewrite transformMarkdown_no_rules by reflexivity.
  vm_compute. reflexivity.
Qed.

(** ** What the flag reports *)

Lemma crlf_same_length s0 :
  forall prev, length (crlfFrom prev s0) = length s0 -> crlfFrom prev s0 = s0.
Proof.
  assert (G : forall n s, (length s <= n)%nat ->
              forall prev, length (crlfFrom prev s) = length s ->
                           crlfFrom prev s = s).
  { clear s0. induction n as [|n IH]; intros s Hn prev.
    - destruct s; [|simpl in Hn; lia]. intros _. apply crlf_nil.
    - destruct s as [|c s]; [intros _; apply crlf_nil|].
      destruct (literal [CR; LF] prev (c :: s)) as [m|] eqn:E.
      + rewrite literal_crlf in E. destruct s as [|y s]; [discriminate|].
        destruct ((CR =? c)%N && (LF =? y)%N) eqn:B; [|discriminate].
        apply andb_prop in B as [B1 B2]. apply N.eqb_eq in B1, B2. subst c y.
        rewrite crlf_match. cbn [length]. intros L.
        pose proof (crlf_length s (Some LF)). lia.
      + rewrite replaceAt_nomatch by exact E. cbn [length] in *. intros L.
        rewrite IH; [reflexivity|lia|lia]. }
  intros prev. apply (G (length s0)). reflexivity.
Qed.

Lemma collapse_length prev s :
  (length (replaceAt blankRun (fun _ => [LF; LF]) prev s) <= length s)%nat.
Proof.
  apply (replaceAt_induction blankRun_consuming) with
    (P := fun _ s out => (length out <= length s)%nat); clear prev s.
  - reflexivity.
  - intros prev c s _ IH. cbn [length]. lia.
  - intros prev m t w rest Hre Hm IH.
    apply blankRun_Some in Hre as [-> L]. cbn [matched plain] in Hm.
    unfold leadingLF in L. rewrite Hm in L.
    rewrite !length_app in *. cbn [length] in *. lia.
Qed.

(** A collapse that returns its input had no line ending to normalise. *)
Lemma collapseBlankRuns_unaltered md a :
  fst (collapseBlankRuns md a) = md ->
  normalizeLineEndings md = md
  /\ replace blankRun (fun _ => [LF; LF]) md = md.
Proof.
  unfold collapseBlankRuns. cbn [fst]. intros E.
  assert (N : normalizeLineEndings md = md).
  { unfold normalizeLineEndings, replaceLiteral, replace.
    apply crlf_same_length.
    pose proof (crlf_length md None) as L1.
    pose proof (collapse_length None (normalizeLineEndings md)) as L2.
    unfold replace in E. rewrite E in L2.
    unfold normalizeLineEndings, replaceLiteral, replace in L2. lia. }
  rewrite N in E. auto.
Qed.

Lemma split_cons s : exists l ls, split LF s = l :: ls.
Proof.
  induction s as [|c s (l & ls & IH)]; cbn [split]; [eauto|].
  destruct (c =? LF)%N; [eauto|]. rewrite IH. eauto.
Qed.

Lemma join_split s : join LF (split LF s) = s.
Proof.
  induction s as [|c s IH]; [reflexivity|].
  cbn [split]. destruct (split_cons s) as (l & ls & E). rewrite E in *.
  destruct (N.eqb_spec c LF) as [->|Hc].
  - cbn [join app]. cbn [join] in IH. rewrite IH. reflexivity.
  - cbn [join] in *. destruct ls; cbn [app]; rewrite IH; reflexivity.
Qed.

Lemma join_length l ls :
  length (join LF (l :: ls)) =
  (length l + match ls with [] => 0 | _ :: _ => 1 + length (join LF ls) end)%nat.
Proof.
  cbn [join]. destruct ls; [lia|]. rewrite length_app. reflexivity.
Qed.

Lemma thinned_join ls ms :
  thinned ls ms -> (length (join LF ms) <= length (join LF ls))%nat.
Proof.
  induction 1 as [|l ls ms H IH|l m ls ms Hm H IH].
  - reflexivity.
  - rewrite join_length. destruct ls; [inversion H; subst; simpl; lia|]. lia.
  - rewrite !join_length. destruct ms as [|m' ms]; [lia|].
    destruct ls; [inversion H|]. lia.
Qed.

Lemma filterLine_cases p lines i :
  filterLine p lines i = []
  \/ exists l, nth_error lines i = Some l
       /\ (filterLine p lines i = [l] \/ filterLine p lines i = [[]]).
Proof.
  unfold filterLine. destruct (nth_error lines i) as [l|]; [|auto].
  repeat match goal with
         | |- context [if ?b then _ else _] => destruct b
         end;
    try (left; reflexivity); right; exists l; auto.
Qed.

Lemma skipn_cons_nth (lines : list str) k l rest :
  skipn k lines = l :: rest ->
  nth_error lines k = Some l /\ skipn (S k) lines = rest.
Proof.
  revert lines. induction k as [|k IH]; intros lines E.
  - destruct lines; [discriminate|]. injection E as -> ->. auto.
  - destruct lines as [|x lines]; [discriminate|]. apply IH. exact E.
Qed.

Lemma filterLines_thinned p lines : thinned lines (filterLines p lines).
Proof.
  unfold filterLines.
  assert (G : forall rest k, skipn k lines = rest ->
    thinned rest (flat_map (filterLine p lines) (seq k (length rest)))).
  { induction rest as [|l rest IH]; intros k E.
    - constructor.
    - apply skipn_cons_nth in E as [N E]. cbn [length seq flat_map].
      specialize (IH (S k) E).
      destruct (filterLine_cases p lines k) as [F|(l' & N' & [F|F])];
        rewrite F; cbn [app].
      + constructor. exact IH.
      + rewrite N in N'. injection N' as <-. constructor; [lia|exact IH].
      + constructor; [simpl; lia|exact IH]. }
  apply (G lines 0%nat). reflexivity.
Qed.

(** A filter that returns its input had no line ending to normalise. *)
Lemma removeEmptyLinesStage_unaltered p md a :
  fst (removeEmptyLinesStage p md a) = md ->
  normalizeLineEndings md = md
  /\ join LF (filterLines p (split LF md)) = md.
Proof.
  unfold removeEmptyLinesStage. cbn [fst]. intros E.
  assert (N : normalizeLineEndings md = md).
  { unfold normalizeLineEndings, replaceLiteral, replace.
    apply crlf_same_length.
    pose proof (crlf_length md None) as L1.
    pose proof (thinned_join (filterLines_thinned p
                  (split LF (normalizeLineEndings md)))) as L2.
    rewrite E, join_split in L2.
    unfold normalizeLineEndings, replaceLiteral, replace in L2. lia. }
  rewrite N in E. auto.
Qed.

(** Once the flag is on, the later stages leave it on. *)
Lemma collapseBlankRuns_keeps md : snd (collapseBlankRuns md true) = true.
Proof. unfold collapseBlankRuns. cbn [snd]. destruct (neqb _ _); reflexivity. Qed.

Section Flag.

Context {Exn RegExpObj : Type}.
Variable newRegExp : str -> Exn + RegExpObj.
Variable replaceRegExp : RegExpObj -> str -> str -> Exn + str.

Lemma applyOrSkip_keeps md rule :
  snd (applyOrSkip newRegExp replaceRegExp (md, true) rule) = true.
Proof.
  unfold applyOrSkip. destruct (newRegExp (pattern rule)); [reflexivity|].
  cbn [fst snd]. destruct (replaceRegExp _ md _); [reflexivity|].
  cbn [snd]. destruct (neqb md _); reflexivity.
Qed.

Lemma rules_keep rules state :
  snd state = true ->
  snd (fold_left (applyOrSkip newRegExp replaceRegExp) rules state) = true.
Proof.
  revert state. induction rules as [|rule rules IH]; intros [md a] H.
  - exact H.
  - cbn [fold_left]. apply IH. cbn [snd] in H. subst a.
    apply applyOrSkip_keeps.
Qed.

Lemma applyOrSkip_alters state rule :
  fst (applyOrSkip newRegExp replaceRegExp state rule) <> fst state ->
  snd (applyOrSkip newRegExp replaceRegExp state rule) = true.
Proof.
  unfold applyOrSkip. destruct (newRegExp (pattern rule)); [congruence|].
  destruct (replaceRegExp _ (fst state) _) as [e|md]; [congruence|].
  cbn [fst snd]. intros H. rewrite neqb_true; [reflexivity|congruence].
Qed.

(** The flag of the result, by the flag before the rules. *)
Lemma transformMarkdown_flag md settings contextLevel escapeMarkdown :
  snd (textStages md settings contextLevel escapeMarkdown) = true ->
  exists r,
    transformMarkdown newRegExp replaceRegExp md settings contextLevel
      escapeMarkdown = inr r
    /\ appliedTransformations r = true.
Proof.
  intros H. eexists. split; [apply transformMarkdown_total|].
  cbn [appliedTransformations]. apply rules_keep. exact H.
Qed.

End Flag.

Lemma textStages_firstStage md settings contextLevel escapeMarkdown :
  textStages md settings contextLevel escapeMarkdown =
  let first := firstStage md settings contextLevel escapeMarkdown in
  let second :=
    if convertToSingleSpaced settings && negb (removeEmptyLines settings)
    then collapseBlankRuns (fst first) (snd first)
    else first in
  if removeEmptyLines settings
  then removeEmptyLinesStage (negb (stripLineBreaks settings))
         (fst second) (snd second)
  else second.
Proof.
  unfold textStages, firstStage.
  destruct (if negb escapeMarkdown then _ else _) as [md1 a1]. cbv zeta.
  cbn [fst snd].
  destruct (convertToSingleSpaced settings && negb (removeEmptyLines settings)).
  - destruct (collapseBlankRuns md1 a1). reflexivity.
  - reflexivity.
Qed.

Lemma firstStage_unaltered md settings contextLevel escapeMarkdown :
  fst (firstStage md settings contextLevel escapeMarkdown) = md ->
  firstStage md settings contextLevel escapeMarkdown = (md, false).
Proof.
  intros H. rewrite (surjective_pairing (firstStage _ _ _ _)), H. f_equal.
  unfold firstStage in *. destruct escapeMarkdown; cbn [negb] in *.
  - unfold escapeStage in *. cbn [fst snd] in *. rewrite H. apply neqb_refl.
  - apply normalizeHeadings_unaltered. exact H.
Qed.

Lemma textStages_unaltered md settings contextLevel escapeMarkdown :
  fst (firstStage md settings contextLevel escapeMarkdown) = md ->
  (convertToSingleSpaced settings && negb (removeEmptyLines settings) = true ->
   fst (collapseBlankRuns md false) = md) ->
  (removeEmptyLines settings = true ->
   fst (removeEmptyLinesStage (negb (stripLineBreaks settings)) md false) = md) ->
  textStages md settings contextLevel escapeMarkdown = (md, false).
Proof.
  intros H1 H3 H4. rewrite textStages_firstStage.
  rewrite firstStage_unaltered by exact H1. cbv zeta. cbn [fst snd].
  destruct (removeEmptyLines settings) eqn:R.
  - rewrite andb_false_r. cbn [fst snd].
    destruct (@removeEmptyLinesStage_unaltered _ _ _ (H4 eq_refl)) as [N F].
    unfold removeEmptyLinesStage. rewrite N, F, neqb_refl. reflexivity.
  - rewrite andb_true_r in *.
    destruct (convertToSingleSpaced settings); [|reflexivity].
    destruct (@collapseBlankRuns_unaltered _ _ (H3 eq_refl)) as [N F].
    unfold collapseBlankRuns. rewrite N, F, neqb_refl. reflexivity.
Qed.

(* The texts below hold whole chains of passes: no implicit arguments are
   computed from them. *)
Unset Implicit Arguments.

Lemma textStages_flag md settings contextLevel escapeMarkdown :
  (escapeMarkdown = true /\ escapeChain md <> md)
  \/ (convertToSingleSpaced settings && negb (removeEmptyLines settings) = true
      /\ replace blankRun (fun _ => [LF; LF])
           (normalizeLineEndings
              (fst (firstStage md settings contextLevel escapeMarkdown)))
         <> normalizeLineEndings
              (fst (firstStage md settings contextLevel escapeMarkdown)))
  \/ (removeEmptyLines settings = true
      /\ join LF (filterLines (negb (stripLineBreaks settings))
                    (split LF
                       (normalizeLineEndings
                          (fst (firstStage md settings contextLevel
                                  escapeMarkdown)))))
         <> normalizeLineEndings
              (fst (firstStage md settings contextLevel escapeMarkdown))) ->
  snd (textStages md settings contextLevel escapeMarkdown) = true.
Proof.
  intros H. rewrite textStages_firstStage. cbv zeta.
  destruct H as [[E H]|[[C H]|[R H]]].
  - assert (F : snd (firstStage md settings contextLevel escapeMarkdown) = true).
    { unfold firstStage. rewrite E. cbn [negb]. unfold escapeStage.
      cbn [snd]. apply neqb_true. congruence. }
    rewrite F.
    destruct (convertToSingleSpaced settings && negb (removeEmptyLines settings)).
    + rewrite collapseBlankRuns_keeps.
      destruct (removeEmptyLines settings); [reflexivity|].
      apply collapseBlankRuns_keeps.
    + rewrite F. destruct (removeEmptyLines settings); [reflexivity|exact F].
  - rewrite C. apply andb_prop in C as [_ C]. apply negb_true_iff in C.
    rewrite C. unfold collapseBlankRuns. cbn [snd].
    rewrite neqb_true; [reflexivity|]. intros E. apply H. symmetry. exact E.
  - rewrite R, andb_false_r. unfold removeEmptyLinesStage. cbn [snd].
    rewrite neqb_true; [apply orb_true_r|].
    intros E. apply H. symmetry. exact E.
Qed.

(** C3, as the code has it.  When no stage alters the text (stage 1 or 2
    returns its input, so does the stage 3 or 4 that runs, and so does
    every rule) the function returns the input with the flag off.  The
    flag is on in the result when the escaping alters the text, when the
    collapse or the filter alters the text it has after the line endings
    are normalised, or when a rule alters the text, whatever the later
    stages and rules return.  The normalisation of the line endings alone
    does not set it. *)
Theorem changed_flag_reports :
  forall (Exn RegExpObj : Type) (newRegExp : str -> Exn + RegExpObj)
         (replaceRegExp : RegExpObj -> str -> str -> Exn + str)
         md settings contextLevel escapeMarkdown,
    (fst (firstStage md settings contextLevel escapeMarkdown) = md ->
     (convertToSingleSpaced settings && negb (removeEmptyLines settings) = true ->
      fst (collapseBlankRuns md false) = md) ->
     (removeEmptyLines settings = true ->
      fst (removeEmptyLinesStage (negb (stripLineBreaks settings)) md false)
      = md) ->
     Forall (fun rule =>
               fst (applyOrSkip newRegExp replaceRegExp (md, false) rule) = md)
            (markdownRegexReplacements settings) ->
     transformMarkdown newRegExp replaceRegExp md settings contextLevel
       escapeMarkdown
     = inr {| markdown := md; appliedTransformations := false |})
    /\ ((escapeMarkdown = true /\ escapeChain md <> md)
        \/ (convertToSingleSpaced settings && negb (removeEmptyLines settings)
            = true
            /\ replace blankRun (fun _ => [LF; LF])
                 (normalizeLineEndings
                    (fst (firstStage md settings contextLevel escapeMarkdown)))
               <> normalizeLineEndings
                    (fst (firstStage md settings contextLevel escapeMarkdown)))
        \/ (removeEmptyLines settings = true
            /\ join LF (filterLines (negb (stripLineBreaks settings))
                          (split LF
                             (normalizeLineEndings
                                (fst (firstStage md settings contextLevel
                                        escapeMarkdown)))))
               <> normalizeLineEndings
                    (fst (firstStage md settings contextLevel escapeMarkdown))) ->
        exists r,
          transformMarkdown newRegExp replaceRegExp md settings contextLevel
            escapeMarkdown = inr r
          /\ appliedTransformations r = true)
    /\ (forall before rule after,
          markdownRegexReplacements settings = before ++ rule :: after ->
          fst (applyOrSkip newRegExp replaceRegExp
                 (stateBefore newRegExp replaceRegExp before
                    (textStages md settings contextLevel escapeMarkdown))
                 rule)
          <> fst (stateBefore newRegExp replaceRegExp before
                    (textStages md settings contextLevel escapeMarkdown)) ->
          exists r,
            transformMarkdown newRegExp replaceRegExp md settings contextLevel
              escapeMarkdown = inr r
            /\ appliedTransformations r = true).
Proof.
  intros Exn RegExpObj newRegExp replaceRegExp md settings contextLevel
    escapeMarkdown. split; [|split].
  - intros H1 H3 H4 H5. rewrite transformMarkdown_total.
    rewrite textStages_unaltered by assumption.
    rewrite rules_unaltered by exact H5. reflexivity.
  - intros H. apply transformMarkdown_flag.
    apply (textStages_flag md settings contextLevel escapeMarkdown H).
  - intros before rule after R H. eexists.
    split; [apply transformMarkdown_total|]. cbn [appliedTransformations].
    rewrite R, fold_left_app. cbn [fold_left]. apply rules_keep.
    apply applyOrSkip_alters. exact H.
Qed.

Lemma changed_flag_reports_witness :
  LiteralEngine.transform (lit "a" ++ LF :: lit "b") settingsCollapse 0 false
  = inr {| markdown := lit "a" ++ LF :: lit "b";
           appliedTransformations := false |}
  /\ exists r,
       LiteralEngine.transform (lit "a" ++ LF :: LF :: LF :: lit "b")
         settingsCollapse 0 false = inr r
       /\ appliedTransformations r = true.
Proof.
  split.
  - apply (proj1 (changed_flag_reports _ _
             LiteralEngine.newRegExp LiteralEngine.replaceRegExp
             (lit "a" ++ LF :: lit "b") settingsCollapse 0 false)).
    + vm_compute. reflexivity.
    + intros _. vm_compute. reflexivity.
    + intros H. discriminate H.
    + constructor.
  - apply (proj1 (proj2 (changed_flag_reports _ _
             LiteralEngine.newRegExp LiteralEngine.replaceRegExp
             (lit "a" ++ LF :: LF :: LF :: lit "b") settingsCollapse 0 false))).
    right. left. split; [reflexivity|]. vm_compute. discriminate.
Defined.

(** C3 as stated fails on a text with a CR LF line ending: stage 3
    returns another text, and the flag is off. *)
Lemma changed_flag_reports_counterexample :
  fst (collapseBlankRuns (lit "a" ++ CR :: LF :: lit "b") false)
  <> lit "a" ++ CR :: LF :: lit "b"
  /\ LiteralEngine.transform (lit "a" ++ CR :: LF :: lit "b")
       settingsCollapse 0 false
     = inr {| markdown := lit "a" ++ LF :: lit "b";
              appliedTransformations := false |}.
Proof. split; [vm_compute; discriminate|vm_compute; reflexivity]. Qed.

(** * Further properties of the stages *)

(** ** Prefixes and literal patterns *)

Lemma stripPrefix_Some pat s r : stripPrefix pat s = Some r -> s = pat ++ r.
Proof.
  revert s. induction pat as [|x pat IH]; intros s H.
  - injection H as ->. reflexivity.
  - destruct s as [|y s]; [discriminate|]. cbn [stripPrefix] in H.
    destruct (N.eqb_spec x y) as [->|]; [|discriminate].
    rewrite (IH s H). reflexivity.
Qed.

Lemma stripPrefix_app pat r : stripPrefix pat (pat ++ r) = Some r.
Proof.
  induction pat as [|x pat IH]; [reflexivity|].
  cbn [app stripPrefix]. rewrite N.eqb_refl. exact IH.
Qed.

Lemma literal_Some pat prev s m :
  literal pat prev s = Some m ->
  m = plain pat /\ exists r, s = pat ++ r.
Proof.
  unfold literal. destruct (stripPrefix pat s) as [r|] eqn:E; [|discriminate].
  intros [= <-]. split; [reflexivity|]. exists r. apply stripPrefix_Some, E.
Qed.

Lemma literal_consuming pat : pat <> [] -> consuming (literal pat).
Proof.
  intros Hp prev s m H. apply literal_Some in H as [-> [r ->]].
  destruct (exists_last Hp) as (t & w & ->).
  exists t, w, r. split; [reflexivity|]. rewrite <- app_assoc. reflexivity.
Qed.

(** ** Stage 1: texts without marker, bounds, the white space of a marker *)

(** A pass finds nothing in a text on whose suffixes the regex fails. *)
Lemma scan_closed re (Q : option char -> str -> Prop) :
  (forall prev c t, Q prev (c :: t) -> Q (Some c) t) ->
  (forall prev s, Q prev s -> re prev s = None) ->
  forall s prev, Q prev s -> scan re prev s = ([], s).
Proof.
  intros Hstep Hnone. induction s as [|c s IH]; intros prev HQ.
  - apply scan_nil. apply Hnone. exact HQ.
  - rewrite scan_nomatch by (apply Hnone; exact HQ).
    rewrite (IH (Some c)) by (eapply Hstep; exact HQ). reflexivity.
Qed.

Lemma headingMarker_head c t :
  (HASH =? c)%N = false -> headingMarker (c :: t) = None.
Proof. intros H. unfold headingMarker. cbn [span]. rewrite H. reflexivity. Qed.

Lemma scan_hashless prev s :
  forallb (fun c => negb (HASH =? c)%N) s = true ->
  scan headingRegex prev s = ([], s).
Proof.
  intros H.
  apply scan_closed with
    (Q := fun _ s => forallb (fun c => negb (HASH =? c)%N) s = true).
  - intros _ c t Hc. simpl in Hc. apply andb_prop in Hc as [_ Hc]. exact Hc.
  - intros p t Ht. unfold headingRegex. destruct (atLineStart p); [|reflexivity].
    destruct t as [|c t]; [reflexivity|]. simpl in Ht.
    apply andb_prop in Ht as [Hc _]. apply negb_true_iff in Hc.
    apply headingMarker_head. exact Hc.
  - exact H.
Qed.

(** X1.  On a text in which the heading regex finds no marker, stage 1
    returns the text and the flag it was given, in each of its modes.  A
    text without a hash holds no marker, and neither does a text of one
    line that does not start with a hash. *)
Theorem headings_absent_is_noop settings contextLevel s a :
  (currentLevels s = [] ->
   normalizeHeadings settings contextLevel s a = (s, a))
  /\ (forallb (fun c => negb (HASH =? c)%N) s = true -> currentLevels s = [])
  /\ (match s with [] => True | c :: _ => (HASH =? c)%N = false end ->
      noTerminator s = true -> currentLevels s = []).
Proof.
  split; [|split].
  - intros H.
    pose proof (scan_subject headingRegex_consuming None s) as P.
    unfold currentLevels, headingMarkers, levelsOf in H.
    unfold normalizeHeadings, replaceWith, replaceFrom.
    destruct (scan headingRegex None s) as [occs tl]. cbn [fst snd] in *.
    destruct occs; [|discriminate]. simpl in P. subst tl.
    destruct (contextualCascade settings && (0 <? contextLevel));
      [reflexivity|].
    destruct (1 <? maxHeadingLevel settings); reflexivity.
  - intros H. unfold currentLevels, headingMarkers.
    rewrite scan_hashless by exact H. reflexivity.
  - intros H T. unfold currentLevels, headingMarkers.
    destruct s as [|c t]; [reflexivity|].
    rewrite scan_nomatch
      by (unfold headingRegex; cbn [atLineStart];
          apply headingMarker_head, H).
    cbn [noTerminator forallb] in T. apply andb_prop in T as [Tc T].
    apply negb_true_iff in Tc.
    rewrite scan_closed with
      (Q := fun prev s => atLineStart prev = false /\ noTerminator s = true).
    + reflexivity.
    + intros p d r [_ N]. cbn [noTerminator forallb] in N.
      apply andb_prop in N as [Nd N]. apply negb_true_iff in Nd.
      split; [exact Nd|exact N].
    + intros p r [L _]. unfold headingRegex. rewrite L. reflexivity.
    + split; [exact Tc|exact T].
Qed.

Lemma headings_absent_is_noop_witness :
  normalizeHeadings settingsContextual 3 (lit "#tag and ####### seven") true
  = (lit "#tag and ####### seven", true)
  /\ currentLevels (lit "no marker") = []
  /\ currentLevels (lit "a # b") = [].
Proof.
  split; [|split].
  - apply (proj1 (headings_absent_is_noop settingsContextual 3
                    (lit "#tag and ####### seven") true)).
    vm_compute. reflexivity.
  - apply (proj1 (proj2 (headings_absent_is_noop settingsContextual 3
                           (lit "no marker") true))).
    vm_compute. reflexivity.
  - apply (proj2 (proj2 (headings_absent_is_noop settingsContextual 3
                           (lit "a # b") true))).
    + reflexivity.
    + vm_compute. reflexivity.
Defined.

(** A rule on the levels that keeps a level between itself and 6. *)
Lemma runLevels_bounds step d c levels :
  (forall d c cur, 1 <= cur <= 6 -> (c = true -> 0 <= d) ->
     cur <= fst (step (d, c) cur) <= 6
     /\ (snd (snd (step (d, c) cur)) = true ->
         0 <= fst (snd (step (d, c) cur)))) ->
  (c = true -> 0 <= d) ->
  Forall (fun l => 1 <= l <= 6) levels ->
  Forall2 (fun cur n => cur <= n <= 6) levels (runLevels step (d, c) levels).
Proof.
  intros R I F. revert d c I. induction F as [|l levels Hl _ IH]; intros d c I.
  - constructor.
  - cbn [runLevels]. destruct (R d c l Hl I) as [R1 R2].
    destruct (step (d, c) l) as [n [d' c']]. cbn [fst snd] in *.
    constructor; [lia|]. apply IH. exact R2.
Qed.

Lemma contextualStep_bounds contextLevel d c cur :
  0 < contextLevel -> 1 <= cur <= 6 -> (c = true -> 0 <= d) ->
  cur <= fst (contextualStep contextLevel (d, c) cur) <= 6
  /\ (snd (snd (contextualStep contextLevel (d, c) cur)) = true ->
      0 <= fst (snd (contextualStep contextLevel (d, c) cur))).
Proof.
  intros L R I. unfold contextualStep. destruct c.
  - specialize (I eq_refl). cbn [fst snd]. split; [lia|auto].
  - destruct (Z.leb_spec cur contextLevel); cbn [fst snd]; split;
      try lia; try discriminate; try (intros _; lia).
Qed.

Lemma maxLevelStep_bounds settings d c cur :
  maxHeadingLevel settings <= 6 -> 1 <= cur <= 6 -> (c = true -> 0 <= d) ->
  cur <= fst (maxLevelStep settings (d, c) cur) <= 6
  /\ (snd (snd (maxLevelStep settings (d, c) cur)) = true ->
      0 <= fst (snd (maxLevelStep settings (d, c) cur))).
Proof.
  intros M R I. unfold maxLevelStep.
  destruct (cascadeHeadingLevels settings).
  - destruct c.
    + specialize (I eq_refl). cbn [fst snd]. split; [lia|auto].
    + destruct (Z.ltb_spec cur (maxHeadingLevel settings)); cbn [fst snd];
        split; try lia; try discriminate; try (intros _; lia).
  - cbn [fst snd]. split; [lia|exact I].
Qed.

(** X2.  Under the contextual cascade (the setting on and a context
    level above 0), and else under a maximum level from 2 to 6, stage 1
    rewrites the markers to levels that are at least the current ones and
    at most 6. *)
Theorem heading_levels_bounds settings contextLevel s a :
  (contextualCascade settings && (0 <? contextLevel)) = true
  \/ ((1 <? maxHeadingLevel settings) = true /\ maxHeadingLevel settings <= 6) ->
  exists levels,
    fst (normalizeHeadings settings contextLevel s a) = withLevels s levels
    /\ Forall2 (fun cur n => cur <= n <= 6) (currentLevels s) levels.
Proof.
  intros M. exists (newLevels settings contextLevel (currentLevels s)). split.
  - apply normalizeHeadings_text. tauto.
  - unfold newLevels. pose proof (currentLevels_range s) as F.
    destruct (contextualCascade settings && (0 <? contextLevel)) eqn:C.
    + apply andb_prop in C as [_ C]. apply Z.ltb_lt in C.
      apply runLevels_bounds; [|discriminate|exact F].
      intros d c cur. apply contextualStep_bounds. exact C.
    + destruct M as [M|[M M6]]; [discriminate|]. rewrite M.
      destruct (cascadeHeadingLevels settings) eqn:K.
      * rewrite <- runLevels_maxCascade with (d := -1) by exact K.
        apply runLevels_bounds; [|discriminate|exact F].
        intros d c cur. apply maxLevelStep_bounds. exact M6.
      * rewrite <- runLevels_clamp with (st := (-1, false)) by exact K.
        apply runLevels_bounds; [|discriminate|exact F].
        intros d c cur. apply maxLevelStep_bounds. exact M6.
Qed.

Lemma heading_levels_bounds_witness :
  exists levels,
    fst (normalizeHeadings settingsMaxCascade 0
           (lit "# a" ++ LF :: lit "###### c") false)
    = withLevels (lit "# a" ++ LF :: lit "###### c") levels
    /\ Forall2 (fun cur n => cur <= n <= 6)
         (currentLevels (lit "# a" ++ LF :: lit "###### c")) levels.
Proof.
  apply (heading_levels_bounds settingsMaxCascade 0
           (lit "# a" ++ LF :: lit "###### c") false).
  right. split; [reflexivity|]. simpl. lia.
Defined.

(** X3.  Stage 1 never returns a shorter text; in one of its modes, on a
    text with a marker, a flag that is returned on comes with a longer
    text. *)
Theorem headings_never_shorten settings contextLevel s a :
  (length s <= length (fst (normalizeHeadings settings contextLevel s a)))%nat
  /\ ((contextualCascade settings && (0 <? contextLevel)) = true
      \/ (1 <? maxHeadingLevel settings) = true ->
      currentLevels s <> [] ->
      snd (normalizeHeadings settings contextLevel s a) = true ->
      (length s
       < length (fst (normalizeHeadings settings contextLevel s a)))%nat).
Proof.
  unfold normalizeHeadings, replaceWith, replaceFrom, currentLevels,
    headingMarkers.
  pose proof (scan_subject headingRegex_consuming None s) as S.
  pose proof (headingMarkers_shape s) as F. unfold headingMarkers in F.
  destruct (scan headingRegex None s) as [occs tl]. cbn [fst snd] in S, F |- *.
  assert (G : forall step, raising step ->
    let r := replaceOccs (replacerOf step)
               {| delta := -1; cascading := false; applied := a |} occs in
    (length s <= length (snd r ++ tl))%nat
    /\ (levelsOf occs <> [] -> applied (fst r) = true ->
        (length s < length (snd r ++ tl))%nat)).
  { intros step R r.
    destruct (replaceOccs_length
                {| delta := -1; cascading := false; applied := a |}
                R ltac:(discriminate) F) as [L1 L2].
    fold r in L1, L2.
    pose proof (f_equal (@length char) S) as Ls. rewrite length_app in Ls.
    rewrite !length_app. split; [lia|]. intros Hne A.
    assert (Ho : occs <> []) by (intros ->; apply Hne; reflexivity).
    specialize (L2 Ho A). lia. }
  destruct (contextualCascade settings && (0 <? contextLevel)) eqn:C.
  - apply andb_prop in C as [_ C]. apply Z.ltb_lt in C.
    rewrite replaceOccs_ext with (g := replacerOf (contextualStep contextLevel))
      by apply contextualReplacer_step.
    specialize (G _ (contextualStep_raising C)).
    destruct (replaceOccs _ _ occs) as [st out]. cbn [fst snd] in *.
    destruct G as [G1 G2]. split; [exact G1|]. intros _. exact G2.
  - destruct (1 <? maxHeadingLevel settings).
    + rewrite replaceOccs_ext with (g := replacerOf (maxLevelStep settings))
        by apply maxLevelReplacer_step.
      specialize (G _ (maxLevelStep_raising settings)).
      destruct (replaceOccs _ _ occs) as [st out]. cbn [fst snd] in *.
      destruct G as [G1 G2]. split; [exact G1|]. intros _. exact G2.
    + cbn [fst snd]. split; [lia|]. intros [M|M]; discriminate.
Qed.

Lemma headings_never_shorten_witness :
  (length (lit "# a")
   < length (fst (normalizeHeadings settingsClamp 0 (lit "# a") false)))%nat.
Proof.
  apply (proj2 (headings_never_shorten settingsClamp 0 (lit "# a") false)).
  - right. reflexivity.
  - vm_compute. discriminate.
  - vm_compute. reflexivity.
Defined.

Lemma whiteSpace_not_hash w : isWhiteSpace w = true -> (HASH =? w)%N = false.
Proof.
  intros W. destruct (N.eqb_spec HASH w) as [E|]; [|reflexivity].
  subst w. discriminate.
Qed.

(** The one marker of a text that starts with 1 to 6 hashes and a
    white-space character and holds no other hash. *)
Lemma headingMarkers_single k w rest :
  (1 <= k <= 6)%nat -> isWhiteSpace w = true ->
  forallb (fun c => negb (HASH =? c)%N) rest = true ->
  headingMarkers (List.repeat HASH k ++ w :: rest) =
  ([([], {| matched := List.repeat HASH k ++ [w];
            groups := [Some (List.repeat HASH k)] |})], rest).
Proof.
  intros K W R. unfold headingMarkers.
  assert (E : headingRegex None (List.repeat HASH k ++ w :: rest) =
              Some {| matched := List.repeat HASH k ++ [w];
                      groups := [Some (List.repeat HASH k)] |}).
  { unfold headingRegex. cbn [atLineStart].
    rewrite headingMarker_run
      by (apply repeat_hashes || apply whiteSpace_not_hash; exact W).
    rewrite repeat_length, W.
    destruct (Nat.leb_spec 1 k); [|lia]. destruct (Nat.leb_spec k 6); [|lia].
    reflexivity. }
  rewrite scan_match_app with (m := {| matched := List.repeat HASH k ++ [w];
                      groups := [Some (List.repeat HASH k)] |})
    by (exact E || reflexivity).
  rewrite scan_hashless by exact R. reflexivity.
Qed.

(** X4.  A rewritten marker ends in a space, whatever white-space
    character followed the hashes: on 1 to 6 hashes, a white-space
    character and a rest without hash, stage 1 in one of its modes
    returns the new hashes, a space and the rest, and the flag says
    whether the level changed.  So a line feed after the hashes is lost,
    also when the level and the flag stay as they are. *)
Theorem marker_space_rewritten settings contextLevel k w rest a :
  (contextualCascade settings && (0 <? contextLevel)) = true
  \/ (1 <? maxHeadingLevel settings) = true ->
  (1 <= k <= 6)%nat -> isWhiteSpace w = true ->
  forallb (fun c => negb (HASH =? c)%N) rest = true ->
  normalizeHeadings settings contextLevel (List.repeat HASH k ++ w :: rest) a =
  (JS.repeat HASH (hd 0 (newLevels settings contextLevel [Z.of_nat k]))
     ++ SPACE :: rest,
   negb (hd 0 (newLevels settings contextLevel [Z.of_nat k]) =? Z.of_nat k)).
Proof.
  intros M K W R.
  pose proof (headingMarkers_single k w rest K W R) as H.
  assert (C : currentLevels (List.repeat HASH k ++ w :: rest) = [Z.of_nat k]).
  { unfold currentLevels. rewrite H. cbn. unfold hashesLength. cbn.
    rewrite repeat_length. reflexivity. }
  assert (N : exists n, newLevels settings contextLevel [Z.of_nat k] = [n]).
  { unfold newLevels.
    destruct (contextualCascade settings && (0 <? contextLevel)).
    - cbn [runLevels]. destruct (contextualStep _ _ _) as [n st]. eauto.
    - destruct (1 <? maxHeadingLevel settings); [|eauto].
      destruct (cascadeHeadingLevels settings); cbn; [|eauto].
      destruct (Z.of_nat k <? maxHeadingLevel settings); eauto. }
  destruct N as [n N].
  rewrite (surjective_pairing (normalizeHeadings _ _ _ _)).
  rewrite normalizeHeadings_text by exact M.
  rewrite normalizeHeadings_flag by (exact M || (rewrite C; discriminate)).
  rewrite C, N. unfold withLevels. rewrite H. cbn [fst snd rewriteMarkers hd last].
  cbn [app]. rewrite <- app_assoc. reflexivity.
Qed.

Lemma marker_space_rewritten_witness :
  normalizeHeadings settingsClamp 0 (lit "###" ++ LF :: lit "text") false
  = (lit "### text", false).
Proof.
  apply (marker_space_rewritten settingsClamp 0 3 LF (lit "text") false).
  - right. reflexivity.
  - lia.
  - reflexivity.
  - reflexivity.
Defined.

(** ** The clamp to a maximum above 6 *)







(** ** Stage 2: every regex of the chain takes a prefix that is not empty *)

(** A non-empty prefix as [consuming] wants it. *)
Lemma prefix_consuming (t s r : str) :
  t <> [] -> s = t ++ r ->
  exists t' w rest, t = t' ++ [w] /\ s = t' ++ w :: rest.
Proof.
  intros Ht ->. destruct (exists_last Ht) as (t' & w & ->).
  exists t', w, r. split; [reflexivity|]. rewrite <- app_assoc. reflexivity.
Qed.

Lemma alternatives_Some alts s m :
  alternatives alts s = Some m ->
  exists a r, In a alts /\ m = whole a /\ s = a ++ r.
Proof.
  induction alts as [|a alts IH]; [discriminate|]. cbn [alternatives].
  destruct (stripPrefix a s) as [r|] eqn:E.
  - intros [= <-]. exists a, r. split; [left; reflexivity|].
    split; [reflexivity|]. apply stripPrefix_Some, E.
  - intros H. destruct (IH H) as (a' & r & I & M & S).
    exists a', r. split; [right; exact I|]. auto.
Qed.

Lemma alternatives_consuming alts :
  Forall (fun a => a <> []) alts -> consuming (fun _ s => alternatives alts s).
Proof.
  intros F prev s m H. apply alternatives_Some in H as (a & r & I & -> & ->).
  rewrite Forall_forall in F. apply (prefix_consuming a _ r (F a I) eq_refl).
Qed.

Lemma alternatives_whole alts : wholeMatch (fun _ s => alternatives alts s).
Proof.
  intros prev s m H. apply alternatives_Some in H as (a & r & _ & -> & _).
  reflexivity.
Qed.

Lemma escEmphasis_consuming : consuming escEmphasis.
Proof. apply alternatives_consuming. repeat constructor; discriminate. Qed.

Lemma escBracket_consuming : consuming escBracket.
Proof. apply alternatives_consuming. repeat constructor; discriminate. Qed.

Lemma escPipe_consuming : consuming escPipe.
Proof. apply alternatives_consuming. repeat constructor; discriminate. Qed.

Lemma escHeading_Some prev s m :
  escHeading prev s = Some m ->
  exists m0, headingRegex prev s = Some m0 /\ m = whole (matched m0).
Proof.
  unfold escHeading. destruct (headingRegex prev s) as [m0|]; [|discriminate].
  intros [= <-]. eauto.
Qed.

Lemma escHeading_consuming : consuming escHeading.
Proof.
  intros prev s m H. apply escHeading_Some in H as (m0 & H & ->).
  apply headingRegex_consuming in H. exact H.
Qed.

Lemma escHeading_whole : wholeMatch escHeading.
Proof.
  intros prev s m H. apply escHeading_Some in H as (m0 & _ & ->). reflexivity.
Qed.

(** The regexes [^\s*body]: [body] takes a non-empty prefix. *)
Lemma afterIndent_Some body prev s m :
  afterIndent body prev s = Some m ->
  exists t, body (snd (span isWhiteSpace s)) = Some t
            /\ m = whole (fst (span isWhiteSpace s) ++ t).
Proof.
  unfold afterIndent. destruct (atLineStart prev); [|discriminate].
  destruct (span isWhiteSpace s) as [ws rest]. cbn [fst snd].
  destruct (body rest) as [t|]; [|discriminate]. intros [= <-]. eauto.
Qed.

Lemma afterIndent_consuming body :
  (forall s t, body s = Some t -> t <> [] /\ exists r, s = t ++ r) ->
  consuming (afterIndent body).
Proof.
  intros B prev s m H. apply afterIndent_Some in H as (t & H & ->).
  apply B in H as [Ht [r E]]. cbn [matched whole].
  apply prefix_consuming with (r := r).
  - intros N. apply app_eq_nil in N as [_ N]. contradiction.
  - rewrite <- app_assoc, <- E. symmetry. apply span_app.
Qed.

Lemma afterIndent_whole body : wholeMatch (afterIndent body).
Proof.
  intros prev s m H. apply afterIndent_Some in H as (t & _ & ->). reflexivity.
Qed.

Lemma escBullet_consuming : consuming escBullet.
Proof.
  apply afterIndent_consuming. intros s t.
  destruct s as [|b [|w s]]; try discriminate.
  destruct (_ && _); [|discriminate]. intros [= <-].
  split; [discriminate|]. exists s. reflexivity.
Qed.

Lemma escOrdered_consuming : consuming escOrdered.
Proof.
  apply afterIndent_consuming. intros s t.
  pose proof (span_app isDigit s) as A.
  destruct (span isDigit s) as [digits rest]. cbn [fst snd] in A.
  destruct digits as [|d0 digits]; [discriminate|].
  destruct rest as [|d [|w rest]]; try discriminate.
  destruct (_ && _); [|discriminate]. intros [= <-].
  split; [discriminate|]. exists rest. rewrite <- A. cbn [app].
  rewrite <- app_assoc. reflexivity.
Qed.

Lemma escQuote_consuming : consuming escQuote.
Proof.
  apply afterIndent_consuming. intros s t.
  destruct s as [|b [|w s]]; try discriminate.
  destruct (_ && _); [|discriminate]. intros [= <-].
  split; [discriminate|]. exists s. reflexivity.
Qed.

Lemma spaceToLineEnd_prefix ws e t :
  spaceToLineEnd ws e = Some t -> exists r, ws = t ++ r.
Proof.
  revert t. induction ws as [|c ws IH]; intros t.
  - cbn. destruct e; [|discriminate]. intros [= <-]. exists []. reflexivity.
  - cbn [spaceToLineEnd]. destruct (spaceToLineEnd ws e) as [t'|].
    + intros [= <-]. destruct (IH t' eq_refl) as [r ->]. exists r. reflexivity.
    + destruct (isLineTerminator c); [|discriminate]. intros [= <-].
      exists (c :: ws). reflexivity.
Qed.

Lemma escRule_consuming : consuming escRule.
Proof.
  apply afterIndent_consuming. intros s t.
  set (p := fun c => ((c =? DASH) || (c =? STAR) || (c =? UNDERSCORE))%N).
  pose proof (span_app p s) as A.
  destruct (span p s) as [marks rest]. cbn [fst snd] in A.
  destruct (Nat.leb_spec 3 (length marks)) as [L|]; [|discriminate].
  pose proof (span_app isWhiteSpace rest) as A'.
  destruct (span isWhiteSpace rest) as [ws rest']. cbn [fst snd] in A'.
  destruct (spaceToLineEnd ws (atEnd rest')) as [x|] eqn:E; [|discriminate].
  cbn [option_map]. intros [= <-].
  apply spaceToLineEnd_prefix in E as [r E]. split.
  - destruct marks; [simpl in L; lia|discriminate].
  - exists (r ++ rest'). rewrite <- A, <- A', E, <- !app_assoc. reflexivity.
Qed.

Lemma escTask_consuming : consuming escTask.
Proof.
  apply afterIndent_consuming. intros s t.
  destruct (stripPrefix (lit "- [ ]") s) as [r|] eqn:E; [|discriminate].
  intros [= <-]. split; [discriminate|]. exists r.
  apply stripPrefix_Some, E.
Qed.

Lemma escBacktick_Some prev s m :
  escBacktick prev s = Some m ->
  exists t r, m = whole t /\ t <> [] /\ s = t ++ r
              /\ forallb (N.eqb BACKTICK) t = true.
Proof.
  unfold escBacktick.
  pose proof (span_app (N.eqb BACKTICK) s) as A.
  pose proof (span_forall (N.eqb BACKTICK) s) as F.
  destruct (span (N.eqb BACKTICK) s) as [run rest]. cbn [fst snd] in *.
  destruct (firstn 3 run) as [|c t] eqn:E; [discriminate|].
  intros [= <-]. exists (c :: t), (skipn 3 run ++ rest).
  split; [reflexivity|]. split; [discriminate|]. split.
  - rewrite <- E, app_assoc, firstn_skipn. symmetry. exact A.
  - rewrite <- E. rewrite <- (firstn_skipn 3 run), forallb_app in F.
    apply andb_prop in F as [F _]. exact F.
Qed.

Lemma escBacktick_consuming : consuming escBacktick.
Proof.
  intros prev s m H. apply escBacktick_Some in H as (t & r & -> & N & E & _).
  apply (prefix_consuming t s r N E).
Qed.

Lemma escBacktick_whole : wholeMatch escBacktick.
Proof.
  intros prev s m H. apply escBacktick_Some in H as (t & r & -> & _).
  reflexivity.
Qed.

Lemma lazyUntil_prefix closing s t :
  lazyUntil closing s = Some t -> exists r, s = t ++ r.
Proof.
  revert t. induction s as [|c s IH]; intros t; cbn [lazyUntil].
  - destruct (stripPrefix closing []) as [r|] eqn:E; [|discriminate].
    intros [= <-]. exists r. apply stripPrefix_Some, E.
  - destruct (stripPrefix closing (c :: s)) as [r|] eqn:E.
    + intros [= <-]. exists r. apply stripPrefix_Some, E.
    + destruct (isLineTerminator c); [discriminate|].
      destruct (lazyUntil closing s) as [t'|]; [|discriminate].
      intros [= <-]. destruct (IH t' eq_refl) as [r ->]. exists r. reflexivity.
Qed.

Lemma codeSpan_Some s t :
  codeSpan s = Some t -> t <> [] /\ exists r, s = t ++ r.
Proof.
  destruct s as [|c s]; [discriminate|]. cbn [codeSpan].
  destruct (c =? BACKTICK)%N; [|discriminate].
  destruct (lazyUntil [BACKTICK] s) as [x|] eqn:E; [|discriminate].
  intros [= <-]. split; [discriminate|].
  apply lazyUntil_prefix in E as [r ->]. exists r. reflexivity.
Qed.

Lemma htmlTag_Some s t :
  htmlTag s = Some t -> t <> [] /\ exists r, s = t ++ r.
Proof.
  destruct s as [|l s1]; [discriminate|]. cbn [htmlTag].
  destruct (l =? LT)%N; [|discriminate].
  assert (G : forall slash s2, s1 = slash ++ s2 ->
    match s2 with
    | a :: s3 =>
        if isLetter a then
          let (inner, s4) := span (fun c => negb (c =? GT)%N) s3 in
          match s4 with
          | g :: _ => Some (l :: slash ++ a :: inner ++ [g])
          | [] => None
          end
        else None
    | [] => None
    end = Some t -> t <> [] /\ exists r, l :: s1 = t ++ r).
  { intros slash s2 E. destruct s2 as [|a s3]; [discriminate|].
    destruct (isLetter a); [|discriminate].
    pose proof (span_app (fun c => negb (c =? GT)%N) s3) as A.
    destruct (span (fun c => negb (c =? GT)%N) s3) as [inner s4].
    cbn [fst snd] in A. destruct s4 as [|g s5]; [discriminate|].
    intros [= <-]. split; [discriminate|]. exists s5.
    rewrite E, <- A. cbn [app]. rewrite <- !app_assoc. cbn [app].
    rewrite <- !app_assoc. reflexivity. }
  destruct s1 as [|c s2].
  - apply (G [] []). reflexivity.
  - destruct (c =? SLASH)%N.
    + apply (G [c] s2). reflexivity.
    + apply (G [] (c :: s2)). reflexivity.
Qed.

Lemma codeOrTag_Some prev s m :
  codeOrTag prev s = Some m ->
  matched m <> [] /\ (exists r, s = matched m ++ r)
  /\ (codeOrTagReplacer m = matched m
      \/ codeOrTagReplacer m = BACKTICK :: matched m ++ [BACKTICK]).
Proof.
  unfold codeOrTag. destruct (codeSpan s) as [t|] eqn:C.
  - intros [= <-]. apply codeSpan_Some in C as [N E]. cbn [matched].
    split; [exact N|]. split; [exact E|]. left.
    destruct t; [contradiction|reflexivity].
  - destruct (htmlTag s) as [t|] eqn:T; [|discriminate].
    intros [= <-]. apply htmlTag_Some in T as [N E]. cbn [matched].
    split; [exact N|]. split; [exact E|]. right.
    destruct t; [contradiction|reflexivity].
Qed.

Lemma codeOrTag_consuming : consuming codeOrTag.
Proof.
  intros prev s m H. apply codeOrTag_Some in H as (N & [r E] & _).
  apply (prefix_consuming (matched m) s r N E).
Qed.

(** ** Stage 2 only inserts backslashes and backticks *)

Lemma padded_refl s : padded s s.
Proof. induction s; constructor; assumption. Qed.

Lemma padded_app a a' b b' :
  padded a a' -> padded b b' -> padded (a ++ b) (a' ++ b').
Proof.
  intros A B. induction A as [|c s out A IH|c s out Hc A IH]; cbn [app].
  - exact B.
  - constructor. exact IH.
  - apply padded_insert; assumption.
Qed.

Lemma padded_trans a b c : padded a b -> padded b c -> padded a c.
Proof.
  intros A B. revert a A.
  induction B as [|x s out B IH|x s out Hx B IH]; intros a A.
  - exact A.
  - inversion A as [|y a' s' A'|y a' s' Hy A']; subst.
    + constructor. apply IH, A'.
    + apply padded_insert; [exact Hy|]. apply IH, A'.
  - apply padded_insert; [exact Hx|]. apply IH, A.
Qed.

Lemma padded_length s out : padded s out -> (length s <= length out)%nat.
Proof. induction 1; cbn [length]; lia. Qed.

Lemma padded_same_length s out :
  padded s out -> length out = length s -> out = s.
Proof.
  induction 1 as [|c s out A IH|c s out Hc A IH]; cbn [length]; intros L.
  - reflexivity.
  - f_equal. apply IH. lia.
  - apply padded_length in A. lia.
Qed.

Lemma backslash1_padded re f prev s :
  consuming re -> wholeMatch re ->
  (forall m, f m = backslash1 m) ->
  padded s (replaceAt re f prev s).
Proof.
  intros C W F.
  apply (replaceAt_induction C) with (P := fun _ s out => padded s out);
    clear prev s.
  - intros _. constructor.
  - intros prev c s _ IH. constructor. exact IH.
  - intros prev m t w rest Hre Hm IH. rewrite F. unfold backslash1.
    rewrite (W _ _ _ Hre), Hm.
    apply padded_insert; [left; reflexivity|].
    replace (t ++ w :: rest) with ((t ++ [w]) ++ rest)
      by (rewrite <- app_assoc; reflexivity).
    apply padded_app; [apply padded_refl|exact IH].
Qed.

Lemma codeOrTag_padded prev s :
  padded s (replaceAt codeOrTag codeOrTagReplacer prev s).
Proof.
  apply (replaceAt_induction codeOrTag_consuming)
    with (P := fun _ s out => padded s out); clear prev s.
  - intros _. constructor.
  - intros prev c s _ IH. constructor. exact IH.
  - intros prev m t w rest Hre Hm IH.
    apply codeOrTag_Some in Hre as (_ & _ & [R|R]); rewrite R, Hm;
      replace (t ++ w :: rest) with ((t ++ [w]) ++ rest)
        by (rewrite <- app_assoc; reflexivity).
    + apply padded_app; [apply padded_refl|exact IH].
    + cbn [app]. apply padded_insert; [right; reflexivity|].
      rewrite <- (app_assoc (t ++ [w]) [BACKTICK]).
      apply padded_app; [apply padded_refl|]. cbn [app].
      apply padded_insert; [right; reflexivity|exact IH].
Qed.

Lemma htmlTag_head s t : htmlTag s = Some t -> exists r, s = LT :: r.
Proof.
  destruct s as [|l s1]; [discriminate|]. cbn [htmlTag].
  destruct (N.eqb_spec l LT) as [->|]; [eauto|discriminate].
Qed.

Lemma codeOrTag_cases prev s m :
  codeOrTag prev s = Some m ->
  codeOrTagReplacer m = matched m \/ exists r, s = LT :: r.
Proof.
  unfold codeOrTag. destruct (codeSpan s) as [t|] eqn:C.
  - intros [= <-]. left. apply codeSpan_Some in C as [N _].
    destruct t; [contradiction|reflexivity].
  - destruct (htmlTag s) as [t|] eqn:T; [|discriminate].
    intros _. right. apply (htmlTag_head s t T).
Qed.

(** X6.  The last pass of the escaping (lines 121-126) replaces a code
    span by itself: it returns a text without opening angle as it is. *)
Theorem last_pass_keeps_code prev s :
  forallb (fun c => negb (c =? LT)%N) s = true ->
  replaceAt codeOrTag codeOrTagReplacer prev s = s.
Proof.
  apply (replaceAt_induction codeOrTag_consuming)
    with (P := fun _ s out =>
                 forallb (fun c => negb (c =? LT)%N) s = true -> out = s);
    clear prev s.
  - reflexivity.
  - intros prev c s _ IH H. cbn [forallb] in H. apply andb_prop in H as [_ H].
    rewrite (IH H). reflexivity.
  - intros prev m t w rest Hre Hm IH H.
    apply codeOrTag_cases in Hre as [R|[r E]].
    + rewrite R, Hm. rewrite forallb_app in H. apply andb_prop in H as [_ H].
      cbn [forallb] in H. apply andb_prop in H as [_ H].
      rewrite (IH H), <- app_assoc. reflexivity.
    + rewrite E in H. discriminate H.
Qed.

Lemma last_pass_keeps_code_witness :
  replaceAt codeOrTag codeOrTagReplacer None (lit "`a` and ``b`` > c")
  = lit "`a` and ``b`` > c".
Proof.
  apply (last_pass_keeps_code None (lit "`a` and ``b`` > c")).
  vm_compute. reflexivity.
Defined.

Lemma escapeChain_padded md : padded md (escapeChain md).
Proof.
  unfold escapeChain, replace.
  repeat (eapply padded_trans;
    [|first [ apply codeOrTag_padded
            | apply backslash1_padded;
              [ first [ exact escHeading_consuming | exact escEmphasis_consuming
                      | exact escBullet_consuming | exact escOrdered_consuming
                      | exact escBracket_consuming | exact escBacktick_consuming
                      | exact escQuote_consuming | exact escRule_consuming
                      | exact escPipe_consuming | exact escTask_consuming ]
              | first [ exact escHeading_whole | exact escBacktick_whole
                      | apply afterIndent_whole | apply alternatives_whole ]
              | reflexivity ] ]]).
  apply padded_refl.
Qed.

(** X7.  The escaping only inserts backslashes and backticks: the input
    is the output without some of its backslashes and backticks.  The
    output is never shorter, and the flag is on exactly when it is
    longer. *)
Theorem escaping_only_inserts md :
  padded md (fst (escapeStage md))
  /\ (length md <= length (fst (escapeStage md)))%nat
  /\ (snd (escapeStage md) = true <->
      (length md < length (fst (escapeStage md)))%nat).
Proof.
  unfold escapeStage. cbn [fst snd].
  pose proof (escapeChain_padded md) as P.
  pose proof (padded_length _ _ P) as L.
  split; [exact P|]. split; [exact L|]. split.
  - intros N. destruct (Nat.eq_dec (length (escapeChain md)) (length md)) as [E|];
      [|lia].
    apply (padded_same_length _ _ P) in E. rewrite E, neqb_refl in N. discriminate.
  - intros Lt. apply neqb_true. intros E. rewrite <- E in Lt. lia.
Qed.

Lemma escaping_only_inserts_witness :
  (length (lit "a*b") < length (fst (escapeStage (lit "a*b"))))%nat.
Proof.
  apply (proj1 (proj2 (proj2 (escaping_only_inserts (lit "a*b"))))).
  vm_compute. reflexivity.
Defined.

(** ** Stage 2 on running text *)

Lemma escapeChain_rules md : escapeChain md = runFrom None escapeRules md.
Proof. reflexivity. Qed.

Lemma inlineFrom_cons prev c t :
  inlineFrom prev (c :: t) = true ->
  (spaceBefore prev = true ->
   isWhiteSpace c || opener c || emphasisChar c = true)
  /\ (c =? BACKTICK)%N = false /\ (c =? LT)%N = false
  /\ doubled prev c = false /\ inlineFrom (Some c) t = true.
Proof.
  cbn [inlineFrom]. intros H.
  apply andb_prop in H as [H H5]. apply andb_prop in H as [H H4].
  apply andb_prop in H as [H H3]. apply andb_prop in H as [H1 H2].
  apply negb_true_iff in H2, H3, H4. repeat split; try assumption.
  intros S. rewrite S in H1. exact H1.
Qed.

Lemma lineStart_spaceBefore prev :
  atLineStart prev = true -> spaceBefore prev = true.
Proof.
  destruct prev as [c|]; [|reflexivity]. cbn. unfold isLineTerminator.
  intros H.
  repeat (apply orb_prop in H as [H|H]); apply N.eqb_eq in H; subst c;
    reflexivity.
Qed.

Lemma emphasisChar_spec c :
  emphasisChar c = true -> c = STAR \/ c = UNDERSCORE.
Proof.
  unfold emphasisChar. intros H. apply orb_prop in H as [H|H];
    apply N.eqb_eq in H; auto.
Qed.

(** *** The pass of the headings *)

Lemma escHeading_inline prev s :
  inlineFrom prev s = true -> escHeading prev s = None.
Proof.
  intros H. unfold escHeading, headingRegex.
  destruct (atLineStart prev) eqn:L; [|reflexivity].
  destruct s as [|c t]; [reflexivity|].
  apply inlineFrom_cons in H as (W & _).
  specialize (W (lineStart_spaceBefore prev L)).
  assert (N : (HASH =? c)%N = false).
  { destruct (N.eqb_spec HASH c) as [<-|]; [|reflexivity]. discriminate. }
  rewrite (headingMarker_head c t N). reflexivity.
Qed.

Lemma heading_pass_inline f prev s :
  inlineFrom prev s = true -> replaceAt escHeading f prev s = s.
Proof.
  apply replaceAt_closed with (Q := fun prev s => inlineFrom prev s = true).
  - intros p c t H. apply inlineFrom_cons in H. tauto.
  - apply escHeading_inline.
Qed.

(** *** The anchored passes *)

Lemma proseFrom_rest prev s :
  spaceBefore prev = true -> proseFrom prev s = true ->
  match snd (span isWhiteSpace s) with
  | [] => True
  | c :: _ => opener c = true
  end.
Proof.
  revert prev. induction s as [|c t IH]; intros prev S H; [exact I|].
  cbn [proseFrom] in H. rewrite S in H. apply andb_prop in H as [H1 H2].
  cbn [span]. destruct (isWhiteSpace c) eqn:W.
  - specialize (IH (Some c) W H2). destruct (span isWhiteSpace t). exact IH.
  - exact H1.
Qed.

Ltac afterIndentNone L H :=
  intros L H; unfold afterIndent; rewrite L;
  pose proof (proseFrom_rest _ _ (lineStart_spaceBefore _ L) H) as R;
  destruct (span isWhiteSpace _) as [ws rest]; cbn [snd] in R;
  destruct rest as [|c rest]; [reflexivity|];
  apply opener_spec in R as (R1 & R2 & R3 & R4 & R5 & R6 & R7 & R8).

Lemma escBullet_prose prev s :
  atLineStart prev = true -> proseFrom prev s = true -> escBullet prev s = None.
Proof.
  unfold escBullet. afterIndentNone L H.
  destruct rest; [reflexivity|]. rewrite R3, R4, R5. reflexivity.
Qed.

Lemma escOrdered_prose prev s :
  atLineStart prev = true -> proseFrom prev s = true -> escOrdered prev s = None.
Proof.
  unfold escOrdered. afterIndentNone L H.
  cbn [span]. rewrite R7. reflexivity.
Qed.

Lemma escQuote_prose prev s :
  atLineStart prev = true -> proseFrom prev s = true -> escQuote prev s = None.
Proof.
  unfold escQuote. afterIndentNone L H.
  destruct rest; [reflexivity|]. rewrite R8. reflexivity.
Qed.

Lemma escRule_prose prev s :
  atLineStart prev = true -> proseFrom prev s = true -> escRule prev s = None.
Proof.
  unfold escRule. afterIndentNone L H.
  cbn [span]. rewrite R3, R5, R6. reflexivity.
Qed.

Lemma escTask_prose prev s :
  atLineStart prev = true -> proseFrom prev s = true -> escTask prev s = None.
Proof.
  unfold escTask. afterIndentNone L H.
  change (lit "- [ ]") with (DASH :: lit " [ ]"). cbn [stripPrefix].
  rewrite N.eqb_sym, R3. reflexivity.
Qed.

Lemma anchored_prose re f :
  anchored re ->
  (forall prev s, atLineStart prev = true -> proseFrom prev s = true ->
     re prev s = None) ->
  forall prev s, proseFrom prev s = true -> replaceAt re f prev s = s.
Proof.
  intros A N prev s.
  apply replaceAt_closed with (Q := fun prev s => proseFrom prev s = true).
  - intros p c t H. cbn [proseFrom] in H. apply andb_prop in H. tauto.
  - intros p t H. destruct (atLineStart p) eqn:L; [apply N; assumption|].
    apply A. exact L.
Qed.

Lemma anchored_passes_prose prev s :
  proseFrom prev s = true ->
  replaceAt escBullet backslash1 prev s = s
  /\ replaceAt escOrdered backslash1 prev s = s
  /\ replaceAt escQuote backslash1 prev s = s
  /\ replaceAt escRule backslash1 prev s = s
  /\ replaceAt escTask backslash1 prev s = s.
Proof.
  intros H. repeat split;
    (apply anchored_prose;
     [apply afterIndent_anchored
     |first [ exact escBullet_prose | exact escOrdered_prose
            | exact escQuote_prose | exact escRule_prose
            | exact escTask_prose ]
     |exact H]).
Qed.

(** Running text with its stars and underscores escaped is prose. *)
Lemma inline_prose p s :
  (forall c, emphasisChar c = true -> p c = true) ->
  forall prev, inlineFrom prev s = true ->
               proseFrom prev (escapeWhere p s) = true.
Proof.
  intros P. induction s as [|c t IH]; intros prev H; [reflexivity|].
  apply inlineFrom_cons in H as (W & _ & _ & _ & H).
  specialize (IH (Some c) H). unfold escapeWhere in *. cbn [flat_map].
  destruct (p c) eqn:E; cbn [app proseFrom spaceBefore].
  - rewrite IH. change (isWhiteSpace BACKSLASH) with false. cbn [andb].
    destruct (spaceBefore prev); reflexivity.
  - rewrite IH, andb_true_r. destruct (spaceBefore prev); [|reflexivity].
    specialize (W eq_refl). destruct (emphasisChar c) eqn:M.
    + rewrite (P c M) in E. discriminate.
    + rewrite orb_false_r in W. exact W.
Qed.

(** *** The inline passes *)

Lemma escapeWhere_none p s :
  (forall c, p c = false) -> escapeWhere p s = s.
Proof.
  intros P. induction s as [|c t IH]; [reflexivity|].
  unfold escapeWhere in *. cbn [flat_map]. rewrite P, IH. reflexivity.
Qed.

Lemma escapeWhere_ext p q s :
  (forall c, p c = q c) -> escapeWhere p s = escapeWhere q s.
Proof.
  intros P. induction s as [|c t IH]; [reflexivity|].
  unfold escapeWhere in *. cbn [flat_map]. rewrite P, IH. reflexivity.
Qed.

Lemma escapeWhere_cons p c t :
  escapeWhere p (c :: t) =
  if p c then BACKSLASH :: c :: escapeWhere p t else c :: escapeWhere p t.
Proof. unfold escapeWhere. cbn [flat_map]. destruct (p c); reflexivity. Qed.

Lemma escapeWhere_forall (q p : char -> bool) s :
  q BACKSLASH = true -> forallb q s = true ->
  forallb q (escapeWhere p s) = true.
Proof.
  intros B. induction s as [|c t IH]; [reflexivity|]. cbn [forallb].
  intros H. apply andb_prop in H as [Hc H]. rewrite escapeWhere_cons.
  destruct (p c); cbn [forallb]; rewrite ?B, Hc, IH by exact H; reflexivity.
Qed.

(** The head of an escaped text is a backslash or the head of the text. *)
Lemma escapeWhere_head p t x :
  (match t with [] => True | d :: _ => (x =? d)%N = false end) ->
  (x =? BACKSLASH)%N = false ->
  match escapeWhere p t with [] => True | d :: _ => (x =? d)%N = false end.
Proof.
  intros H B. destruct t as [|d t]; [exact I|]. rewrite escapeWhere_cons.
  destruct (p d); assumption.
Qed.

Lemma emphasis_pass s :
  forall prev, inlineFrom prev s = true ->
  replaceAt escEmphasis backslash1 prev s = escapeWhere emphasisChar s.
Proof.
  induction s as [|c t IH]; intros prev H.
  - apply replaceAt_nil. reflexivity.
  - apply inlineFrom_cons in H as (_ & _ & _ & _ & H).
    pose proof (IH (Some c) H) as IHc.
    assert (Nx : match t with
                 | [] => True
                 | d :: _ => doubled (Some c) d = false
                 end).
    { destruct t as [|d t]; [exact I|].
      apply inlineFrom_cons in H. tauto. }
    rewrite escapeWhere_cons. unfold emphasisChar at 1.
    destruct (N.eqb_spec c STAR) as [->|NS].
    + assert (M : escEmphasis prev ([] ++ STAR :: t) = Some (whole [STAR])).
      { unfold escEmphasis. cbn [app alternatives stripPrefix].
        rewrite N.eqb_refl. destruct t as [|d t]; [reflexivity|].
        cbn in Nx. cbn [stripPrefix].
        destruct (N.eqb_spec STAR d) as [<-|]; [discriminate|]. reflexivity. }
      change (STAR :: t) with ([] ++ STAR :: t) at 1.
      rewrite replaceAt_match with (m := whole [STAR]) by (exact M || reflexivity).
      rewrite IHc. reflexivity.
    + destruct (N.eqb_spec c UNDERSCORE) as [->|NU].
      * assert (M : escEmphasis prev ([] ++ UNDERSCORE :: t)
                    = Some (whole [UNDERSCORE])).
        { unfold escEmphasis. cbn [app alternatives stripPrefix].
          change (STAR =? UNDERSCORE)%N with false. cbn match.
          rewrite N.eqb_refl. destruct t as [|d t]; [reflexivity|].
          cbn in Nx. cbn [stripPrefix].
          destruct (N.eqb_spec UNDERSCORE d) as [<-|]; [discriminate|].
          reflexivity. }
        change (UNDERSCORE :: t) with ([] ++ UNDERSCORE :: t) at 1.
        rewrite replaceAt_match with (m := whole [UNDERSCORE])
          by (exact M || reflexivity).
        rewrite IHc. reflexivity.
      * cbn [orb]. rewrite replaceAt_nomatch.
        -- rewrite IHc. reflexivity.
        -- unfold escEmphasis. cbn [alternatives stripPrefix].
           apply N.eqb_neq in NS, NU. rewrite N.eqb_sym in NS, NU.
           rewrite NS, NU. reflexivity.
Qed.

Lemma bracket_pass s :
  forall prev prev', inlineFrom prev s = true ->
  replaceAt escBracket backslash1 prev' (escapeWhere emphasisChar s)
  = escapeWhere (fun c => emphasisChar c || (c =? 91)%N) s.
Proof.
  induction s as [|c t IH]; intros prev prev' H.
  - apply replaceAt_nil. reflexivity.
  - apply inlineFrom_cons in H as (_ & _ & _ & _ & H).
    assert (Nx : match t with
                 | [] => True
                 | d :: _ => doubled (Some c) d = false
                 end).
    { destruct t as [|d t]; [exact I|].
      apply inlineFrom_cons in H. tauto. }
    rewrite !escapeWhere_cons. destruct (emphasisChar c) eqn:M.
    + cbn [orb]. rewrite replaceAt_nomatch by reflexivity.
      rewrite replaceAt_nomatch
        by (apply emphasisChar_spec in M as [-> | ->]; reflexivity).
      rewrite (IH (Some c) (Some c) H). reflexivity.
    + cbn [orb]. destruct (N.eqb_spec c 91) as [->|NB].
      * change (91%N :: escapeWhere emphasisChar t)
          with ([] ++ 91%N :: escapeWhere emphasisChar t).
        rewrite replaceAt_match with (m := whole [91%N])
          by reflexivity.
        rewrite (IH (Some 91%N) (Some 91%N) H). reflexivity.
      * rewrite replaceAt_nomatch.
        -- rewrite (IH (Some c) (Some c) H). reflexivity.
        -- unfold escBracket.
           change (lit "![") with [33%N; 91%N]. change (lit "[") with [91%N].
           cbn [alternatives stripPrefix].
           apply N.eqb_neq in NB. rewrite (N.eqb_sym 91 c), NB.
           destruct (N.eqb_spec 33 c) as [<-|]; [|reflexivity].
           assert (Hd : match escapeWhere emphasisChar t with
                        | [] => True
                        | d :: _ => (91 =? d)%N = false
                        end).
           { apply escapeWhere_head; [|reflexivity].
             destruct t as [|d t]; [exact I|]. cbn in Nx.
             rewrite N.eqb_sym. exact Nx. }
           destruct (escapeWhere emphasisChar t) as [|d r]; [reflexivity|].
           cbn [stripPrefix]. rewrite Hd. reflexivity.
Qed.

Lemma pipe_pass p s :
  p PIPE = false ->
  forall prev,
    replaceAt escPipe backslash1 prev (escapeWhere p s)
    = escapeWhere (fun c => p c || (c =? PIPE)%N) s.
Proof.
  intros P. induction s as [|c t IH]; intros prev.
  - apply replaceAt_nil. reflexivity.
  - rewrite !escapeWhere_cons. destruct (p c) eqn:M.
    + cbn [orb]. rewrite replaceAt_nomatch by reflexivity.
      rewrite replaceAt_nomatch.
      * rewrite IH. reflexivity.
      * apply alternatives_single.
        destruct (N.eqb_spec PIPE c) as [<-|]; [congruence|reflexivity].
    + cbn [orb]. destruct (N.eqb_spec c PIPE) as [->|NP].
      * change (PIPE :: escapeWhere p t) with ([] ++ PIPE :: escapeWhere p t).
        rewrite replaceAt_match with (m := whole [PIPE]) by reflexivity.
        rewrite IH. reflexivity.
      * rewrite replaceAt_nomatch.
        -- rewrite IH. reflexivity.
        -- apply alternatives_single. apply N.eqb_neq. congruence.
Qed.

Lemma backtick_pass_fixed prev s :
  forallb (fun c => negb (c =? BACKTICK)%N && negb (c =? LT)%N) s = true ->
  replaceAt escBacktick backslash1 prev s = s.
Proof.
  intros H.
  apply replaceAt_fixed
    with (p := fun c => negb (c =? BACKTICK)%N && negb (c =? LT)%N).
  - intros p c t Hc. apply andb_prop in Hc as [Hc _].
    apply negb_true_iff in Hc. apply escBacktick_other. exact Hc.
  - reflexivity.
  - exact H.
Qed.

Lemma codeOrTag_pass_fixed prev s :
  forallb (fun c => negb (c =? BACKTICK)%N && negb (c =? LT)%N) s = true ->
  replaceAt codeOrTag codeOrTagReplacer prev s = s.
Proof.
  intros H.
  apply replaceAt_fixed
    with (p := fun c => negb (c =? BACKTICK)%N && negb (c =? LT)%N).
  - intros p c t Hc. apply andb_prop in Hc as [Hb Hl].
    apply negb_true_iff in Hb, Hl. unfold codeOrTag. cbn [codeSpan htmlTag].
    rewrite Hb, Hl. reflexivity.
  - reflexivity.
  - exact H.
Qed.

Lemma inlineFrom_chars s :
  forall prev, inlineFrom prev s = true ->
  forallb (fun c => negb (c =? BACKTICK)%N && negb (c =? LT)%N) s = true.
Proof.
  induction s as [|c t IH]; intros prev H; [reflexivity|].
  apply inlineFrom_cons in H as (_ & B & L & _ & H).
  cbn [forallb]. rewrite B, L, (IH _ H). reflexivity.
Qed.

(** The text after the first [j] passes, from any position. *)
Lemma inline_steps prev s j :
  inlineFrom prev s = true -> (j <= 11)%nat ->
  runFrom prev (firstn j escapeRules) s = escapeWhere (escapedAfter j) s.
Proof.
  intros H J.
  pose proof (inlineFrom_chars s prev H) as C.
  assert (C' : forall p,
    forallb (fun c => negb (c =? BACKTICK)%N && negb (c =? LT)%N)
      (escapeWhere p s) = true)
    by (intros p; apply escapeWhere_forall; [reflexivity|exact C]).
  assert (A : forall p, (forall c, emphasisChar c = true -> p c = true) ->
    replaceAt escBullet backslash1 prev (escapeWhere p s) = escapeWhere p s
    /\ replaceAt escOrdered backslash1 prev (escapeWhere p s) = escapeWhere p s
    /\ replaceAt escQuote backslash1 prev (escapeWhere p s) = escapeWhere p s
    /\ replaceAt escRule backslash1 prev (escapeWhere p s) = escapeWhere p s
    /\ replaceAt escTask backslash1 prev (escapeWhere p s) = escapeWhere p s)
    by (intros p P; apply anchored_passes_prose, inline_prose; assumption).
  set (p5 := fun c => emphasisChar c || (c =? 91)%N).
  set (p9 := fun c => p5 c || (c =? PIPE)%N).
  destruct (A emphasisChar ltac:(auto)) as (A3 & A4 & _).
  destruct (A p5 ltac:(intros c M; unfold p5; rewrite M; reflexivity))
    as (_ & _ & A7 & A8 & _).
  destruct (A p9 ltac:(intros c M; unfold p9, p5; rewrite M; reflexivity))
    as (_ & _ & _ & _ & A10).
  pose proof (heading_pass_inline backslash1 prev s H) as S1.
  pose proof (emphasis_pass s prev H) as S2.
  pose proof (bracket_pass s prev prev H) as S5. fold p5 in S5.
  pose proof (backtick_pass_fixed prev _ (C' p5)) as S6.
  pose proof (pipe_pass p5 s eq_refl prev) as S9. fold p9 in S9.
  pose proof (codeOrTag_pass_fixed prev _ (C' p9)) as S11.
  unfold runFrom, escapeRules.
  do 12 (destruct j as [|j];
    [cbn [firstn fold_left fst snd];
     rewrite ?S1, ?S2, ?A3, ?A4, ?S5, ?S6, ?A7, ?A8, ?S9, ?A10, ?S11;
     first [ symmetry; apply escapeWhere_none; intros c; reflexivity
           | apply escapeWhere_ext; intros c; unfold p9, p5, escapedAfter;
             cbn [Nat.leb andb orb];
             rewrite ?orb_false_r; reflexivity ]|]).
  lia.
Qed.


Lemma escapeWhere_absent p s :
  existsb p s = false -> escapeWhere p s = s.
Proof.
  induction s as [|c t IH]; [reflexivity|]. cbn [existsb]. intros E.
  apply orb_false_elim in E as [Ec E]. rewrite escapeWhere_cons, Ec, IH by exact E.
  reflexivity.
Qed.

Lemma escapeWhere_length p s : (length s <= length (escapeWhere p s))%nat.
Proof.
  induction s as [|c t IH]; [reflexivity|]. rewrite escapeWhere_cons.
  destruct (p c); cbn [length]; lia.
Qed.

Lemma escapeWhere_flag p s : neqb s (escapeWhere p s) = existsb p s.
Proof.
  destruct (existsb p s) eqn:E.
  - apply neqb_true. intros Q. apply (f_equal (@length char)) in Q.
    assert (L : (length s < length (escapeWhere p s))%nat); [|lia].
    clear Q. induction s as [|c t IH]; [discriminate|].
    cbn [existsb] in E. rewrite escapeWhere_cons.
    pose proof (escapeWhere_length p t) as G.
    destruct (p c); cbn [length]; [lia|].
    cbn [orb] in E. specialize (IH E). lia.
  - rewrite escapeWhere_absent by exact E. apply neqb_refl.
Qed.

Lemma escapedAfter_all c : escapedAfter 11 c = special c.
Proof. reflexivity. Qed.

Lemma escapeChain_inline s :
  inlineFrom None s = true -> escapeChain s = escapeWhere special s.
Proof.
  intros H. rewrite escapeChain_rules.
  change escapeRules with (firstn 11 escapeRules).
  rewrite (inline_steps None s 11 H) by lia.
  apply escapeWhere_ext, escapedAfter_all.
Qed.

(** X8.  Running text with inline markers: on a text whose words start
    with no character of a line marker, without backtick and opening
    angle, and without two stars, two underscores or an exclamation mark
    and a bracket in a row, the escaping puts one backslash before every
    star, underscore, opening bracket and pipe and changes nothing else;
    the flag tells whether there was one. *)
Theorem escape_running_text s :
  inlineFrom None s = true ->
  escapeStage s = (escapeWhere special s, existsb special s).
Proof.
  intros H. unfold escapeStage. rewrite (escapeChain_inline s H).
  rewrite escapeWhere_flag. reflexivity.
Qed.

Lemma escape_running_text_witness :
  escapeStage (lit "see *this* [link](u) | a_b" ++ LF :: lit "next line")
  = (lit "see \*this\* \[link](u) \| a\_b" ++ LF :: lit "next line", true).
Proof.
  apply (escape_running_text
           (lit "see *this* [link](u) | a_b" ++ LF :: lit "next line")).
  vm_compute. reflexivity.
Defined.

(** ** The characters of a line marker *)

Lemma runFrom_app prev r1 r2 s :
  runFrom prev (r1 ++ r2) s = runFrom prev r2 (runFrom prev r1 s).
Proof. unfold runFrom. apply fold_left_app. Qed.

Lemma firstn_snoc {A} (l : list A) j x :
  nth_error l j = Some x -> firstn (S j) l = firstn j l ++ [x].
Proof.
  revert j. induction l as [|y l IH]; intros j H.
  - destruct j; discriminate.
  - destruct j as [|j].
    + injection H as ->. reflexivity.
    + cbn [firstn app]. cbn [nth_error] in H. rewrite (IH j H) at 1.
      reflexivity.
Qed.

Lemma neutral_spec c :
  neutral c = true ->
  isWhiteSpace c = false /\ special c = false /\ (c =? 33)%N = false
  /\ (c =? BACKTICK)%N = false /\ (c =? LT)%N = false.
Proof.
  unfold neutral. intros H. repeat (apply andb_prop in H as [H ?]).
  repeat split; apply negb_true_iff; assumption.
Qed.

Lemma special_spec c :
  special c = false ->
  (c =? STAR)%N = false /\ (c =? UNDERSCORE)%N = false /\ (c =? 91)%N = false
  /\ (c =? PIPE)%N = false.
Proof.
  unfold special, emphasisChar. intros H.
  repeat (apply orb_false_elim in H as [H ?]). auto.
Qed.

Lemma whiteSpace_plain w :
  isWhiteSpace w = true ->
  special w = false /\ (w =? BACKTICK)%N = false /\ (w =? LT)%N = false
  /\ (w =? 33)%N = false.
Proof.
  intros W. repeat split;
    match goal with
    | |- special w = false =>
        destruct (special w) eqn:E; [|reflexivity]; unfold special, emphasisChar in E;
        repeat (apply orb_prop in E as [E|E]); apply N.eqb_eq in E; subst w;
        discriminate
    | |- (w =? ?x)%N = false =>
        destruct (N.eqb_spec w x) as [->|]; [discriminate|reflexivity]
    end.
Qed.

Lemma doubled_neutral p c :
  special p = false -> (p =? 33)%N = false -> doubled (Some p) c = false.
Proof.
  intros S E. apply special_spec in S as (S1 & S2 & _).
  cbn [doubled]. rewrite S1, S2, E. reflexivity.
Qed.

(** After white space the text reads as at its start. *)
Lemma inlineFrom_space w t :
  isWhiteSpace w = true -> inlineFrom (Some w) t = inlineFrom None t.
Proof.
  intros W. destruct t as [|c t]; [reflexivity|].
  apply whiteSpace_plain in W as W'. destruct W' as (S & _ & _ & E).
  cbn [inlineFrom spaceBefore]. rewrite W, (doubled_neutral w c S E).
  reflexivity.
Qed.

Lemma digit_range d : isDigit d = true -> (48 <= d <= 57)%N.
Proof.
  unfold isDigit. intros H. apply andb_prop in H as [H1 H2].
  apply N.leb_le in H1, H2. lia.
Qed.

Lemma digit_neutral d : isDigit d = true -> neutral d = true.
Proof.
  intros H. apply digit_range in H.
  unfold neutral, special, emphasisChar, isWhiteSpace, STAR, UNDERSCORE, PIPE,
    BACKTICK, LT.
  repeat match goal with
         | |- context [(?x =? ?y)%N] => destruct (N.eqb_spec x y); [lia|]
         | |- context [(?x <=? ?y)%N] => destruct (N.leb_spec x y); try lia
         end; reflexivity.
Qed.

Lemma neutral_hashes n : forallb neutral (List.repeat HASH n) = true.
Proof. induction n as [|n IH]; [reflexivity|]. cbn [List.repeat forallb]. exact IH. Qed.

Lemma neutral_digits digits :
  forallb isDigit digits = true -> forallb neutral (digits ++ [DOT]) = true.
Proof.
  induction digits as [|d digits IH]; [reflexivity|]. cbn [forallb app].
  intros H. apply andb_prop in H as [Hd H].
  rewrite (digit_neutral d Hd), (IH H). reflexivity.
Qed.

(** ** Stage 2: the pass of the task lists finds nothing *)

Lemma guarded_app b x y :
  guarded b (x ++ y) = guarded b x && guarded (guardAfter b x) y.
Proof.
  revert b. induction x as [|c x IH]; intros b; [reflexivity|].
  cbn [app guarded guardAfter]. rewrite IH, andb_assoc. reflexivity.
Qed.

Lemma guarded_weaken b s : guarded b s = true -> guarded true s = true.
Proof.
  destruct s as [|c s]; [reflexivity|]. cbn [guarded]. intros H.
  apply andb_prop in H as [_ H]. rewrite H.
  destruct (c =? 91)%N; reflexivity.
Qed.

Lemma guarded_false b s : guarded false s = true -> guarded b s = true.
Proof.
  destruct s as [|c s]; [reflexivity|]. cbn [guarded].
  destruct (c =? 91)%N; [discriminate|auto].
Qed.

Lemma guardAfter_last b b' x : x <> [] -> guardAfter b x = guardAfter b' x.
Proof. destruct x; [contradiction|reflexivity]. Qed.

(** After the pass of the brackets, every bracket is guarded. *)
Lemma bracket_guards prev s :
  guarded false (replaceAt escBracket backslash1 prev s) = true.
Proof.
  apply (replaceAt_induction escBracket_consuming)
    with (P := fun _ _ out => guarded false out = true); clear prev s.
  - reflexivity.
  - intros prev c s N IH. cbn [guarded].
    rewrite (guarded_false (guard c) _ IH), andb_true_r.
    destruct (N.eqb_spec c 91) as [->|]; [discriminate|reflexivity].
  - intros prev m t w rest Hre Hm IH.
    apply alternatives_Some in Hre as (a & r & I & -> & _).
    cbn [In] in I. destruct I as [<-|[<-|[]]]; cbn; exact IH.
Qed.

(** A pass that puts a backslash before matches that do not start with a
    bracket keeps the brackets guarded. *)
Lemma guarded_pass re :
  consuming re -> wholeMatch re ->
  (forall prev s m, re prev s = Some m ->
     match matched m with c :: _ => (c =? 91)%N = false | [] => True end) ->
  forall prev s b,
    guarded b s = true -> guarded b (replaceAt re backslash1 prev s) = true.
Proof.
  intros C W H prev s.
  apply (replaceAt_induction C)
    with (P := fun _ s out =>
                 forall b, guarded b s = true -> guarded b out = true);
    clear prev s.
  - auto.
  - intros prev c s _ IH b G. cbn [guarded] in *.
    apply andb_prop in G as [G1 G2]. rewrite G1, (IH _ G2). reflexivity.
  - intros prev m t w rest Hre Hm IH b G.
    pose proof (H _ _ _ Hre) as Hd. unfold backslash1.
    rewrite (W _ _ _ Hre), Hm in *.
    replace (t ++ w :: rest) with ((t ++ [w]) ++ rest) in G
      by (rewrite <- app_assoc; reflexivity).
    rewrite guarded_app in G. apply andb_prop in G as [G1 G2].
    assert (Ne : t ++ [w] <> []) by (destruct t; discriminate).
    cbn [app guarded]. change (BACKSLASH =? 91)%N with false.
    change (guard BACKSLASH) with true. cbn match. cbn [andb].
    rewrite guarded_app, (guarded_weaken b _ G1).
    rewrite (guardAfter_last true b _ Ne). apply IH. exact G2.
Qed.

Lemma whiteSpace_not_bracket c : isWhiteSpace c = true -> (c =? 91)%N = false.
Proof.
  intros W. destruct (N.eqb_spec c 91) as [->|]; [discriminate|reflexivity].
Qed.

(** The head of a match after an indentation. *)
Lemma afterIndent_head body prev s m :
  (forall r t, body r = Some t ->
     match t with c :: _ => (c =? 91)%N = false | [] => True end) ->
  afterIndent body prev s = Some m ->
  match matched m with c :: _ => (c =? 91)%N = false | [] => True end.
Proof.
  intros B H. apply afterIndent_Some in H as (t & Ht & ->).
  cbn [matched whole]. pose proof (span_forall isWhiteSpace s) as F.
  destruct (fst (span isWhiteSpace s)) as [|c ws].
  - cbn [app]. apply (B _ _ Ht).
  - cbn [app]. cbn [forallb] in F. apply andb_prop in F as [F _].
    apply whiteSpace_not_bracket, F.
Qed.

Lemma escQuote_head prev s m :
  escQuote prev s = Some m ->
  match matched m with c :: _ => (c =? 91)%N = false | [] => True end.
Proof.
  apply afterIndent_head. intros r t.
  destruct r as [|g [|w r]]; try discriminate.
  destruct (g =? GT)%N eqn:E; [|discriminate]. cbn [andb].
  destruct (isWhiteSpace w); [|discriminate]. intros [= <-].
  apply N.eqb_eq in E. subst g. reflexivity.
Qed.

Lemma escRule_head prev s m :
  escRule prev s = Some m ->
  match matched m with c :: _ => (c =? 91)%N = false | [] => True end.
Proof.
  apply afterIndent_head. intros r t.
  set (p := fun c => ((c =? DASH) || (c =? STAR) || (c =? UNDERSCORE))%N).
  pose proof (span_forall p r) as F.
  destruct (span p r) as [marks rest]. cbn [fst] in F.
  destruct (Nat.leb_spec 3 (length marks)) as [L|]; [|discriminate].
  destruct (span isWhiteSpace rest) as [ws rest'].
  destruct (spaceToLineEnd ws (atEnd rest')) as [x|]; [|discriminate].
  cbn [option_map]. intros [= <-].
  destruct marks as [|c marks]; [simpl in L; lia|]. cbn [app].
  cbn [forallb] in F. apply andb_prop in F as [F _]. unfold p in F.
  destruct (N.eqb_spec c 91) as [->|]; [discriminate|reflexivity].
Qed.

Lemma escBacktick_head prev s m :
  escBacktick prev s = Some m ->
  match matched m with c :: _ => (c =? 91)%N = false | [] => True end.
Proof.
  intros H. apply escBacktick_Some in H as (t & r & -> & N & _ & F).
  cbn [matched whole]. destruct t as [|c t]; [exact I|].
  cbn [forallb] in F. apply andb_prop in F as [F _].
  apply N.eqb_eq in F. subst c. reflexivity.
Qed.

Lemma escPipe_head prev s m :
  escPipe prev s = Some m ->
  match matched m with c :: _ => (c =? 91)%N = false | [] => True end.
Proof.
  intros H. apply alternatives_Some in H as (a & r & I & -> & _).
  cbn [In] in I. destruct I as [<-|[]]. reflexivity.
Qed.

(** The pass of the task lists needs a bracket after a space. *)
Lemma escTask_guarded b prev s :
  guarded b s = true -> escTask prev s = None.
Proof.
  intros G. destruct (escTask prev s) as [m|] eqn:E; [|reflexivity].
  exfalso. unfold escTask in E. apply afterIndent_Some in E as (t & Ht & _).
  destruct (stripPrefix (lit "- [ ]") (snd (span isWhiteSpace s)))
    as [r|] eqn:P; [|discriminate].
  apply stripPrefix_Some in P. rewrite <- (span_app isWhiteSpace s), P in G.
  rewrite guarded_app in G. apply andb_prop in G as [_ G].
  cbn in G. discriminate.
Qed.

Lemma task_pass_fixed b prev s :
  guarded b s = true -> replaceAt escTask backslash1 prev s = s.
Proof.
  intros G.
  apply replaceAt_closed
    with (Q := fun _ s => exists b, guarded b s = true).
  - intros _ c t [b' H]. cbn [guarded] in H. apply andb_prop in H as [_ H].
    eauto.
  - intros p t [b' H]. apply (escTask_guarded b' p t H).
  - eauto.
Qed.

(** X9.  The pass of line 119 (the task lists) never finds a match: the
    pass of line 109 has put a backslash before every opening bracket, so
    the chain gives the same text without that pass. *)
Theorem task_pass_finds_nothing md :
  escapeChain md = escapeChainWithoutTask md.
Proof.
  unfold escapeChain, escapeChainWithoutTask, replace. f_equal.
  apply task_pass_fixed with (b := false).
  apply (guarded_pass escPipe escPipe_consuming
           (alternatives_whole [[PIPE]]) escPipe_head).
  apply (guarded_pass escRule escRule_consuming
           (afterIndent_whole _) escRule_head).
  apply (guarded_pass escQuote escQuote_consuming
           (afterIndent_whole _) escQuote_head).
  apply (guarded_pass escBacktick escBacktick_consuming
           escBacktick_whole escBacktick_head).
  apply bracket_guards.
Qed.

(** ** Stage 2 on the start of a line *)

Lemma plainChar_spec c :
  plainChar c = true ->
  (c =? STAR)%N = false /\ (c =? UNDERSCORE)%N = false /\ (c =? 91)%N = false
  /\ (c =? PIPE)%N = false /\ (c =? 33)%N = false
  /\ (c =? BACKTICK)%N = false /\ (c =? LT)%N = false.
Proof.
  unfold plainChar. intros H. repeat (apply andb_prop in H as [H ?]).
  apply negb_true_iff, special_spec in H as (S1 & S2 & S3 & S4).
  repeat split; try assumption; apply negb_true_iff; assumption.
Qed.

Lemma whiteSpace_plainChar w : isWhiteSpace w = true -> plainChar w = true.
Proof.
  intros W. destruct (whiteSpace_plain w W) as (S & B & L & E).
  unfold plainChar. rewrite S, B, L, E. reflexivity.
Qed.

Lemma neutral_plainChar c : neutral c = true -> plainChar c = true.
Proof.
  intros N. apply neutral_spec in N as (_ & S & E & B & L).
  unfold plainChar. rewrite S, B, L, E. reflexivity.
Qed.

Lemma last_snoc_some (pre : str) w prev :
  last (map Some (pre ++ [w])) prev = Some w.
Proof.
  rewrite map_app. cbn [map]. apply last_last.
Qed.

Lemma over_chars re f (p : char -> bool) pre w :
  (forall prev c t, p c = true -> re prev (c :: t) = None) ->
  forallb p pre = true -> p w = true -> passesOver (re, f) pre w.
Proof.
  intros H P W prev X. cbn [fst snd].
  replace (pre ++ w :: X) with ((pre ++ [w]) ++ X)
    by (rewrite <- app_assoc; reflexivity).
  rewrite (replaceAt_skip re f p (pre ++ [w]) H).
  - rewrite last_snoc_some, <- app_assoc. reflexivity.
  - rewrite forallb_app, P. cbn [forallb]. rewrite W. reflexivity.
Qed.

Lemma escEmphasis_plain prev c t :
  plainChar c = true -> escEmphasis prev (c :: t) = None.
Proof.
  intros H. apply plainChar_spec in H as (S1 & S2 & _).
  unfold escEmphasis. cbn [alternatives stripPrefix].
  rewrite (N.eqb_sym STAR c), (N.eqb_sym UNDERSCORE c), S1, S2. reflexivity.
Qed.

Lemma escBracket_plain prev c t :
  plainChar c = true -> escBracket prev (c :: t) = None.
Proof.
  intros H. apply plainChar_spec in H as (_ & _ & S3 & _ & S5 & _).
  unfold escBracket.
  change (lit "![") with [33%N; 91%N]. change (lit "[") with [91%N].
  cbn [alternatives stripPrefix].
  rewrite (N.eqb_sym 33 c), (N.eqb_sym 91 c), S3, S5. reflexivity.
Qed.

Lemma escBacktick_plain prev c t :
  plainChar c = true -> escBacktick prev (c :: t) = None.
Proof.
  intros H. apply plainChar_spec in H as (_ & _ & _ & _ & _ & S6 & _).
  apply escBacktick_other, S6.
Qed.

Lemma escPipe_plain prev c t :
  plainChar c = true -> escPipe prev (c :: t) = None.
Proof.
  intros H. apply plainChar_spec in H as (_ & _ & _ & S4 & _).
  apply alternatives_single. rewrite N.eqb_sym. exact S4.
Qed.

Lemma codeOrTag_plain prev c t :
  plainChar c = true -> codeOrTag prev (c :: t) = None.
Proof.
  intros H. apply plainChar_spec in H as (_ & _ & _ & _ & _ & S6 & S7).
  unfold codeOrTag. cbn [codeSpan htmlTag]. rewrite S6, S7. reflexivity.
Qed.

Lemma over_heading f pre w :
  forallb (fun c => negb (HASH =? c)%N) pre = true -> isWhiteSpace w = true ->
  passesOver (escHeading, f) pre w.
Proof.
  intros P W. apply over_chars with (p := fun c => negb (HASH =? c)%N).
  - intros prev c t H. apply negb_true_iff in H.
    unfold escHeading, headingRegex. destruct (atLineStart prev); [|reflexivity].
    rewrite (headingMarker_head c t H). reflexivity.
  - exact P.
  - rewrite (whiteSpace_not_hash w W). reflexivity.
Qed.

(** An anchored pass inside a line. *)
Lemma indent_tail body f m w X :
  forallb (fun c => negb (isWhiteSpace c)) m = true ->
  forall prev, atLineStart prev = false ->
  replaceAt (afterIndent body) f prev (m ++ w :: X)
  = m ++ w :: replaceAt (afterIndent body) f (Some w) X.
Proof.
  induction m as [|c m IH]; intros M prev L.
  - cbn [app]. rewrite replaceAt_nomatch
      by (apply afterIndent_anchored; exact L).
    reflexivity.
  - cbn [forallb] in M. apply andb_prop in M as [Mc M].
    apply negb_true_iff in Mc. cbn [app].
    rewrite replaceAt_nomatch by (apply afterIndent_anchored; exact L).
    rewrite IH; [reflexivity|exact M|].
    cbn [atLineStart]. destruct (isLineTerminator c) eqn:T; [|reflexivity].
    pose proof (lineStart_spaceBefore (Some c) T) as S.
    cbn [spaceBefore] in S. congruence.
Qed.

(** An anchored pass over an indentation and what stands after it, when
    its body fails there. *)
Lemma over_indent body f ws c0 mt w :
  forallb isWhiteSpace ws = true ->
  forallb (fun c => negb (isWhiteSpace c)) (c0 :: mt) = true ->
  (forall X, body (c0 :: mt ++ w :: X) = None) ->
  passesOver (afterIndent body, f) (ws ++ c0 :: mt) w.
Proof.
  intros W M B prev X. cbn [fst snd]. rewrite <- app_assoc. cbn [app].
  cbn [forallb] in M. apply andb_prop in M as [M0 M].
  apply negb_true_iff in M0.
  assert (L0 : atLineStart (Some c0) = false).
  { cbn [atLineStart]. destruct (isLineTerminator c0) eqn:T; [|reflexivity].
    pose proof (lineStart_spaceBefore (Some c0) T) as S.
    cbn [spaceBefore] in S. congruence. }
  revert prev. induction ws as [|c ws IH]; intros prev.
  - cbn [app]. rewrite replaceAt_nomatch.
    + rewrite (indent_tail body f mt w X M (Some c0) L0). reflexivity.
    + unfold afterIndent. destruct (atLineStart prev); [|reflexivity].
      cbn [span]. rewrite M0, B. reflexivity.
  - cbn [forallb] in W. apply andb_prop in W as [Wc W]. cbn [app].
    rewrite replaceAt_nomatch.
    + rewrite (IH W). reflexivity.
    + unfold afterIndent. destruct (atLineStart prev); [|reflexivity].
      change (c :: ws ++ c0 :: mt ++ w :: X)
        with ((c :: ws) ++ c0 :: mt ++ w :: X).
      rewrite span_run
        by ((cbn [forallb]; rewrite Wc; exact W) || exact M0).
      rewrite B. reflexivity.
Qed.

Lemma over_indent_backslash body f ws c0 mt w :
  forallb isWhiteSpace ws = true ->
  forallb (fun c => negb (isWhiteSpace c)) (c0 :: mt) = true ->
  (forall X, body (c0 :: mt ++ w :: X) = None) ->
  (forall Y, body (BACKSLASH :: Y) = None) ->
  passesOver (afterIndent body, f) (BACKSLASH :: ws ++ c0 :: mt) w.
Proof.
  intros W M B B0 prev X. cbn [fst snd app].
  rewrite replaceAt_nomatch.
  - f_equal. apply (over_indent body f ws c0 mt w W M B (Some BACKSLASH) X).
  - unfold afterIndent. destruct (atLineStart prev); [|reflexivity].
    cbn [span]. change (isWhiteSpace BACKSLASH) with false. cbn match.
    rewrite B0. reflexivity.
Qed.

(** One pass on running text. *)
Lemma inline_step prev t i rule :
  inlineFrom prev t = true -> nth_error escapeRules i = Some rule ->
  replaceAt (fst rule) (snd rule) prev (escapeWhere (escapedAfter i) t)
  = escapeWhere (escapedAfter (S i)) t.
Proof.
  intros T N.
  assert (I : (i < length escapeRules)%nat)
    by (apply nth_error_Some; rewrite N; discriminate).
  change (length escapeRules) with 11%nat in I.
  rewrite <- (inline_steps prev t (S i) T) by lia.
  rewrite (firstn_snoc _ _ _ N), runFrom_app.
  rewrite (inline_steps prev t i T) by lia. reflexivity.
Qed.

Lemma guarded_escapeWhere p t :
  p 91%N = true -> forall b, guarded b (escapeWhere p t) = true.
Proof.
  intros P. induction t as [|c t IH]; intros b; [reflexivity|].
  rewrite escapeWhere_cons. destruct (p c) eqn:E.
  - cbn [guarded]. change (BACKSLASH =? 91)%N with false.
    change (guard BACKSLASH) with true. cbn match. cbn [andb].
    rewrite IH. destruct (c =? 91)%N; reflexivity.
  - cbn [guarded]. rewrite IH, andb_true_r.
    destruct (N.eqb_spec c 91) as [->|]; [congruence|reflexivity].
Qed.

Lemma guarded_plain pre X :
  forallb plainChar pre = true -> (forall b, guarded b X = true) ->
  forall b, guarded b (pre ++ X) = true.
Proof.
  intros P G. induction pre as [|c pre IH]; intros b; [apply G|].
  cbn [forallb] in P. apply andb_prop in P as [Pc P].
  apply plainChar_spec in Pc as (_ & _ & S3 & _).
  cbn [app guarded]. rewrite S3, (IH P). reflexivity.
Qed.

Lemma nth_error_firstn_lt {A} (l : list A) i j :
  (i < j)%nat -> nth_error (firstn j l) i = nth_error l i.
Proof.
  revert i j. induction l as [|x l IH]; intros i j L.
  - destruct j, i; reflexivity.
  - destruct j as [|j]; [lia|]. destruct i as [|i]; [reflexivity|].
    cbn [firstn nth_error]. apply IH. lia.
Qed.

(** The chain on a text that starts with [pre ++ [w]], which pass [j + 1]
    takes at the start and on which the other passes find no match. *)
Lemma start_escaped pre w j re t :
  nth_error escapeRules j = Some (re, backslash1) -> (j < 9)%nat ->
  isWhiteSpace w = true -> forallb plainChar pre = true ->
  Forall (fun rule => passesOver rule pre w) (firstn j escapeRules) ->
  (forall X, replaceAt re backslash1 None (pre ++ w :: X)
             = BACKSLASH :: pre ++ w :: replaceAt re backslash1 (Some w) X) ->
  (forall i rule, (j < i)%nat -> i <> 9%nat ->
     nth_error escapeRules i = Some rule ->
     passesOver rule (BACKSLASH :: pre) w) ->
  inlineFrom None t = true ->
  escapeStage (pre ++ w :: t)
  = (BACKSLASH :: pre ++ w :: escapeWhere special t, true).
Proof.
  intros Hn J W P H1 H2 H3 T.
  pose proof T as Tw. rewrite <- (inlineFrom_space w t W) in Tw.
  assert (G : forall i, (i <= 11)%nat ->
    runFrom None (firstn i escapeRules) (pre ++ w :: t)
    = (if (i <=? j)%nat then pre else BACKSLASH :: pre)
        ++ w :: escapeWhere (escapedAfter i) t).
  { induction i as [|i IH]; intros I.
    - cbn [firstn runFrom fold_left Nat.leb].
      rewrite escapeWhere_none by reflexivity. reflexivity.
    - destruct (nth_error escapeRules i) as [rule|] eqn:N.
      2:{ apply nth_error_None in N.
          change (length escapeRules) with 11%nat in N. lia. }
      rewrite (firstn_snoc _ _ _ N), runFrom_app, IH by lia.
      unfold runFrom at 1. cbn [fold_left].
      pose proof (inline_step (Some w) t i rule Tw N) as K.
      destruct (Nat.leb_spec (S i) j) as [L|L].
      + destruct (Nat.leb_spec i j); [|lia].
        assert (R : In rule (firstn j escapeRules)).
        { apply nth_error_In with (n := i).
          rewrite nth_error_firstn_lt by lia. exact N. }
        rewrite Forall_forall in H1. rewrite (H1 rule R None), K. reflexivity.
      + destruct (Nat.leb_spec i j) as [L'|L'].
        * assert (i = j) by lia. subst i. rewrite Hn in N.
          injection N as <-. cbn [fst snd] in *. rewrite H2, K. reflexivity.
        * destruct (Nat.eq_dec i 9) as [->|N9].
          -- cbn in N. injection N as <-. cbn [fst snd] in *.
             rewrite (task_pass_fixed false).
             ++ reflexivity.
             ++ cbn [app guarded]. change (BACKSLASH =? 91)%N with false.
                cbn match. cbn [andb].
                apply guarded_plain; [exact P|]. intros b. cbn [guarded].
                destruct (whiteSpace_plain w W) as (S & _).
                apply special_spec in S as (_ & _ & S3 & _). rewrite S3.
                apply guarded_escapeWhere. reflexivity.
          -- rewrite (H3 i rule ltac:(lia) N9 N None), K. reflexivity. }
  assert (E : escapeChain (pre ++ w :: t)
              = BACKSLASH :: pre ++ w :: escapeWhere special t).
  { rewrite escapeChain_rules.
    change escapeRules with (firstn 11 escapeRules). rewrite G by lia.
    destruct (Nat.leb_spec 11 j); [lia|].
    rewrite (escapeWhere_ext (escapedAfter 11) special)
      by apply escapedAfter_all.
    reflexivity. }
  unfold escapeStage. rewrite E. f_equal. apply neqb_true. intros Q.
  apply (f_equal (@length char)) in Q. cbn [length] in Q.
  rewrite !length_app in Q. cbn [length] in Q.
  pose proof (escapeWhere_length special t). lia.
Qed.

Lemma over_indent_both body f ws c0 mt w :
  forallb isWhiteSpace ws = true ->
  forallb (fun c => negb (isWhiteSpace c)) (c0 :: mt) = true ->
  (forall X, body (c0 :: mt ++ w :: X) = None) ->
  (forall Y, body (BACKSLASH :: Y) = None) ->
  passesOver (afterIndent body, f) (ws ++ c0 :: mt) w
  /\ passesOver (afterIndent body, f) (BACKSLASH :: ws ++ c0 :: mt) w.
Proof.
  intros W M B B0. split.
  - apply over_indent; assumption.
  - apply over_indent_backslash; assumption.
Qed.

Lemma over_bullet f ws c0 mt w :
  forallb isWhiteSpace ws = true ->
  forallb (fun c => negb (isWhiteSpace c)) (c0 :: mt) = true ->
  ((c0 =? DASH) || (c0 =? PLUS) || (c0 =? STAR))%N = false ->
  passesOver (escBullet, f) (ws ++ c0 :: mt) w
  /\ passesOver (escBullet, f) (BACKSLASH :: ws ++ c0 :: mt) w.
Proof.
  intros W M C. unfold escBullet. apply over_indent_both; try assumption.
  - intros X. destruct (mt ++ w :: X); [reflexivity|]. rewrite C. reflexivity.
  - intros [|y Y]; reflexivity.
Qed.

Lemma over_ordered f ws c0 mt w :
  forallb isWhiteSpace ws = true ->
  forallb (fun c => negb (isWhiteSpace c)) (c0 :: mt) = true ->
  isDigit c0 = false ->
  passesOver (escOrdered, f) (ws ++ c0 :: mt) w
  /\ passesOver (escOrdered, f) (BACKSLASH :: ws ++ c0 :: mt) w.
Proof.
  intros W M C. unfold escOrdered. apply over_indent_both; try assumption.
  - intros X. cbn [span]. rewrite C. reflexivity.
  - intros Y. reflexivity.
Qed.

Lemma over_quote f ws c0 mt w :
  forallb isWhiteSpace ws = true ->
  forallb (fun c => negb (isWhiteSpace c)) (c0 :: mt) = true ->
  (c0 =? GT)%N = false ->
  passesOver (escQuote, f) (ws ++ c0 :: mt) w
  /\ passesOver (escQuote, f) (BACKSLASH :: ws ++ c0 :: mt) w.
Proof.
  intros W M C. unfold escQuote. apply over_indent_both; try assumption.
  - intros X. destruct (mt ++ w :: X); [reflexivity|]. rewrite C. reflexivity.
  - intros [|y Y]; reflexivity.
Qed.

Lemma whiteSpace_no_mark w :
  isWhiteSpace w = true ->
  ((w =? DASH) || (w =? STAR) || (w =? UNDERSCORE))%N = false.
Proof.
  intros W. destruct (whiteSpace_plain w W) as (S & _).
  apply special_spec in S as (S1 & S2 & _). rewrite S1, S2.
  destruct (N.eqb_spec w DASH) as [->|]; [discriminate|reflexivity].
Qed.

Lemma over_rule f ws c0 mt w :
  forallb isWhiteSpace ws = true ->
  forallb (fun c => negb (isWhiteSpace c)) (c0 :: mt) = true ->
  forallb (fun c => negb ((c =? DASH) || (c =? STAR) || (c =? UNDERSCORE))%N)
    mt = true ->
  isWhiteSpace w = true ->
  passesOver (escRule, f) (ws ++ c0 :: mt) w
  /\ passesOver (escRule, f) (BACKSLASH :: ws ++ c0 :: mt) w.
Proof.
  intros W M C Ww. unfold escRule. apply over_indent_both; try assumption.
  - intros X.
    assert (S : span (fun c => ((c =? DASH) || (c =? STAR) || (c =? UNDERSCORE))%N)
                  (mt ++ w :: X) = ([], mt ++ w :: X)).
    { destruct mt as [|c1 mt]; cbn [app span].
      - rewrite (whiteSpace_no_mark w Ww). reflexivity.
      - cbn [forallb] in C. apply andb_prop in C as [C _].
        apply negb_true_iff in C. rewrite C. reflexivity. }
    cbn [span]. rewrite S.
    destruct ((c0 =? DASH) || (c0 =? STAR) || (c0 =? UNDERSCORE))%N; reflexivity.
  - intros Y. reflexivity.
Qed.

Lemma neutral_no_space m :
  forallb neutral m = true ->
  forallb (fun c => negb (isWhiteSpace c)) m = true.
Proof.
  induction m as [|c m IH]; [reflexivity|]. cbn [forallb]. intros H.
  apply andb_prop in H as [Hc H]. apply neutral_spec in Hc as (Wc & _).
  rewrite Wc, (IH H). reflexivity.
Qed.

Lemma plainChar_start ws m :
  forallb isWhiteSpace ws = true -> forallb neutral m = true ->
  forallb plainChar (ws ++ m) = true.
Proof.
  intros W M. rewrite forallb_app. apply andb_true_intro. split.
  - rewrite forallb_forall in *. intros c I. apply whiteSpace_plainChar, W, I.
  - rewrite forallb_forall in *. intros c I. apply neutral_plainChar, M, I.
Qed.

Lemma no_hash_start ws m :
  forallb isWhiteSpace ws = true ->
  forallb (fun c => negb (HASH =? c)%N) m = true ->
  forallb (fun c => negb (HASH =? c)%N) (ws ++ m) = true.
Proof.
  intros W M. rewrite forallb_app, M, andb_true_r.
  rewrite forallb_forall in *. intros c I.
  rewrite (whiteSpace_not_hash c (W c I)). reflexivity.
Qed.

(** An inline pass or the last pass over the start of a line, with or
    without the backslash. *)
Lemma over_inline re f ws m w :
  (forall prev c t, plainChar c = true -> re prev (c :: t) = None) ->
  forallb isWhiteSpace ws = true -> forallb neutral m = true ->
  isWhiteSpace w = true ->
  passesOver (re, f) (ws ++ m) w
  /\ passesOver (re, f) (BACKSLASH :: ws ++ m) w.
Proof.
  intros H W M Ww. pose proof (plainChar_start ws m W M) as P.
  split; apply over_chars with (p := plainChar);
    solve [ assumption | apply whiteSpace_plainChar; exact Ww
          | cbn [forallb]; rewrite P; reflexivity ].
Qed.

(** The match of an anchored pass at the start of the text. *)
Lemma indent_match body ws marker w X :
  forallb isWhiteSpace ws = true ->
  (forall c Y, marker ++ w :: X = c :: Y -> isWhiteSpace c = false) ->
  body (marker ++ w :: X) = Some (marker ++ [w]) ->
  replaceAt (afterIndent body) backslash1 None ((ws ++ marker) ++ w :: X)
  = BACKSLASH :: (ws ++ marker) ++ w
      :: replaceAt (afterIndent body) backslash1 (Some w) X.
Proof.
  intros W C B.
  assert (M : afterIndent body None ((ws ++ marker) ++ w :: X)
              = Some (whole ((ws ++ marker) ++ [w]))).
  { unfold afterIndent. cbn [atLineStart]. rewrite <- app_assoc.
    destruct (marker ++ w :: X) as [|c Y] eqn:E.
    - destruct marker; discriminate.
    - rewrite span_run by (exact W || exact (C c Y eq_refl)).
      rewrite B. cbn [option_map]. rewrite <- !app_assoc. reflexivity. }
  rewrite replaceAt_match with (m := whole ((ws ++ marker) ++ [w]))
    by (exact M || reflexivity).
  cbn [backslash1 group whole groups nth pred app]. rewrite <- !app_assoc.
  reflexivity.
Qed.

Ltac passBoth :=
  first
    [ apply (over_inline escEmphasis); [apply escEmphasis_plain|..]
    | apply (over_inline escBracket); [apply escBracket_plain|..]
    | apply (over_inline escBacktick); [apply escBacktick_plain|..]
    | apply (over_inline escPipe); [apply escPipe_plain|..]
    | apply (over_inline codeOrTag); [apply codeOrTag_plain|..]
    | apply over_bullet | apply over_ordered | apply over_quote
    | apply over_rule ].

Ltac passOver :=
  first
    [ apply over_heading; [apply no_hash_start|]
    | eapply proj1; passBoth
    | eapply proj2; passBoth ];
  try solve [ assumption | reflexivity ].

Ltac passesBefore := cbn [firstn escapeRules]; repeat (constructor; [passOver|]);
  try constructor.

Ltac passesAfter :=
  let i := fresh "i" in
  let rule := fresh "rule" in
  let Hi := fresh "Hi" in
  let H9 := fresh "H9" in
  let Hn := fresh "Hn" in
  intros i rule Hi H9 Hn;
  do 11 (destruct i as [|i];
         [first [ lia | congruence
                | cbn [nth_error escapeRules] in Hn; injection Hn as <-;
                  passOver ]|]);
  destruct i; discriminate.

Lemma digit_other d :
  isDigit d = true ->
  ((d =? DASH) || (d =? PLUS) || (d =? STAR))%N = false
  /\ (d =? GT)%N = false /\ (HASH =? d)%N = false
  /\ ((d =? DASH) || (d =? STAR) || (d =? UNDERSCORE))%N = false.
Proof.
  intros H. apply digit_range in H.
  unfold DASH, PLUS, STAR, GT, HASH, UNDERSCORE.
  repeat match goal with
         | |- context [(?x =? ?y)%N] => destruct (N.eqb_spec x y); [lia|]
         end.
  repeat split.
Qed.

Lemma digits_other digits :
  forallb isDigit digits = true ->
  forallb (fun c => negb (HASH =? c)%N) (digits ++ [DOT]) = true
  /\ forallb
       (fun c => negb ((c =? DASH) || (c =? STAR) || (c =? UNDERSCORE))%N)
       (digits ++ [DOT]) = true.
Proof.
  induction digits as [|d digits IH]; [split; reflexivity|].
  cbn [forallb app]. intros H. apply andb_prop in H as [Hd H].
  destruct (digit_other d Hd) as (_ & _ & D3 & D4).
  destruct (IH H) as [I1 I2]. rewrite D3, D4, I1, I2. split; reflexivity.
Qed.

Lemma hashes_no_mark n :
  forallb (fun c => negb ((c =? DASH) || (c =? STAR) || (c =? UNDERSCORE))%N)
    (List.repeat HASH n) = true.
Proof. induction n as [|n IH]; [reflexivity|]. exact IH. Qed.

(** X10.  The start of a line before running text: 1 to 6 hashes; or
    white space (an indentation, also line breaks) and a dash or a plus,
    the number and dot of an ordered list, or a closing angle; each with
    the white-space character after it.  The escaping puts one backslash
    at the start of the text, before the white space, escapes the inline
    markers of the rest, and sets the flag. *)
Theorem escape_line_start start t :
  lineStart start -> inlineFrom None t = true ->
  escapeStage (start ++ t)
  = (BACKSLASH :: start ++ escapeWhere special t, true).
Proof.
  intros S T.
  destruct S as [n w N W|ws b w Ws B W|ws d digits w Ws D W|ws w Ws W].
  - destruct n as [|n]; [lia|].
    assert (E : forall Y, (List.repeat HASH (S n) ++ [w]) ++ Y
                         = ([] ++ HASH :: List.repeat HASH n) ++ w :: Y)
      by (intros Y; cbn [List.repeat app]; rewrite <- app_assoc; reflexivity).
    rewrite !E.
    assert (Ws : forallb isWhiteSpace [] = true) by reflexivity.
    pose proof (neutral_hashes (S n)) as M0. cbn [List.repeat] in M0.
    pose proof (neutral_no_space _ M0) as M1.
    pose proof (hashes_no_mark n) as M2.
    apply (start_escaped ([] ++ HASH :: List.repeat HASH n) w 0 escHeading t);
      try assumption; try reflexivity; try lia.
    + apply plainChar_start; assumption.
    + constructor.
    + intros X. cbn [app].
      change (HASH :: List.repeat HASH n ++ w :: X)
        with (List.repeat HASH (S n) ++ w :: X).
      rewrite replaceAt_match
        with (m := whole (List.repeat HASH (S n) ++ [w])).
      * cbn [backslash1 group whole groups nth pred app List.repeat].
        rewrite <- app_assoc. reflexivity.
      * unfold escHeading, headingRegex. cbn [atLineStart].
        rewrite headingMarker_run
          by (apply repeat_hashes || apply whiteSpace_not_hash; exact W).
        rewrite repeat_length, W.
        destruct (Nat.leb_spec 1 (S n)); [|lia].
        destruct (Nat.leb_spec (S n) 6); [|lia]. reflexivity.
      * reflexivity.
    + passesAfter.
  - assert (E : forall Y, (ws ++ [b; w]) ++ Y = (ws ++ b :: []) ++ w :: Y)
      by (intros Y; rewrite <- !app_assoc; reflexivity).
    rewrite !E.
    assert (M0 : forallb neutral [b] = true)
      by (destruct B as [-> | ->]; reflexivity).
    pose proof (neutral_no_space _ M0) as M1.
    apply (start_escaped (ws ++ b :: []) w 2 escBullet t);
      try assumption; try reflexivity; try lia.
    + apply plainChar_start; assumption.
    + destruct B as [-> | ->]; passesBefore.
    + intros X. unfold escBullet. apply indent_match; [exact Ws| |].
      * intros c Y Q. injection Q as <- _.
        destruct B as [-> | ->]; reflexivity.
      * cbn [app]. rewrite W. destruct B as [-> | ->]; reflexivity.
    + destruct B as [-> | ->]; passesAfter.
  - assert (E : forall Y, (ws ++ d :: digits ++ [DOT; w]) ++ Y
                         = (ws ++ d :: digits ++ [DOT]) ++ w :: Y)
      by (intros Y; rewrite <- !app_assoc; cbn [app]; rewrite <- !app_assoc;
          reflexivity).
    rewrite !E.
    cbn [forallb] in D. apply andb_prop in D as [Dd D].
    assert (M0 : forallb neutral (d :: digits ++ [DOT]) = true)
      by (cbn [forallb]; rewrite (digit_neutral d Dd), (neutral_digits _ D);
          reflexivity).
    pose proof (neutral_no_space _ M0) as M1.
    destruct (digit_other d Dd) as (D1 & D2 & D3 & D4).
    destruct (digits_other digits D) as (D5 & D6).
    assert (D7 : forallb (fun c => negb (HASH =? c)%N) (d :: digits ++ [DOT])
                 = true) by (cbn [forallb]; rewrite D3; exact D5).
    apply (start_escaped (ws ++ d :: digits ++ [DOT]) w 3 escOrdered t);
      try assumption; try reflexivity; try lia.
    + apply plainChar_start; assumption.
    + passesBefore.
    + intros X. unfold escOrdered. apply indent_match; [exact Ws| |].
      * intros c Y Q. injection Q as <- _.
        cbn [forallb] in M1.
        apply andb_prop in M1 as [M1 _]. apply negb_true_iff in M1. exact M1.
      * change ((d :: digits ++ [DOT]) ++ w :: X)
          with (d :: (digits ++ [DOT]) ++ w :: X).
        rewrite <- app_assoc. cbn [app].
        change (d :: digits ++ DOT :: w :: X)
          with ((d :: digits) ++ DOT :: w :: X).
        rewrite span_run
          by ((cbn [forallb]; rewrite Dd; exact D) || reflexivity).
        rewrite W. cbn [app]. rewrite N.eqb_refl. cbn [andb].
        rewrite <- app_assoc. reflexivity.
    + passesAfter.
  - assert (E : forall Y, (ws ++ [GT; w]) ++ Y = (ws ++ GT :: []) ++ w :: Y)
      by (intros Y; rewrite <- !app_assoc; reflexivity).
    rewrite !E.
    assert (M0 : forallb neutral [GT] = true) by reflexivity.
    pose proof (neutral_no_space _ M0) as M1.
    apply (start_escaped (ws ++ GT :: []) w 6 escQuote t);
      try assumption; try reflexivity; try lia.
    + apply plainChar_start; assumption.
    + passesBefore.
    + intros X. unfold escQuote. apply indent_match; [exact Ws| |].
      * intros c Y Q. injection Q as <- _. reflexivity.
      * cbn [app]. rewrite W. reflexivity.
    + passesAfter.
Qed.

Lemma escape_line_start_witness :
  escapeStage (lit "## Title with *stars*")
  = (lit "\## Title with \*stars\*", true)
  /\ escapeStage (LF :: lit "  12. item | cell")
     = (BACKSLASH :: LF :: lit "  12. item \| cell", true).
Proof.
  split.
  - apply (escape_line_start (lit "## ") (lit "Title with *stars*")).
    + apply (@start_heading 2 SPACE); [lia|reflexivity].
    + vm_compute. reflexivity.
  - apply (escape_line_start (LF :: lit "  12. ") (lit "item | cell")).
    + apply (@start_ordered (LF :: lit "  ") 49%N [50%N] SPACE); reflexivity.
    + vm_compute. reflexivity.
Defined.

(** ** Stage 2: texts of several spans and tags *)

Lemma piecesText_cons p ps : piecesText (p :: ps) = pieceText p ++ piecesText ps.
Proof. reflexivity. Qed.







Lemma piecesText_forall (p : char -> bool) ps :
  Forall (fun x => forallb p (pieceText x) = true) ps ->
  forallb p (piecesText ps) = true.
Proof.
  induction 1 as [|x ps H _ IH]; [reflexivity|].
  rewrite piecesText_cons, forallb_app, H, IH. reflexivity.
Qed.














(** ** Stage 3: what the collapse keeps *)

Lemma content_app a b : content (a ++ b) = content a ++ content b.
Proof. apply filter_app. Qed.

Lemma content_run run : forallb (N.eqb LF) run = true -> content run = [].
Proof.
  induction run as [|c run IH]; [reflexivity|]. cbn [forallb]. intros H.
  apply andb_prop in H as [Hc H]. apply N.eqb_eq in Hc. subst c.
  cbn. apply IH, H.
Qed.

Lemma crlf_content prev s : content (crlfFrom prev s) = content s.
Proof.
  apply (replaceAt_induction (literal_consuming [CR; LF] ltac:(discriminate)))
    with (P := fun _ s out => content out = content s); clear prev s.
  - reflexivity.
  - intros prev c s _ IH. unfold content in *. cbn [filter]. rewrite IH.
    reflexivity.
  - intros prev m t w rest Hre Hm IH.
    apply literal_Some in Hre as [-> _]. cbn [matched plain] in Hm.
    replace (t ++ w :: rest) with ((t ++ [w]) ++ rest)
      by (rewrite <- app_assoc; reflexivity).
    rewrite <- Hm, !content_app, IH. reflexivity.
Qed.

Lemma collapse_content prev s :
  content (replaceAt blankRun (fun _ => [LF; LF]) prev s) = content s.
Proof.
  apply (replaceAt_induction blankRun_consuming)
    with (P := fun _ s out => content out = content s); clear prev s.
  - reflexivity.
  - intros prev c s _ IH. unfold content in *. cbn [filter]. rewrite IH.
    reflexivity.
  - intros prev m t w rest Hre Hm IH.
    apply blankRun_Some in Hre as [-> _]. cbn [matched plain] in Hm.
    replace (t ++ w :: rest) with ((t ++ [w]) ++ rest)
      by (rewrite <- app_assoc; reflexivity).
    rewrite <- Hm, !content_app, IH.
    rewrite (content_run _ (span_forall (N.eqb LF) _)). reflexivity.
Qed.

(** X11.  Stage 3 alters line feeds and carriage returns only, and never
    returns a longer text. *)
Theorem collapse_keeps_content md a :
  content (fst (collapseBlankRuns md a)) = content md
  /\ (length (fst (collapseBlankRuns md a)) <= length md)%nat.
Proof.
  unfold collapseBlankRuns. cbn [fst]. split.
  - unfold replace. rewrite collapse_content.
    unfold normalizeLineEndings, replaceLiteral, replace. apply crlf_content.
  - pose proof (collapse_length None (normalizeLineEndings md)) as L1.
    pose proof (crlf_length md None) as L2.
    unfold normalizeLineEndings, replaceLiteral, replace in *. lia.
Qed.

(** ** Stage 3: the texts it returns unchanged *)

Lemma leadingLF_three s :
  (3 <= leadingLF s)%nat -> exists b, s = LF :: LF :: LF :: b.
Proof.
  intros H.
  destruct s as [|c1 s]; [cbn in H; lia|]. rewrite leadingLF_cons in H.
  destruct (N.eqb_spec LF c1) as [<-|]; [|lia].
  destruct s as [|c2 s]; [cbn in H; lia|]. rewrite leadingLF_cons in H.
  destruct (N.eqb_spec LF c2) as [<-|]; [|lia].
  destruct s as [|c3 s]; [cbn in H; lia|]. rewrite leadingLF_cons in H.
  destruct (N.eqb_spec LF c3) as [<-|]; [|lia].
  eauto.
Qed.

Lemma collapse_fixed prev s :
  ~ threeLineFeeds s -> replaceAt blankRun (fun _ => [LF; LF]) prev s = s.
Proof.
  intros H.
  apply replaceAt_closed with (Q := fun _ s => ~ threeLineFeeds s).
  - intros _ c t Hc [a [b E]]. apply Hc. exists (c :: a), b. rewrite E.
    reflexivity.
  - intros p t Ht. destruct (blankRun p t) as [m|] eqn:E; [|reflexivity].
    apply blankRun_Some in E as [_ L]. apply leadingLF_three in L as [b ->].
    exfalso. apply Ht. exists [], b. reflexivity.
  - exact H.
Qed.

Lemma collapse_noCR prev s :
  noCR s = true -> noCR (replaceAt blankRun (fun _ => [LF; LF]) prev s) = true.
Proof.
  apply (replaceAt_induction blankRun_consuming)
    with (P := fun _ s out => noCR s = true -> noCR out = true); clear prev s.
  - auto.
  - intros prev c s _ IH H. unfold noCR in *. cbn [forallb] in *.
    apply andb_prop in H as [Hc H]. rewrite Hc, IH by exact H. reflexivity.
  - intros prev m t w rest _ _ IH H. unfold noCR in *.
    rewrite forallb_app in H. apply andb_prop in H as [_ H].
    cbn [forallb] in H. apply andb_prop in H as [_ H].
    cbn [app forallb]. rewrite IH by exact H. reflexivity.
Qed.

(** X12.  Stage 3 returns a text without carriage return and without
    three line feeds in a row as it is, with the flag it was given; so on
    a text without carriage return a second run of stage 3 changes
    nothing.  The line-ending pass is not idempotent on other texts: from
    CR CR LF it leaves CR LF. *)
Theorem collapse_fixpoint :
  (forall md a,
     noCR md = true -> ~ threeLineFeeds md ->
     collapseBlankRuns md a = (md, a))
  /\ (forall md a a',
        noCR md = true ->
        collapseBlankRuns (fst (collapseBlankRuns md a)) a'
        = (fst (collapseBlankRuns md a), a'))
  /\ (forall b,
        normalizeLineEndings (CR :: CR :: LF :: b)
        = CR :: LF :: normalizeLineEndings b).
Proof.
  assert (A : forall md a, noCR md = true -> ~ threeLineFeeds md ->
                collapseBlankRuns md a = (md, a)).
  { intros md a C T. unfold collapseBlankRuns.
    rewrite normalizeLineEndings_fixed by exact C.
    unfold replace. rewrite collapse_fixed by exact T.
    rewrite neqb_refl. reflexivity. }
  split; [exact A|]. split.
  - intros md a a' C. apply A.
    + unfold collapseBlankRuns. cbn [fst].
      rewrite normalizeLineEndings_fixed by exact C.
      apply collapse_noCR, C.
    + apply collapseBlankRuns_bounded.
  - intros b. unfold normalizeLineEndings, replaceLiteral, replace.
    rewrite replaceAt_nomatch by reflexivity.
    rewrite crlf_match. rewrite (crlf_prev b (Some LF) None). reflexivity.
Qed.

Lemma collapse_fixpoint_witness :
  collapseBlankRuns (lit "a" ++ LF :: LF :: lit "b") false
  = (lit "a" ++ LF :: LF :: lit "b", false).
Proof.
  apply (proj1 collapse_fixpoint).
  - reflexivity.
  - intros [a [b E]].
    destruct a as [|x1 [|x2 [|x3 [|x4 a]]]]; try discriminate;
      injection E as E1 E2 E3 E4; try discriminate.
    destruct a; discriminate.
Defined.

(** ** Stage 3: the CR LF pairs *)

Lemma endsInCR_cons c y s : endsInCR (c :: y :: s) = endsInCR (y :: s).
Proof. reflexivity. Qed.

(** A line feed that follows no carriage return stays a line feed. *)
Lemma crlf_feed a : forall prev b,
  endsInCR a = false ->
  crlfFrom prev (a ++ LF :: b)
  = crlfFrom prev a ++ LF :: crlfFrom (Some LF) b.
Proof.
  remember (length a) as n eqn:Hn. revert a Hn.
  induction n as [n IH] using lt_wf_ind. intros a Hn prev b Ha.
  destruct a as [|c a].
  - cbn [app]. rewrite replaceAt_nomatch by reflexivity.
    rewrite crlf_nil. reflexivity.
  - cbn [app].
    destruct (literal [CR; LF] prev (c :: a ++ LF :: b)) as [m|] eqn:E.
    + rewrite literal_crlf in E. destruct a as [|y a].
      * cbn [app] in E. cbn [endsInCR] in Ha.
        rewrite N.eqb_sym, Ha in E. discriminate.
      * cbn [app] in E.
        destruct ((CR =? c)%N && (LF =? y)%N) eqn:B; [|discriminate].
        apply andb_prop in B as [B1 B2]. apply N.eqb_eq in B1, B2. subst c y.
        cbn [app]. rewrite !crlf_match.
        assert (Ha' : endsInCR a = false)
          by (destruct a; [reflexivity|exact Ha]).
        rewrite (IH (length a)) by (subst n; simpl; lia || reflexivity || exact Ha').
        reflexivity.
    + rewrite replaceAt_nomatch by exact E.
      assert (Ha' : endsInCR a = false)
        by (destruct a; [reflexivity|exact Ha]).
      rewrite (IH (length a)) by (subst n; simpl; lia || reflexivity || exact Ha').
      rewrite replaceAt_nomatch with (s := a); [reflexivity|].
      rewrite literal_crlf in *. destruct a as [|y a]; [reflexivity|].
      exact E.
Qed.

Lemma normalizeLineEndings_feed a b :
  endsInCR a = false ->
  normalizeLineEndings (a ++ LF :: b)
  = normalizeLineEndings a ++ LF :: normalizeLineEndings b.
Proof.
  intros Ha. unfold normalizeLineEndings, replaceLiteral, replace.
  rewrite crlf_feed by exact Ha. rewrite (crlf_prev b (Some LF) None).
  reflexivity.
Qed.

(** The stage looks at its text after the line-ending pass only. *)
Lemma collapseBlankRuns_normal md md' applied :
  normalizeLineEndings md = normalizeLineEndings md' ->
  collapseBlankRuns md applied = collapseBlankRuns md' applied.
Proof. intros E. unfold collapseBlankRuns. rewrite E. reflexivity. Qed.

Lemma crlf_no_feed s : forall prev,
  forallb (fun c => negb (c =? LF)%N) s = true -> crlfFrom prev s = s.
Proof.
  induction s as [|c s IH]; intros prev F; [apply crlf_nil|].
  cbn [forallb] in F. apply andb_prop in F as [_ F].
  rewrite replaceAt_nomatch.
  - rewrite IH by exact F. reflexivity.
  - rewrite literal_crlf. destruct s as [|y s]; [reflexivity|].
    cbn [forallb] in F. apply andb_prop in F as [Fy _].
    apply negb_true_iff in Fy. rewrite (N.eqb_sym LF y), Fy, andb_false_r.
    reflexivity.
Qed.

Lemma no_feed_no_run s :
  forallb (fun c => negb (c =? LF)%N) s = true -> ~ threeLineFeeds s.
Proof.
  intros F (a & b & ->). rewrite forallb_app in F.
  apply andb_prop in F as [_ F]. discriminate F.
Qed.

(** The line-ending pass on a run of line breaks. *)
Lemma crlf_lineBreaks pairs b : forall prev,
  forallb (fun c => negb (c =? CR)%N) b = true ->
  crlfFrom prev (lineBreaks pairs ++ b)
  = List.repeat LF (length pairs) ++ b.
Proof.
  induction pairs as [|pair pairs IH]; intros prev F.
  - cbn [lineBreaks flat_map app length List.repeat].
    apply replaceAt_fixed with (p := fun c => negb (c =? CR)%N).
    + intros p c t H. apply literal_head. apply negb_true_iff. exact H.
    + reflexivity.
    + exact F.
  - unfold lineBreaks in *. cbn [flat_map length List.repeat].
    destruct pair; cbn [app].
    + rewrite crlf_match, IH by exact F. reflexivity.
    + rewrite replaceAt_nomatch by reflexivity.
      rewrite IH by exact F. reflexivity.
Qed.

Lemma normalizeLineEndings_lineBreaks a pairs b :
  oneLine a = true -> oneLine b = true ->
  normalizeLineEndings (a ++ lineBreaks pairs ++ b)
  = a ++ List.repeat LF (length pairs) ++ b.
Proof.
  intros Ha Hb. unfold oneLine in *.
  assert (Ca : forallb (fun c => negb (c =? CR)%N) a = true).
  { eapply forallb_weaken; [|exact Ha]. intros c H.
    apply andb_prop in H as [_ H]. exact H. }
  assert (Cb : forallb (fun c => negb (c =? CR)%N) b = true).
  { eapply forallb_weaken; [|exact Hb]. intros c H.
    apply andb_prop in H as [_ H]. exact H. }
  unfold normalizeLineEndings, replaceLiteral, replace.
  rewrite replaceAt_skip with (p := fun c => negb (c =? CR)%N);
    [|intros p c t H; apply literal_head; apply negb_true_iff; exact H
     |exact Ca].
  rewrite crlf_lineBreaks by exact Cb. reflexivity.
Qed.

Lemma two_feeds_no_run a b k :
  oneLine a = true -> oneLine b = true -> (k < 3)%nat ->
  ~ threeLineFeeds (a ++ List.repeat LF k ++ b).
Proof.
  intros Ha Hb K. unfold oneLine in *.
  assert (G : forall a, forallb (fun c => negb (c =? LF)%N && negb (c =? CR)%N) a
                        = true ->
                        forall x y, a ++ List.repeat LF k ++ b
                                    = x ++ LF :: LF :: LF :: y -> False).
  { clear a Ha. induction a as [|c a IH]; intros Ha x y E.
    - cbn [app] in E.
      assert (Hb0 : forall z, b = LF :: z -> False).
      { intros z ->. discriminate Hb. }
      destruct x as [|x0 x].
      + destruct k as [|[|[|k]]]; try lia; cbn in E.
        * apply (Hb0 _ E).
        * injection E as E. apply (Hb0 _ E).
        * injection E as E. apply (Hb0 _ E).
      + assert (F : forallb (fun c => negb (c =? LF)%N) b = true).
        { eapply forallb_weaken; [|exact Hb]. intros c H.
          apply andb_prop in H as [H _]. exact H. }
        assert (T : forall z, b = z ++ LF :: LF :: LF :: y -> False).
        { intros z ->. rewrite forallb_app in F.
          apply andb_prop in F as [_ F]. discriminate F. }
        destruct k as [|[|[|k]]]; try lia; cbn in E.
        * apply (T (x0 :: x)). exact E.
        * injection E as _ E. destruct x as [|x1 x].
          -- cbn in E. apply (Hb0 _ E).
          -- apply (T (x1 :: x)). exact E.
        * injection E as _ E. destruct x as [|x1 x].
          -- cbn in E. injection E as E. apply (Hb0 _ E).
          -- injection E as _ E. destruct x as [|x2 x].
             ++ cbn in E. apply (Hb0 _ E).
             ++ apply (T (x2 :: x)). exact E.
    - cbn [forallb] in Ha. apply andb_prop in Ha as [Hc Ha].
      apply andb_prop in Hc as [Hc _]. apply negb_true_iff in Hc.
      destruct x as [|x0 x].
      + cbn [app] in E. injection E as -> _. discriminate Hc.
      + cbn [app] in E. injection E as _ E. apply (IH Ha x y E). }
  intros (x & y & E). apply (G a Ha x y E).
Qed.

(** C7, as the code has it.  With [convertToSingleSpaced] on and
    [removeEmptyLines] off (and no replacement rule after it) the result
    of the function has no three line feeds in a row, whatever the input
    and the other arguments, and neither has the result of the stage.  A
    run of three or more line feeds between two texts without line feed
    and carriage return becomes exactly two line feeds, with the flag
    set.  The stage replaces the CR LF pairs by line feeds first: a run
    of line breaks, each a CR LF pair or a line feed, between two such
    texts becomes as many line feeds when there are at most two of them
    (the flag is left as it was) and two line feeds when there are more
    (the flag is set); a CR LF pair that follows no carriage return gives
    the text and the flag of a line feed in its place; and on any text
    with a CR LF pair the stage returns what the collapsing makes of the
    text before the pair and the text after it, both with their pairs
    replaced, and a line feed between them.  A carriage return alone is
    no line break to the stage: a text without line feed is returned as
    it is, with the flag it was given. *)
Theorem blank_runs_collapsed :
  (forall (Exn RegExpObj : Type) (newRegExp : str -> Exn + RegExpObj)
          (replaceRegExp : RegExpObj -> str -> str -> Exn + str)
          md settings contextLevel escapeMarkdown,
     convertToSingleSpaced settings = true ->
     removeEmptyLines settings = false ->
     markdownRegexReplacements settings = [] ->
     exists r,
       transformMarkdown newRegExp replaceRegExp md settings contextLevel
         escapeMarkdown = inr r
       /\ ~ threeLineFeeds (markdown r))
  /\ (forall md applied, ~ threeLineFeeds (fst (collapseBlankRuns md applied)))
  /\ (forall a b k applied,
        oneLine a = true -> oneLine b = true -> (3 <= k)%nat ->
        collapseBlankRuns (a ++ List.repeat LF k ++ b) applied
        = (a ++ LF :: LF :: b, true))
  /\ (forall a b pairs applied,
        oneLine a = true -> oneLine b = true ->
        collapseBlankRuns (a ++ lineBreaks pairs ++ b) applied
        = (a ++ List.repeat LF (Nat.min (length pairs) 2) ++ b,
           if (3 <=? length pairs)%nat then true else applied))
  /\ (forall a b applied,
        endsInCR a = false ->
        collapseBlankRuns (a ++ CR :: LF :: b) applied
        = collapseBlankRuns (a ++ LF :: b) applied)
  /\ (forall md applied,
        forallb (fun c => negb (c =? LF)%N) md = true ->
        collapseBlankRuns md applied = (md, applied))
  /\ (forall a b applied,
        fst (collapseBlankRuns (a ++ CR :: LF :: b) applied)
        = replace blankRun (fun _ => [LF; LF])
            (normalizeLineEndings a ++ LF :: normalizeLineEndings b)).
Proof.
  split; [|split; [|split; [|split; [|split; [|split]]]]].
  - intros Exn RegExpObj newRegExp replaceRegExp md settings contextLevel
      escapeMarkdown C R N.
    eexists. split; [apply transformMarkdown_no_rules; exact N|].
    cbn [markdown]. unfold textStages. rewrite C, R. cbn [negb andb].
    destruct (if negb escapeMarkdown then _ else _) as [md1 a1].
    apply collapseBlankRuns_bounded.
  - apply collapseBlankRuns_bounded.
  - apply collapseBlankRuns_run.
  - intros a b pairs applied Ha Hb.
    assert (N0 : normalizeLineEndings (a ++ List.repeat LF (length pairs) ++ b)
                 = a ++ List.repeat LF (length pairs) ++ b).
    { pose proof (normalizeLineEndings_lineBreaks a
                    (List.repeat false (length pairs)) b Ha Hb) as E.
      rewrite repeat_length in E. rewrite <- E at 2. f_equal. f_equal. f_equal.
      clear. induction (length pairs) as [|n IH]; [reflexivity|].
      cbn [List.repeat lineBreaks flat_map app]. f_equal. exact IH. }
    rewrite (collapseBlankRuns_normal (a ++ lineBreaks pairs ++ b)
               (a ++ List.repeat LF (length pairs) ++ b) applied)
      by (rewrite N0; apply normalizeLineEndings_lineBreaks; assumption).
    destruct (Nat.leb_spec 3 (length pairs)) as [K|K].
    + rewrite (@collapseBlankRuns_run a b (length pairs) applied Ha Hb K).
      rewrite Nat.min_r by lia. reflexivity.
    + rewrite Nat.min_l by lia. unfold collapseBlankRuns. rewrite N0.
      unfold replace.
      rewrite collapse_fixed by (apply two_feeds_no_run; assumption).
      rewrite neqb_refl. reflexivity.
  - intros a b applied Ha. apply collapseBlankRuns_normal.
    rewrite normalizeLineEndings_pair, normalizeLineEndings_feed by exact Ha.
    reflexivity.
  - intros md applied F. unfold collapseBlankRuns.
    assert (N0 : normalizeLineEndings md = md)
      by (unfold normalizeLineEndings, replaceLiteral, replace;
          apply crlf_no_feed; exact F).
    rewrite N0. unfold replace.
    rewrite collapse_fixed by (apply no_feed_no_run; exact F).
    rewrite neqb_refl. reflexivity.
  - intros a b applied. unfold collapseBlankRuns. cbn [fst].
    rewrite normalizeLineEndings_pair. reflexivity.
Qed.

Lemma blank_runs_collapsed_witness :
  collapseBlankRuns (lit "a" ++ List.repeat LF 4 ++ lit "b") false
  = (lit "a" ++ LF :: LF :: lit "b", true)
  /\ (exists r,
        LiteralEngine.transform (lit "a" ++ List.repeat LF 4 ++ lit "b")
          settingsCollapse 0 false = inr r
        /\ ~ threeLineFeeds (markdown r))
  /\ collapseBlankRuns
       (lit "a" ++ CR :: LF :: LF :: CR :: LF :: lit "b") false
     = (lit "a" ++ LF :: LF :: lit "b", true)
  /\ collapseBlankRuns (lit "a" ++ CR :: LF :: CR :: LF :: lit "b") true
     = collapseBlankRuns (lit "a" ++ LF :: CR :: LF :: lit "b") true
  /\ collapseBlankRuns (lit "a" ++ CR :: CR :: CR :: lit "b") false
     = (lit "a" ++ CR :: CR :: CR :: lit "b", false).
Proof.
  split; [|split; [|split; [|split]]].
  - apply (proj1 (proj2 (proj2 blank_runs_collapsed)));
      [reflexivity|reflexivity|lia].
  - apply (proj1 blank_runs_collapsed); reflexivity.
  - apply (proj1 (proj2 (proj2 (proj2 blank_runs_collapsed)))
             (lit "a") (lit "b") [true; false; true] false); reflexivity.
  - apply (proj1 (proj2 (proj2 (proj2 (proj2 blank_runs_collapsed))))
             (lit "a") (CR :: LF :: lit "b") true). reflexivity.
  - apply (proj1 (proj2 (proj2 (proj2 (proj2 (proj2 blank_runs_collapsed)))))).
    reflexivity.
Defined.

(** C7 as stated fails on the old line ending, a lone carriage return:
    three of them in a row are neither normalised nor collapsed, and the
    flag stays off. *)
Lemma blank_runs_collapsed_counterexample :
  collapseBlankRuns (lit "a" ++ CR :: CR :: CR :: lit "b") false
  = (lit "a" ++ CR :: CR :: CR :: lit "b", false).
Proof. vm_compute. reflexivity. Qed.

(** ** Stage 4: the lines that are not blank *)

Lemma filterLine_kept p lines i l :
  nth_error lines i = Some l -> keptLine p l = true ->
  filterLine p lines i = [l].
Proof.
  intros N K. unfold keptLine, hasPreserveMarker in K.
  apply andb_prop in K as [B M]. apply negb_true_iff in B, M.
  unfold isBlank in B. unfold filterLine. rewrite N, M, B. reflexivity.
Qed.

Lemma filterLine_nonblank p lines i l :
  nth_error lines i = Some l ->
  filter (fun l => negb (isBlank l)) (filterLine p lines i)
  = if keptLine p l then [l] else [].
Proof.
  intros N. destruct (keptLine p l) eqn:K.
  - rewrite (filterLine_kept p lines i l N K).
    apply andb_prop in K as [B _]. cbn [filter]. rewrite B. reflexivity.
  - unfold keptLine, hasPreserveMarker in K. unfold filterLine. rewrite N.
    destruct (p && (test preserveClass l || test preserveData l)).
    + reflexivity.
    + rewrite andb_true_r in K. apply negb_false_iff in K.
      pose proof K as K'. unfold isBlank in K'. rewrite K'. cbn [andb negb].
      repeat match goal with
             | |- context [if ?b then _ else _] => destruct b
             end; cbn [filter]; rewrite ?K; reflexivity.
Qed.

(** X13.  The loop of stage 4 drops and adds blank lines only: the lines
    of its result that are not blank are the lines of its input that are
    not blank and that rule 1 does not replace, in order. *)
Theorem filter_keeps_nonblank p lines :
  filter (fun l => negb (isBlank l)) (filterLines p lines)
  = filter (keptLine p) lines.
Proof.
  unfold filterLines.
  assert (G : forall rest k, skipn k lines = rest ->
    filter (fun l => negb (isBlank l))
      (flat_map (filterLine p lines) (seq k (length rest)))
    = filter (keptLine p) rest).
  { induction rest as [|l rest IH]; intros k E.
    - reflexivity.
    - apply skipn_cons_nth in E as [N E]. cbn [length seq flat_map].
      rewrite filter_app, (IH (S k) E), (filterLine_nonblank p lines k l N).
      cbn [filter]. destruct (keptLine p l); reflexivity. }
  apply (G lines 0%nat). reflexivity.
Qed.

Lemma filterLines_kept p lines :
  forallb (keptLine p) lines = true -> filterLines p lines = lines.
Proof.
  intros F. unfold filterLines.
  assert (G : forall rest k, skipn k lines = rest ->
    forallb (keptLine p) rest = true ->
    flat_map (filterLine p lines) (seq k (length rest)) = rest).
  { induction rest as [|l rest IH]; intros k E K.
    - reflexivity.
    - apply skipn_cons_nth in E as [N E]. cbn [length seq flat_map].
      cbn [forallb] in K. apply andb_prop in K as [Kl K].
      rewrite (IH (S k) E K), (filterLine_kept p lines k l N Kl).
      reflexivity. }
  apply (G lines 0%nat); [reflexivity|exact F].
Qed.

(** X14.  Stage 4 returns a text without carriage return as it is, with
    the flag it was given, when no line of the text is blank and, with
    line breaks preserved, none holds a marker. *)
Theorem filter_dense_is_noop p md a :
  noCR md = true -> forallb (keptLine p) (split LF md) = true ->
  removeEmptyLinesStage p md a = (md, a).
Proof.
  intros C K. unfold removeEmptyLinesStage.
  rewrite normalizeLineEndings_fixed by exact C.
  rewrite filterLines_kept by exact K.
  rewrite join_split, neqb_refl, orb_false_r. reflexivity.
Qed.

Lemma filter_dense_is_noop_witness :
  removeEmptyLinesStage true (lit "# a" ++ LF :: lit "b" ++ LF :: lit "---") true
  = (lit "# a" ++ LF :: lit "b" ++ LF :: lit "---", true).
Proof.
  apply (filter_dense_is_noop true
           (lit "# a" ++ LF :: lit "b" ++ LF :: lit "---") true).
  - vm_compute. reflexivity.
  - vm_compute. reflexivity.
Defined.

(** ** Stage 4: the marker of a line break *)

Lemma lazyUntil_found closing body post :
  noTerminator body = true ->
  exists t, lazyUntil closing (body ++ closing ++ post) = Some t.
Proof.
  intros H. induction body as [|c body IH].
  - exists closing. cbn [app].
    pose proof (stripPrefix_app closing post) as E.
    destruct (closing ++ post); cbn [lazyUntil]; rewrite E; reflexivity.
  - cbn [noTerminator forallb] in H. apply andb_prop in H as [Hc H].
    apply negb_true_iff in Hc. destruct (IH H) as [t E].
    cbn [app lazyUntil].
    destruct (stripPrefix closing (c :: body ++ closing ++ post)); [eauto|].
    rewrite Hc, E. cbn. eauto.
Qed.

Lemma preserveMarker_here opening prev attrs body post :
  forallb (fun c => negb (c =? GT)%N) attrs = true ->
  noTerminator body = true ->
  exists m,
    preserveMarker opening prev
      (opening ++ attrs ++ GT :: body ++ lit "</p>" ++ post)
    = Some m.
Proof.
  intros A B. unfold preserveMarker. rewrite stripPrefix_app.
  rewrite span_run by (exact A || reflexivity).
  destruct (lazyUntil_found (lit "</p>") body post B) as [t ->].
  cbn [option_map]. eauto.
Qed.

Lemma searchFrom_found re pre s :
  (forall prev, exists m, re prev s = Some m) ->
  forall prev, searchFrom re prev (pre ++ s) = true.
Proof.
  intros H. induction pre as [|c pre IH]; intros prev.
  - cbn [app]. destruct (H prev) as [m E].
    destruct s; cbn [searchFrom]; rewrite E; reflexivity.
  - cbn [app searchFrom]. destruct (re prev (c :: pre ++ s)); [reflexivity|].
    apply IH.
Qed.

(** X15.  Rule 1 of stage 4.  A line that holds, anywhere, the opening
    text of a marker, attributes without closing angle, a closing angle,
    a body without line terminator and the closing tag has a marker.  A
    line with a marker is replaced by an empty line when line breaks are
    preserved, and is kept as it is when they are stripped. *)
Theorem preserve_marker_line :
  (forall opening pre attrs body post,
     opening = classOpening \/ opening = dataOpening ->
     forallb (fun c => negb (c =? GT)%N) attrs = true ->
     noTerminator body = true ->
     hasPreserveMarker
       (pre ++ opening ++ attrs ++ GT :: body ++ lit "</p>" ++ post) = true)
  /\ (forall lines i line,
        nth_error lines i = Some line -> hasPreserveMarker line = true ->
        filterLine true lines i = [[]] /\ filterLine false lines i = [line]).
Proof.
  split.
  - intros opening pre attrs body post O A B. unfold hasPreserveMarker, test.
    destruct O as [-> | ->].
    + unfold preserveClass. fold classOpening.
      rewrite (searchFrom_found (preserveMarker classOpening));
        [reflexivity|intros prev; apply preserveMarker_here; assumption].
    + unfold preserveData. fold dataOpening.
      rewrite (searchFrom_found (preserveMarker dataOpening));
        [apply orb_true_r|intros prev; apply preserveMarker_here; assumption].
  - intros lines i line N M. split.
    + unfold filterLine. rewrite N. unfold hasPreserveMarker in M. rewrite M.
      reflexivity.
    + apply filterLine_kept; [exact N|]. unfold keptLine. cbn [andb negb].
      rewrite andb_true_r. apply negb_true_iff.
      destruct (isBlank line) eqn:B; [|reflexivity].
      apply isBlank_no_marker in B. unfold hasPreserveMarker in M. congruence.
Qed.

Lemma preserve_marker_line_witness :
  hasPreserveMarker
    (lit "x " ++ classOpening ++ lit " id=1" ++ GT :: lit "br" ++ lit "</p>"
       ++ lit " y") = true
  /\ filterLine true [lit "a"; classOpening ++ GT :: lit "</p>"; lit "b"] 1
     = [[]]
  /\ filterLine false [lit "a"; classOpening ++ GT :: lit "</p>"; lit "b"] 1
     = [classOpening ++ GT :: lit "</p>"].
Proof.
  split.
  - apply (proj1 preserve_marker_line classOpening (lit "x ") (lit " id=1")
             (lit "br") (lit " y")).
    + left. reflexivity.
    + vm_compute. reflexivity.
    + vm_compute. reflexivity.
  - apply (proj2 preserve_marker_line
             [lit "a"; classOpening ++ GT :: lit "</p>"; lit "b"] 1%nat
             (classOpening ++ GT :: lit "</p>")).
    + reflexivity.
    + vm_compute. reflexivity.
Defined.

(** ** Stage 4: the row of a table *)

Lemma greedyUntil_found c0 cells rest :
  noTerminator cells = true ->
  exists t, greedyUntil c0 (cells ++ c0 :: rest) = Some t.
Proof.
  intros H. induction cells as [|c cells IH].
  - cbn [app greedyUntil].
    destruct (if isLineTerminator c0 then None else greedyUntil c0 rest);
      [eauto|]. rewrite N.eqb_refl. eauto.
  - cbn [noTerminator forallb] in H. apply andb_prop in H as [Hc H].
    apply negb_true_iff in Hc. destruct (IH H) as [t E].
    cbn [app greedyUntil]. rewrite Hc, E. eauto.
Qed.

Lemma tableLine_row ws cells rest :
  forallb isWhiteSpace ws = true -> noTerminator cells = true ->
  test tableLine (ws ++ PIPE :: cells ++ PIPE :: rest) = true.
Proof.
  intros W C. unfold test.
  assert (E : exists m,
    tableLine None (ws ++ PIPE :: cells ++ PIPE :: rest) = Some m).
  { unfold tableLine. cbn [atStart].
    rewrite span_run by (exact W || reflexivity).
    rewrite N.eqb_refl.
    destruct (greedyUntil_found PIPE cells rest C) as [t ->].
    cbn [option_map]. eauto. }
  destruct E as [m E].
  destruct (ws ++ PIPE :: cells ++ PIPE :: rest); cbn [searchFrom];
    rewrite E; reflexivity.
Qed.

(** X16.  Rule 3 of stage 4: the blank line before the row of a table
    (white space, a pipe, cells without line terminator and a second
    pipe, then anything) is kept. *)
Theorem blank_line_before_table p lines i currentLine ws cells rest :
  nth_error lines i = Some currentLine -> isBlank currentLine = true ->
  nth_error lines (i + 1) = Some (ws ++ PIPE :: cells ++ PIPE :: rest) ->
  forallb isWhiteSpace ws = true -> noTerminator cells = true ->
  filterLine p lines i = [currentLine].
Proof.
  intros N B N' W C.
  rewrite (filterLine_blank p lines i N B), N'.
  rewrite (tableLine_row ws cells rest W C), orb_true_r. reflexivity.
Qed.

Lemma blank_line_before_table_witness :
  filterLine true [lit "x"; lit " "; lit "| a | b |"] 1 = [lit " "].
Proof.
  apply (blank_line_before_table true [lit "x"; lit " "; lit "| a | b |"]
           1%nat (lit " ") [] (lit " a ") (lit " b |"));
    vm_compute; reflexivity.
Defined.

Lemma filterLine_sifted p lines i l :
  nth_error lines i = Some l ->
  (p && hasPreserveMarker l = true /\ filterLine p lines i = [[]])
  \/ (p && hasPreserveMarker l = false
      /\ (filterLine p lines i = [l]
          \/ (isBlank l = true /\ filterLine p lines i = []))).
Proof.
  intros N. unfold filterLine. rewrite N.
  change (test preserveClass l || test preserveData l)
    with (hasPreserveMarker l).
  change (JS.eqb (trim l) []) with (isBlank l).
  destruct (p && hasPreserveMarker l); [left; auto|right].
  split; [reflexivity|].
  destruct (isBlank l); cbn [andb negb];
    repeat match goal with
           | |- context [if ?b then _ else _] => destruct b
           end; auto.
Qed.

Lemma filterLines_sifted p lines : sifted p lines (filterLines p lines).
Proof.
  unfold filterLines.
  assert (G : forall rest k, skipn k lines = rest ->
    sifted p rest (flat_map (filterLine p lines) (seq k (length rest)))).
  { induction rest as [|l rest IH]; intros k E.
    - constructor.
    - apply skipn_cons_nth in E as [N E]. cbn [length seq flat_map].
      specialize (IH (S k) E).
      destruct (filterLine_sifted p lines k l N) as [[M F]|[M [F|[B F]]]];
        rewrite F; cbn [app].
      + apply sifted_empty; assumption.
      + apply sifted_keep; assumption.
      + apply sifted_drop; assumption. }
  apply (G lines 0%nat). reflexivity.
Qed.

(** X17.  Stage 4 never returns a longer text: its lines are lines of
    the input, in order, some dropped and some emptied. *)
Theorem filter_never_lengthens p md a :
  (length (fst (removeEmptyLinesStage p md a)) <= length md)%nat
  /\ fst (removeEmptyLinesStage p md a)
     = join LF (filterLines p (split LF (normalizeLineEndings md)))
  /\ sifted p (split LF (normalizeLineEndings md))
       (filterLines p (split LF (normalizeLineEndings md))).
Proof.
  split; [|split; [reflexivity|apply filterLines_sifted]].
  unfold removeEmptyLinesStage. cbn [fst].
  pose proof (thinned_join (filterLines_thinned p
                (split LF (normalizeLineEndings md)))) as L.
  rewrite join_split in L.
  pose proof (crlf_length md None) as L2.
  unfold normalizeLineEndings, replaceLiteral, replace in *. lia.
Qed.

(** ** Stage 4: the lines that rules 2, 3 and 4 look for *)

(** A regex that starts with [^] and has no [m] flag is tested at the
    start of the line only. *)
Lemma searchFrom_inside re c s :
  (forall prev t, atStart prev = false -> re prev t = None) ->
  searchFrom re (Some c) s = false.
Proof.
  intros A. revert c. induction s as [|d s IH]; intros c.
  - cbn [searchFrom]. rewrite A by reflexivity. reflexivity.
  - cbn [searchFrom]. rewrite A by reflexivity. apply IH.
Qed.

Lemma test_atStart re s :
  (forall prev t, atStart prev = false -> re prev t = None) ->
  test re s = match re None s with Some _ => true | None => false end.
Proof.
  intros A. unfold test.
  destruct s as [|c s]; cbn [searchFrom]; destruct (re None _); try reflexivity.
  apply searchFrom_inside, A.
Qed.

Lemma forallb_repeat (x : char) s :
  forallb (N.eqb x) s = true -> s = List.repeat x (length s).
Proof.
  induction s as [|c s IH]; [reflexivity|]. cbn [forallb]. intros H.
  apply andb_prop in H as [Hc H]. apply N.eqb_eq in Hc. subst c.
  cbn [length List.repeat]. f_equal. apply IH, H.
Qed.

Lemma repeat_forallb (x : char) k : forallb (N.eqb x) (List.repeat x k) = true.
Proof.
  induction k as [|k IH]; [reflexivity|]. cbn [List.repeat forallb].
  rewrite N.eqb_refl. exact IH.
Qed.

Lemma ruleLine_shape line :
  test ruleLine line = true <->
  exists ws k ws',
    line = ws ++ List.repeat DASH k ++ ws'
    /\ forallb isWhiteSpace ws = true /\ (3 <= k)%nat
    /\ forallb isWhiteSpace ws' = true.
Proof.
  rewrite test_atStart
    by (intros prev t A; unfold ruleLine; rewrite A; reflexivity).
  unfold ruleLine. cbn [atStart]. split.
  - pose proof (span_app isWhiteSpace line) as A1.
    pose proof (span_forall isWhiteSpace line) as F1.
    destruct (span isWhiteSpace line) as [ws s1]. cbn [fst snd] in *.
    pose proof (span_app (N.eqb DASH) s1) as A2.
    pose proof (span_forall (N.eqb DASH) s1) as F2.
    destruct (span (N.eqb DASH) s1) as [dashes s2]. cbn [fst snd] in *.
    pose proof (span_app isWhiteSpace s2) as A3.
    pose proof (span_forall isWhiteSpace s2) as F3.
    destruct (span isWhiteSpace s2) as [ws' s3]. cbn [fst snd] in *.
    destruct (Nat.leb_spec 3 (length dashes)) as [L|]; [|discriminate].
    destruct s3; [|discriminate]. intros _.
    exists ws, (length dashes), ws'. rewrite app_nil_r in A3.
    rewrite <- (forallb_repeat DASH dashes F2). subst. auto.
  - intros (ws & k & ws' & -> & W & K & W').
    destruct k as [|k]; [lia|]. cbn [List.repeat app].
    rewrite span_run by (exact W || reflexivity).
    change (DASH :: List.repeat DASH k ++ ws')
      with (List.repeat DASH (S k) ++ ws').
    rewrite span_split.
    + rewrite span_all by exact W'. rewrite repeat_length.
      destruct (Nat.leb_spec 3 (S k)); [reflexivity|lia].
    + apply repeat_forallb.
    + apply forallb_weaken with (p := isWhiteSpace); [|exact W'].
      intros c Hc. destruct (N.eqb_spec DASH c) as [<-|]; [discriminate|].
      reflexivity.
Qed.

Lemma headingLine_shape line :
  test headingLine line = true <->
  exists k w rest,
    line = List.repeat HASH k ++ w :: rest
    /\ (1 <= k <= 6)%nat /\ isWhiteSpace w = true.
Proof.
  rewrite test_atStart
    by (intros prev t A; unfold headingLine; rewrite A; reflexivity).
  unfold headingLine. cbn [atStart]. split.
  - destruct (headingMarker line) as [m|] eqn:E; [|discriminate]. intros _.
    apply headingMarker_Some in E as (h & w & rest & -> & _ & F & L & W).
    exists (length h), w, rest. rewrite <- (forallb_repeat HASH h F). auto.
  - intros (k & w & rest & -> & K & W).
    rewrite headingMarker_run
      by (apply repeat_hashes || apply whiteSpace_not_hash; exact W).
    rewrite repeat_length, W.
    destruct (Nat.leb_spec 1 k); [|lia]. destruct (Nat.leb_spec k 6); [|lia].
    reflexivity.
Qed.

Lemma greedyUntil_Some c0 s t :
  greedyUntil c0 s = Some t ->
  exists cells rest,
    s = cells ++ c0 :: rest /\ noTerminator cells = true.
Proof.
  revert t. induction s as [|c s IH]; intros t; [discriminate|].
  cbn [greedyUntil]. destruct (isLineTerminator c) eqn:L.
  - destruct (N.eqb_spec c c0) as [->|]; [|discriminate]. intros _.
    exists [], s. auto.
  - destruct (greedyUntil c0 s) as [t'|].
    + intros _. destruct (IH t' eq_refl) as (cells & rest & -> & N).
      exists (c :: cells), rest. split; [reflexivity|].
      cbn [noTerminator forallb]. rewrite L. exact N.
    + destruct (N.eqb_spec c c0) as [->|]; [|discriminate]. intros _.
      exists [], s. auto.
Qed.

Lemma tableLine_shape line :
  test tableLine line = true <->
  exists ws cells rest,
    line = ws ++ PIPE :: cells ++ PIPE :: rest
    /\ forallb isWhiteSpace ws = true /\ noTerminator cells = true.
Proof.
  split.
  - rewrite test_atStart
      by (intros prev t A; unfold tableLine; rewrite A; reflexivity).
    unfold tableLine. cbn [atStart].
    pose proof (span_app isWhiteSpace line) as A1.
    pose proof (span_forall isWhiteSpace line) as F1.
    destruct (span isWhiteSpace line) as [ws s1]. cbn [fst snd] in *.
    destruct s1 as [|p s2]; [discriminate|].
    destruct (N.eqb_spec p PIPE) as [->|]; [|discriminate].
    destruct (greedyUntil PIPE s2) as [t|] eqn:G; [|discriminate]. intros _.
    apply greedyUntil_Some in G as (cells & rest & -> & N).
    exists ws, cells, rest. auto.
  - intros (ws & cells & rest & -> & W & C). apply tableLine_row; assumption.
Qed.

(** X18.  The lines that rules 2, 3 and 4 of stage 4 look for: a rule is
    white space, three or more dashes and white space, and nothing else;
    the row of a table is white space, a pipe and a later pipe with no
    line terminator between them; a heading is 1 to 6 hashes and a
    white-space character at the start of the line. *)
Theorem neighbour_line_shapes line :
  (test ruleLine line = true <->
   exists ws k ws',
     line = ws ++ List.repeat DASH k ++ ws'
     /\ forallb isWhiteSpace ws = true /\ (3 <= k)%nat
     /\ forallb isWhiteSpace ws' = true)
  /\ (test tableLine line = true <->
      exists ws cells rest,
        line = ws ++ PIPE :: cells ++ PIPE :: rest
        /\ forallb isWhiteSpace ws = true /\ noTerminator cells = true)
  /\ (test headingLine line = true <->
      exists k w rest,
        line = List.repeat HASH k ++ w :: rest
        /\ (1 <= k <= 6)%nat /\ isWhiteSpace w = true).
Proof.
  split; [apply ruleLine_shape|].
  split; [apply tableLine_shape|apply headingLine_shape].
Qed.

Lemma neighbour_line_shapes_witness :
  test ruleLine (lit "  " ++ List.repeat DASH 4 ++ lit " ") = true.
Proof.
  apply (proj2 (proj1 (neighbour_line_shapes
                         (lit "  " ++ List.repeat DASH 4 ++ lit " ")))).
  exists (lit "  "), 4%nat, (lit " ").
  split; [reflexivity|]. split; [reflexivity|]. split; [lia|reflexivity].
Defined.

(** X19.  Rule 2 of stage 4 knows rules of dashes only: the blank line
    before a line of stars or of underscores is dropped, unless it
    follows a heading. *)
Theorem blank_line_before_other_rule p lines i currentLine c k :
  c = STAR \/ c = UNDERSCORE ->
  nth_error lines i = Some currentLine -> isBlank currentLine = true ->
  nth_error lines (i + 1) = Some (List.repeat c k) ->
  (forall previous, (0 < i)%nat -> nth_error lines (i - 1) = Some previous ->
     test headingLine previous = false) ->
  filterLine p lines i = [].
Proof.
  intros C N B N' P.
  assert (R : test ruleLine (List.repeat c k) = false
              /\ test tableLine (List.repeat c k) = false).
  { split.
    - rewrite test_atStart
        by (intros prev t A; unfold ruleLine; rewrite A; reflexivity).
      destruct k as [|k]; [reflexivity|].
      unfold ruleLine. cbn [atStart List.repeat span].
      destruct C as [-> | ->]; reflexivity.
    - rewrite test_atStart
        by (intros prev t A; unfold tableLine; rewrite A; reflexivity).
      destruct k as [|k]; [reflexivity|].
      unfold tableLine. cbn [atStart List.repeat span].
      destruct C as [-> | ->]; reflexivity. }
  destruct R as [R1 R2].
  rewrite (filterLine_blank p lines i N B), N', R1, R2. cbn [orb].
  destruct (0 <? i)%nat eqn:Z; [|reflexivity].
  apply Nat.ltb_lt in Z.
  destruct (nth_error lines (i - 1)) as [previous|] eqn:Np; [|reflexivity].
  rewrite (P previous Z eq_refl). reflexivity.
Qed.

Lemma blank_line_before_other_rule_witness :
  filterLine true [lit "a"; []; lit "***"] 1 = [].
Proof.
  apply (blank_line_before_other_rule true [lit "a"; []; lit "***"] 1%nat
           [] STAR 3%nat).
  - left. reflexivity.
  - reflexivity.
  - reflexivity.
  - reflexivity.
  - intros previous _ E. injection E as <-. vm_compute. reflexivity.
Defined.

(** ** Stage 5: the escape sequences of a replacement *)

(** The pass of a literal does not look at the character before. *)
Lemma literal_prev pat f s :
  pat <> [] ->
  forall prev prev',
    replaceAt (literal pat) f prev s = replaceAt (literal pat) f prev' s.
Proof.
  intros Hp prev prev'. destruct s as [|c s].
  - rewrite !replaceAt_nil
      by apply (consuming_nil (literal_consuming pat Hp)).
    reflexivity.
  - destruct (literal pat prev (c :: s)) as [m|] eqn:E.
    + pose proof E as E'.
      apply (literal_consuming pat Hp) in E' as (t & w & rest & Hm & Hs).
      rewrite Hs in *.
      rewrite !replaceAt_match with (m := m) by (exact E || exact Hm).
      reflexivity.
    + rewrite !replaceAt_nomatch by exact E. reflexivity.
Qed.

Lemma sub_miss pat rep c s :
  pat <> [] -> stripPrefix pat (c :: s) = None ->
  replaceLiteral pat rep (c :: s) = c :: replaceLiteral pat rep s.
Proof.
  intros Hp H. unfold replaceLiteral, replace.
  rewrite replaceAt_nomatch by (unfold literal; rewrite H; reflexivity).
  rewrite (literal_prev pat _ s Hp (Some c) None). reflexivity.
Qed.

Lemma sub_hit pat rep s :
  pat <> [] ->
  replaceLiteral pat rep (pat ++ s) = rep ++ replaceLiteral pat rep s.
Proof.
  intros Hp. unfold replaceLiteral, replace.
  destruct (exists_last Hp) as (t & w & E).
  assert (M : literal pat None (pat ++ s) = Some (plain pat)).
  { unfold literal. rewrite stripPrefix_app. reflexivity. }
  rewrite E in M at 2. rewrite <- app_assoc in M. cbn [app] in M.
  rewrite E at 2. rewrite <- app_assoc. cbn [app].
  rewrite replaceAt_match with (m := plain pat) by (exact M || exact E).
  rewrite (literal_prev pat _ s Hp (Some w) None). reflexivity.
Qed.

Lemma sub_hit2 x y rep s :
  replaceLiteral [x; y] rep (x :: y :: s)
  = rep ++ replaceLiteral [x; y] rep s.
Proof. apply (sub_hit [x; y] rep s). discriminate. Qed.

Lemma sub_hit4 x y z u rep s :
  replaceLiteral [x; y; z; u] rep (x :: y :: z :: u :: s)
  = rep ++ replaceLiteral [x; y; z; u] rep s.
Proof. apply (sub_hit [x; y; z; u] rep s). discriminate. Qed.

Lemma stripPrefix_same x pat s :
  stripPrefix (x :: pat) (x :: s) = stripPrefix pat s.
Proof. cbn [stripPrefix]. rewrite N.eqb_refl. reflexivity. Qed.

Lemma stripPrefix_free pat s :
  noBackslash s = true -> stripPrefix (BACKSLASH :: pat) s = None.
Proof.
  destruct s as [|c s]; [reflexivity|]. unfold noBackslash. cbn [forallb].
  intros H. apply andb_prop in H as [Hc _]. apply negb_true_iff in Hc.
  cbn [stripPrefix]. rewrite N.eqb_sym, Hc. reflexivity.
Qed.

Lemma sub_free pat rep s :
  noBackslash s = true -> replaceLiteral (BACKSLASH :: pat) rep s = s.
Proof.
  intros H. unfold replaceLiteral, replace.
  apply replaceAt_fixed with (p := fun c => negb (c =? BACKSLASH)%N).
  - intros prev c t Hc. apply negb_true_iff in Hc. apply literal_head.
    exact Hc.
  - reflexivity.
  - exact H.
Qed.

Lemma sub_skip pat rep a s :
  noBackslash a = true ->
  replaceLiteral (BACKSLASH :: pat) rep (a ++ s)
  = a ++ replaceLiteral (BACKSLASH :: pat) rep s.
Proof.
  intros H. induction a as [|c a IH]; [reflexivity|].
  unfold noBackslash in H. cbn [forallb] in H. apply andb_prop in H as [Hc H].
  cbn [app]. rewrite sub_miss.
  - rewrite IH by exact H. reflexivity.
  - discriminate.
  - apply negb_true_iff in Hc. cbn [stripPrefix]. rewrite N.eqb_sym, Hc.
    reflexivity.
Qed.

(** X20.  The decoding of the escape sequences (lines 213-219) returns
    a replacement text without backslash as it is. *)
Theorem decode_plain r :
  noBackslash r = true -> decodeReplacement r = r.
Proof.
  intros H. unfold decodeReplacement.
  change (lit "\r\n") with (BACKSLASH :: lit "r\n").
  change (lit "\n") with (BACKSLASH :: lit "n").
  change (lit "\r") with (BACKSLASH :: lit "r").
  change (lit "\t") with (BACKSLASH :: lit "t").
  change (lit "\'") with (BACKSLASH :: lit "'").
  rewrite !(sub_free _ _ r) by exact H. reflexivity.
Qed.

Lemma decode_plain_witness : decodeReplacement (lit "$1, text") = lit "$1, text".
Proof. apply (decode_plain (lit "$1, text")). reflexivity. Defined.

(** One pass over a text whose backslashes are written out. *)
Ltac literals :=
  repeat match goal with
         | |- context [lit ?s] =>
             let v := eval vm_compute in (lit s) in change (lit s) with v
         end;
  unfold BACKSLASH, QUOTE, CR, LF; cbn [app].

Ltac backslashFree :=
  solve [ assumption
        | unfold noBackslash in *; cbn [forallb]; cbn; assumption
        | unfold noBackslash in *; cbn; reflexivity ].

Ltac noPrefix :=
  solve [ discriminate
        | reflexivity
        | rewrite !stripPrefix_same; apply stripPrefix_free; backslashFree
        | cbn [stripPrefix];
          repeat match goal with
                 | |- context [(?x =? ?y)%N] =>
                     destruct (N.eqb_spec x y); try congruence; try lia
                 end; reflexivity ].

Ltac passStep :=
  cbn [app];
  rewrite ?sub_skip by backslashFree;
  repeat first [ rewrite sub_free by backslashFree
               | rewrite sub_hit4
               | rewrite sub_hit2
               | rewrite sub_miss by noPrefix ];
  cbn [app].

(** The seven passes of [decodeReplacement], the innermost first. *)
Ltac decode :=
  unfold decodeReplacement; literals;
  match goal with
  | |- replaceLiteral ?p7 ?c7 (replaceLiteral ?p6 ?c6 (replaceLiteral ?p5 ?c5
         (replaceLiteral ?p4 ?c4 (replaceLiteral ?p3 ?c3
            (replaceLiteral ?p2 ?c2 _))))) = _ =>
      set (g7 := replaceLiteral p7 c7); set (g6 := replaceLiteral p6 c6);
      set (g5 := replaceLiteral p5 c5); set (g4 := replaceLiteral p4 c4);
      set (g3 := replaceLiteral p3 c3); set (g2 := replaceLiteral p2 c2);
      passStep; subst g2; passStep; subst g3; passStep; subst g4; passStep;
      subst g5; passStep; subst g6; passStep; subst g7; passStep
  end;
  reflexivity.

Lemma escapeLetter_false x :
  escapeLetter x = false ->
  x <> 114%N /\ x <> 110%N /\ x <> 116%N /\ x <> 39%N /\ x <> 34%N.
Proof.
  unfold escapeLetter. cbn. intros L.
  repeat (apply orb_false_elim in L as [?%N.eqb_neq L]). tauto.
Qed.

(** X21.  Between texts without backslash each escape sequence of lines
    213-218 decodes to its character (CR LF, LF, CR, TAB, the two
    quotes), and two backslashes decode to one when no r, n, t or quote
    follows them. *)
Theorem decode_escape_sequence a b :
  noBackslash a = true -> noBackslash b = true ->
  (forall e c, In (e, c) escapeSequences ->
     decodeReplacement (a ++ e ++ b) = a ++ c ++ b)
  /\ (match b with [] => True | x :: _ => escapeLetter x = false end ->
      decodeReplacement (a ++ BACKSLASH :: BACKSLASH :: b) = a ++ BACKSLASH :: b).
Proof.
  intros A B. split.
  - intros e c I. unfold escapeSequences in I. cbn [In] in I.
    repeat (destruct I as [I|I]; [injection I as <- <-|]); [..|contradiction];
      decode.
  - intros L. destruct b as [|x b]; [decode|].
    apply escapeLetter_false in L as (F1 & F2 & F3 & F4 & F5).
    assert (F6 : x <> 92%N).
    { unfold noBackslash in B. cbn [forallb] in B.
      apply andb_prop in B as [Bx _]. apply negb_true_iff, N.eqb_neq in Bx.
      exact Bx. }
    decode.
Qed.

Lemma decode_escape_sequence_witness :
  decodeReplacement (lit "a" ++ lit "\n" ++ lit "b") = lit "a" ++ [LF] ++ lit "b"
  /\ decodeReplacement (lit "a" ++ BACKSLASH :: BACKSLASH :: lit "b")
     = lit "a" ++ BACKSLASH :: lit "b".
Proof.
  split.
  - apply (proj1 (decode_escape_sequence (lit "a") (lit "b")
                    eq_refl eq_refl) (lit "\n") [LF]).
    right. left. reflexivity.
  - apply (proj2 (decode_escape_sequence (lit "a") (lit "b")
                    eq_refl eq_refl)).
    reflexivity.
Defined.

(** X22.  A backslash before an escape sequence does not protect it:
    the sequence is decoded all the same and the backslash is kept,
    since the pass of the two backslashes runs last. *)
Theorem decode_backslash_does_not_protect a b e c :
  noBackslash a = true -> noBackslash b = true ->
  In (e, c) escapeSequences ->
  decodeReplacement (a ++ BACKSLASH :: e ++ b) = a ++ BACKSLASH :: c ++ b.
Proof.
  intros A B I. unfold escapeSequences in I. cbn [In] in I.
  repeat (destruct I as [I|I]; [injection I as <- <-|]); [..|contradiction];
    decode.
Qed.

Lemma decode_backslash_does_not_protect_witness :
  decodeReplacement (lit "a\\nb") = lit "a" ++ BACKSLASH :: LF :: lit "b".
Proof.
  apply (decode_backslash_does_not_protect (lit "a") (lit "b") (lit "\n") [LF]).
  - reflexivity.
  - reflexivity.
  - right. left. reflexivity.
Defined.

(** ** The flag is never cleared *)

Section Kept.

Context {Exn RegExpObj : Type}.
Variable newRegExp : str -> Exn + RegExpObj.
Variable replaceRegExp : RegExpObj -> str -> str -> Exn + str.

(** X23.  A flag that stage 1 or stage 2 returns on stays on: the
    function returns a result whose flag is on. *)
Theorem flag_is_never_cleared md settings contextLevel escapeMarkdown :
  snd (firstStage md settings contextLevel escapeMarkdown) = true ->
  exists r,
    transformMarkdown newRegExp replaceRegExp md settings contextLevel
      escapeMarkdown = inr r
    /\ appliedTransformations r = true.
Proof.
  intros H. apply transformMarkdown_flag.
  rewrite textStages_firstStage. cbv zeta.
  destruct (firstStage md settings contextLevel escapeMarkdown) as [t a].
  cbn [fst snd] in *. subst a.
  destruct (convertToSingleSpaced settings && negb (removeEmptyLines settings));
    destruct (removeEmptyLines settings); cbn [fst snd];
    rewrite ?collapseBlankRuns_keeps; reflexivity.
Qed.

End Kept.

Lemma flag_is_never_cleared_witness :
  exists r,
    LiteralEngine.transform (lit "# a" ++ LF :: LF :: LF :: lit "b")
      settingsNine 0 false = inr r
    /\ appliedTransformations r = true.
Proof.
  apply (flag_is_never_cleared LiteralEngine.newRegExp
           LiteralEngine.replaceRegExp
           (lit "# a" ++ LF :: LF :: LF :: lit "b") settingsNine 0 false).
  vm_compute. reflexivity.
Defined.
